(** * QUBOConvert: polynomial formats, degree reduction and solution translation

    A shallow embedding of [qubovert/_pubo.py] and
    [qubovert/utils/_conversions.py].

    A Python [dict] is an association list kept in insertion order; variable
    indices are natural numbers, so the "non-negative integer" part of the
    matrix classes' key check holds by typing.

    The functions are embedded twice.  First over the rationals ([Qc],
    canonical fractions, so that equal numbers are equal terms), with every
    product, quotient and sum taken exactly: this reading carries what does
    not depend on the arithmetic (keys, classes, the registry of reductions,
    the exceptions of the containers, the translation of solutions) and the
    algebra of the substitutions.  Then, in the module [Py], over the numbers
    that Python computes with: [int], [float] (IEEE 754 binary64) and
    [Fraction], with the rounding and the exceptions of their operations.
    The properties of the values that the code computes are stated on the
    second embedding; where its arithmetic is exact, on [int]s and
    [Fraction]s, they are transferred from the first. *)

From Stdlib Require Import List Arith Bool ZArith QArith Qcanon Lia Lqa.
From Stdlib Require Import Permutation Sorted.
From Stdlib Require String Floats.SpecFloat.
Import ListNotations.
Import String.StringSyntax.
Delimit Scope string_scope with string.
Local Close Scope Q_scope.

(** ** Exceptions and results *)

(** The Python exceptions of these code paths are all [KeyError]; the three
    first constructors keep apart the situations in which it is raised.
    [OutOfFuel] is not a Python exception: it is what the bounded unrolling of
    the [while] loop of [to_qubo] answers when its bound is exhausted. *)
Inductive exn : Set :=
| InvalidKey          (* KeyError: the subscript is not a tuple of indices *)
| InvalidTermDegree   (* KeyError: squashed key longer than 2 in a QUBO/Ising *)
| KeyNotFound         (* KeyError/IndexError: lookup of an absent key *)
| OutOfFuel.

Inductive result (A : Type) : Type :=
| Ok (a : A)
| Raise (e : exn).
Arguments Ok {A} a.
Arguments Raise {A} e.

Definition bind {A B} (r : result A) (f : A -> result B) : result B :=
  match r with
  | Ok a => f a
  | Raise e => Raise e
  end.

Notation "x <- e ;; k" := (bind e (fun x => k))
  (at level 61, e at next level, right associativity).
Notation "' p <- e ;; k" := (bind e (fun p => k))
  (at level 61, p pattern, e at next level, right associativity).

(** [for x in l: acc = f(acc, x)], stopping at the first exception. *)
Fixpoint foldM {A B} (f : A -> B -> result A) (l : list B) (acc : A) : result A :=
  match l with
  | [] => Ok acc
  | x :: t => acc' <- f acc x ;; foldM f t acc'
  end.

Fixpoint mapM {A B} (f : A -> result B) (l : list A) : result (list B) :=
  match l with
  | [] => Ok []
  | x :: t => y <- f x ;; ys <- mapM f t ;; Ok (y :: ys)
  end.

(** ** Python dictionaries, in insertion order *)

Section Dict.
Context {K V : Type} (K_eq_dec : forall a b : K, {a = b} + {a <> b}).

Definition dict := list (K * V).

(** [d.get(k)] *)
Fixpoint dict_get (d : dict) (k : K) : option V :=
  match d with
  | [] => None
  | (k', v) :: t => if K_eq_dec k k' then Some v else dict_get t k
  end.

(** [k in d] *)
Definition dict_mem (d : dict) (k : K) : bool :=
  match dict_get d k with Some _ => true | None => false end.

(** [dict.__setitem__]: an existing key keeps its place, a new one goes last. *)
Fixpoint dict_set (d : dict) (k : K) (v : V) : dict :=
  match d with
  | [] => [(k, v)]
  | (k', v') :: t =>
      if K_eq_dec k k' then (k', v) :: t else (k', v') :: dict_set t k v
  end.

(** [d.pop(k, default)], the dictionary that is left. *)
Fixpoint dict_pop (d : dict) (k : K) : dict :=
  match d with
  | [] => []
  | (k', v') :: t => if K_eq_dec k k' then t else (k', v') :: dict_pop t k
  end.

Definition keys (d : dict) : list K := map fst d.
End Dict.
Arguments dict : clear implicits.

(** ** Keys, numbers *)

Definition key := list nat.
Definition key_eq_dec : forall a b : key, {a = b} + {a <> b} :=
  list_eq_dec Nat.eq_dec.
Arguments key_eq_dec : simpl never.

(** What reaches [Q[...]]: a tuple of indices, or a bare integer. *)
Inductive subscript : Set :=
| Tup (k : key)
| Int (i : nat).

Local Open Scope Qc_scope.

Definition two : Qc := 1 + 1.
Definition three : Qc := 1 + 1 + 1.
Definition four : Qc := two * two.
Definition five : Qc := four + 1.

(** [abs(v)] *)
Definition Qcabs (v : Qc) : Qc := if Qclt_le_dec v 0 then - v else v.

(** A polynomial as a dictionary of coefficients. *)
Definition poly_dict := dict key Qc.

(** [d.get(k, 0)] *)
Definition get0 (d : poly_dict) (k : key) : Qc :=
  match dict_get key_eq_dec d k with Some v => v | None => 0 end.

(** Python's [==] between two dictionaries: as many items, and every item of
    the first is an item of the second. *)
Definition dict_eqb (d1 d2 : poly_dict) : bool :=
  (length d1 =? length d2)%nat &&
  forallb (fun '(k, v) =>
             match dict_get key_eq_dec d2 k with
             | Some w => if Qc_eq_dec v w then true else false
             | None => false
             end) d1.

(** ** Canonical monomials *)

(** [sorted(...)] on indices. *)
Fixpoint insert (x : nat) (l : list nat) : list nat :=
  match l with
  | [] => [x]
  | y :: t => if (x <=? y)%nat then x :: l else y :: insert x t
  end.

Fixpoint sorted (l : list nat) : list nat :=
  match l with
  | [] => []
  | x :: t => insert x (sorted t)
  end.

Inductive algebra : Set := BINARY | SPIN.

(** Modelled from the spec: the canonical monomial.  The classes
    [PUBOMatrix], [QUBOMatrix], [HIsingMatrix], [IsingMatrix] and their
    labelled counterparts are not among the sources; section 3 of the
    specification gives "for BINARY, the sorted sequence of distinct labels in
    the raw monomial; for SPIN, the sorted sequence of labels whose occurrence
    count in the raw monomial is odd". *)
Definition canonical (alg : algebra) (k : key) : key :=
  match alg with
  | BINARY => sorted (nodup Nat.eq_dec k)
  | SPIN =>
      sorted (filter (fun i => Nat.odd (count_occ Nat.eq_dec k i))
                     (nodup Nat.eq_dec k))
  end.

(** The eight container classes that the converters name.  The labelled
    classes ([QUBO], [Ising], [PUBO], [HIsing]) appear in the converters only
    as the containers built for an argument that is not exactly a matrix; their
    keys are kept over integer labels here, and their label bookkeeping, which
    no converter reads, is left out. *)
Inductive pyclass : Set :=
| QUBOMatrix | IsingMatrix | PUBOMatrix | HIsingMatrix
| QUBO | Ising | PUBO | HIsing.

Definition pyclass_eq_dec : forall a b : pyclass, {a = b} + {a <> b}.
Proof. decide equality. Defined.

Definition algebra_of (c : pyclass) : algebra :=
  match c with
  | QUBOMatrix | PUBOMatrix | QUBO | PUBO => BINARY
  | IsingMatrix | HIsingMatrix | Ising | HIsing => SPIN
  end.

Definition bounded_degree (c : pyclass) : bool :=
  match c with
  | QUBOMatrix | IsingMatrix | QUBO | Ising => true
  | PUBOMatrix | HIsingMatrix | PUBO | HIsing => false
  end.

(** [_check_key_valid]: the key must be a tuple, else [KeyError].  This is
    [PUBO._check_key_valid] of [_pubo.py]; the check of the matrix classes is
    not among the sources and is taken to reject a non-tuple in the same way
    (section 7 of the specification: "InvalidKey: a monomial key is not a
    well-formed label collection; raised at accumulation time"; the tests
    expect [KeyError] from [PUBOMatrix({0: -1})]).  Its other half, that the
    elements are non-negative integers, holds here by typing. *)
Definition _check_key_valid (s : subscript) : result key :=
  match s with
  | Tup k => Ok k
  | Int _ => Raise InvalidKey
  end.

(** Modelled from the spec: [squash_key] of a container class, which is not
    among the sources: check the key, canonicalize it, and "bounded-degree
    containers additionally require the canonical monomial's length <= 2,
    else construction fails". *)
Definition squash_key (c : pyclass) (s : subscript) : result key :=
  k <- _check_key_valid s ;;
  let k' := canonical (algebra_of c) k in
  if bounded_degree c && (2 <? length k')%nat
  then Raise InvalidTermDegree
  else Ok k'.

(** ** The polynomial containers *)

Record poly : Type := mkPoly { cls : pyclass; items : poly_dict }.

(** [cls()] *)
Definition new (c : pyclass) : poly := mkPoly c [].

(** Modelled from the spec: [__getitem__] of the containers, absent from the
    sources; a missing canonical key reads as 0. *)
Definition getitem (p : poly) (s : subscript) : result Qc :=
  k <- squash_key (cls p) s ;;
  Ok (get0 (items p) k).

(** Modelled from the spec: [__setitem__] of the containers, absent from the
    sources; section 4.1: the entry is created or replaced, "or removes the
    entry if the resulting coefficient equals zero". *)
Definition setitem (p : poly) (s : subscript) (value : Qc) : result poly :=
  k <- squash_key (cls p) s ;;
  Ok (mkPoly (cls p)
        (if Qc_eq_dec value 0
         then dict_pop key_eq_dec (items p) k
         else dict_set key_eq_dec (items p) k value)).

(** [p[s] += v] is [p.__setitem__(s, p.__getitem__(s) + v)]. *)
Definition iadd_item (p : poly) (s : subscript) (v : Qc) : result poly :=
  old <- getitem p s ;;
  setitem p s (old + v).

(** [p[s] -= v] *)
Definition isub_item (p : poly) (s : subscript) (v : Qc) : result poly :=
  old <- getitem p s ;;
  setitem p s (old - v).

(** Modelled from the spec: [p += other] for a dictionary [other], absent
    from the sources; section 4.1: the arithmetic combinators "are built
    purely from accumulate", one accumulation per item of [other]. *)
Definition iadd (p : poly) (other : poly_dict) : result poly :=
  foldM (fun p '(k, v) => iadd_item p (Tup k) v) other p.

(** The monomial [prod_{i in k} a[i]]. *)
Fixpoint mono (a : nat -> Qc) (k : key) : Qc :=
  match k with
  | [] => 1
  | i :: t => a i * mono a t
  end.

(** Modelled from the spec: [value(assignment)], absent from the sources
    (the tests call [P.value(sol)]): the sum over the stored terms of the
    coefficient times the product of the assigned values. *)
Fixpoint value (d : poly_dict) (a : nat -> Qc) : Qc :=
  match d with
  | [] => 0
  | (k, v) :: t => v * mono a k + value t a
  end.

(** ** [utils/_conversions.py], over the rationals *)

(** [qubo_to_ising(Q)].  [type(Q) == QUBOMatrix] selects the result class and
    the [squash_key] applied to each key of [Q].  Here [v / 2] and [v / 4]
    are the exact quotients; [Py.qubo_to_ising] has Python's division. *)
Definition qubo_to_ising (Q : poly) : result poly :=
  let L0 := if pyclass_eq_dec (cls Q) QUBOMatrix then new IsingMatrix else new Ising in
  let squash := if pyclass_eq_dec (cls Q) QUBOMatrix
                then squash_key QUBOMatrix else squash_key QUBO in
  foldM (fun L '(kp, v) =>
           k <- squash (Tup kp) ;;
           match k with
           | [] => iadd_item L (Tup k) v
           | [_] =>
               L <- iadd_item L (Tup k) (v / two) ;;
               iadd_item L (Tup []) (v / two)
           | [i; j] =>
               L <- iadd_item L (Tup k) (v / four) ;;
               L <- iadd_item L (Tup [i]) (v / four) ;;
               L <- iadd_item L (Tup [j]) (v / four) ;;
               iadd_item L (Tup []) (v / four)
           | _ => Ok L
           end) (items Q) L0.

(** [ising_to_qubo(L)] *)
Definition ising_to_qubo (L : poly) : result poly :=
  let Q0 := if pyclass_eq_dec (cls L) IsingMatrix then new QUBOMatrix else new QUBO in
  let squash := if pyclass_eq_dec (cls L) IsingMatrix
                then squash_key IsingMatrix else squash_key Ising in
  foldM (fun Q '(kp, v) =>
           k <- squash (Tup kp) ;;
           match k with
           | [] => iadd_item Q (Tup k) v
           | [_] =>
               Q <- iadd_item Q (Tup k) (two * v) ;;
               isub_item Q (Tup []) v
           | [i; j] =>
               Q <- iadd_item Q (Tup k) (four * v) ;;
               Q <- isub_item Q (Tup [i]) (two * v) ;;
               Q <- isub_item Q (Tup [j]) (two * v) ;;
               iadd_item Q (Tup []) v
           | _ => Ok Q
           end) (items L) Q0.

(** The generator [generate_new_key_value] inside [pubo_to_hising], as the
    list of the pairs it yields, in the order it yields them, the halves
    being exact and the recursion unbounded; [Py.pubo_generate_new_key_value]
    has the floats [0.5, 0.25, ...] and the recursion limit. *)
Fixpoint pubo_generate_new_key_value (k : key) : list (key * Qc) :=
  match k with
  | [] => [([], 1)]
  | k0 :: rest =>
      flat_map (fun '(key, value) =>
                  [(k0 :: key, value / two); (key, value / two)])
               (pubo_generate_new_key_value rest)
  end.

(** [pubo_to_hising(P)] *)
Definition pubo_to_hising (P : poly) : result poly :=
  let H0 := if pyclass_eq_dec (cls P) PUBOMatrix then new HIsingMatrix else new HIsing in
  let squash := if pyclass_eq_dec (cls P) PUBOMatrix
                then squash_key PUBOMatrix else squash_key PUBO in
  foldM (fun H '(k, v) =>
           sk <- squash (Tup k) ;;
           foldM (fun H '(key, value) => iadd_item H (Tup key) (value * v))
                 (pubo_generate_new_key_value sk) H)
        (items P) H0.

(** The generator [generate_new_key_value] inside [hising_to_pubo]. *)
Fixpoint hising_generate_new_key_value (k : key) : list (key * Qc) :=
  match k with
  | [] => [([], 1)]
  | k0 :: rest =>
      flat_map (fun '(key, value) =>
                  [(k0 :: key, two * value); (key, - value)])
               (hising_generate_new_key_value rest)
  end.

(** [hising_to_pubo(H)] *)
Definition hising_to_pubo (H : poly) : result poly :=
  let P0 := if pyclass_eq_dec (cls H) HIsingMatrix then new PUBOMatrix else new PUBO in
  let squash := if pyclass_eq_dec (cls H) HIsingMatrix
                then squash_key HIsingMatrix else squash_key HIsing in
  foldM (fun P '(k, v) =>
           sk <- squash (Tup k) ;;
           foldM (fun P '(key, value) => iadd_item P (Tup key) (value * v))
                 (hising_generate_new_key_value sk) P)
        (items H) P0.

(** ** [_pubo.py], over the rationals *)

(** Labels of a [PUBO]: any hashable; integers and strings are what the
    documentation uses. *)
Inductive label : Set :=
| LInt (z : Z)
| LStr (s : String.string).

Definition label_eq_dec : forall a b : label, {a = b} + {a <> b}.
Proof. decide equality; [apply Z.eq_dec | apply String.string_dec]. Defined.

(** [_constraint_xy_eq_z(x, y, z, lam)]: the dictionary display, whose later
    items overwrite earlier ones with an equal key.  The products are exact
    here; [Py._constraint_xy_eq_z] has Python's products. *)
Definition _constraint_xy_eq_z (x y z : nat) (lam : Qc) : poly_dict :=
  let D := dict_set key_eq_dec [] [z] (three * lam) in
  let D := dict_set key_eq_dec D [x; y] lam in
  let D := dict_set key_eq_dec D [x; z] (- two * lam) in
  dict_set key_eq_dec D [y; z] (- two * lam).

(** Modelled from the spec: the label bookkeeping of the [BO] parent class,
    absent from the sources; section 3: "finite bijection, label -> integer
    index in [0, n), assigned in first-seen order; inverse lookup for
    translation back".  The labels are listed in the order of their indices:
    [_mapping[l]] is the position of [l], [_reverse_mapping[i]] the label at
    position [i], [num_binary_variables] the length. *)
Record pubo : Type := mkPubo {
  terms : dict (list label) Qc;   (* self.items() *)
  labels : list label
}.

Fixpoint index_of (l : label) (ls : list label) : option nat :=
  match ls with
  | [] => None
  | l' :: t => if label_eq_dec l l' then Some O
               else option_map S (index_of l t)
  end.

(** [self._mapping[l]] *)
Definition _mapping (self : pubo) (l : label) : result nat :=
  match index_of l (labels self) with
  | Some i => Ok i
  | None => Raise KeyNotFound
  end.

(** [self._reverse_mapping[i]] *)
Definition _reverse_mapping (self : pubo) (i : nat) : result label :=
  match nth_error (labels self) i with
  | Some l => Ok l
  | None => Raise KeyNotFound
  end.

Definition num_binary_variables (self : pubo) : nat := length (labels self).

(** [to_pubo] *)
Definition to_pubo (self : pubo) : result poly :=
  foldM (fun P '(k, v) =>
           key <- mapM (_mapping self) k ;;
           iadd_item P (Tup key) v)
        (terms self) (new PUBOMatrix).

(** [default_lam] *)
Definition default_lam (v : Qc) : Qc := 1 + Qcabs v.

(** The local variables of [to_qubo] that the loops update. *)
Record reducer : Type := mkReducer {
  Q_ : poly;
  ancilla : nat;
  reductions : dict key nat
}.

(** The search "find a variable pair in k that has already been reduced".
    [scan_y x ys] is the inner loop [for y in k[i+1:]]; [find_reduced] is the
    outer loop, which meets each [x] together with the part of [k] after it
    (for the last element that part is empty, so leaving it out, as [k[:-1]]
    does, changes nothing). *)
Fixpoint scan_y (reductions : dict key nat) (x : nat) (ys : list nat)
  : option (nat * nat) :=
  match ys with
  | [] => None
  | y :: t => if dict_mem key_eq_dec reductions [x; y] then Some (x, y)
              else scan_y reductions x t
  end.

Fixpoint find_reduced (reductions : dict key nat) (k : key) : option (nat * nat) :=
  match k with
  | [] => None
  | x :: rest =>
      match scan_y reductions x rest with
      | Some p => Some p
      | None => find_reduced reductions rest
      end
  end.

(** [tuple(i for i in k if i not in (x, y))] *)
Definition without (k : key) (x y : nat) : key :=
  filter (fun i => negb ((i =? x)%nat || (i =? y)%nat)) k.

(** One turn of [while len(k) > 2]: choose [x, y, z], add the penalty, shrink
    the key. *)
Definition reduce_step (lam : Qc -> Qc) (v : Qc) (k : key) (st : reducer)
  : result (key * reducer) :=
  '(x, y, z, reductions', ancilla') <-
    match find_reduced (reductions st) k with
    | Some (x, y) =>
        match dict_get key_eq_dec (reductions st) [x; y] with
        | Some z => Ok (x, y, z, reductions st, ancilla st)
        | None => Raise KeyNotFound
        end
    | None =>
        match k with
        | x :: y :: _ =>
            Ok (x, y, ancilla st,
                dict_set key_eq_dec (reductions st) [x; y] (ancilla st),
                S (ancilla st))
        | _ => Raise KeyNotFound
        end
    end ;;
  Q' <- iadd (Q_ st) (_constraint_xy_eq_z x y z (lam v)) ;;
  Ok (sorted (without k x y ++ [z]), mkReducer Q' ancilla' reductions').

(** [while len(k) > 2: ...], unrolled at most [fuel] times. *)
Fixpoint reduce_loop (fuel : nat) (lam : Qc -> Qc) (v : Qc) (k : key)
  (st : reducer) : result (key * reducer) :=
  if (2 <? length k)%nat then
    match fuel with
    | O => Raise OutOfFuel
    | S fuel' =>
        '(k', st') <- reduce_step lam v k st ;;
        reduce_loop fuel' lam v k' st'
    end
  else Ok (k, st).

(** The body of [for kp, v in self.items()].  In the first branch
    [reductions[key]] is the ancilla's index, an integer, and that integer is
    the subscript. *)
Definition to_qubo_term (self : pubo) (lam : Qc -> Qc) (st : reducer)
  (item : list label * Qc) : result reducer :=
  let '(kp, v) := item in
  mapped <- mapM (_mapping self) kp ;;
  let key := sorted mapped in
  match dict_get key_eq_dec (reductions st) key with
  | Some z =>
      Q' <- iadd_item (Q_ st) (Int z) v ;;
      Ok (mkReducer Q' (ancilla st) (reductions st))
  | None =>
      '(k, st') <- reduce_loop (length key) lam v key st ;;
      Q' <- iadd_item (Q_ st') (Tup k) v ;;
      Ok (mkReducer Q' (ancilla st') (reductions st'))
  end.

(** [to_qubo], with the final values of all its local variables. *)
Definition to_qubo_run (self : pubo) (lam : Qc -> Qc) : result reducer :=
  foldM (to_qubo_term self lam) (terms self)
        (mkReducer (new QUBOMatrix) (num_binary_variables self) []).

(** [to_qubo(lam)]; [None] stands for the default argument. *)
Definition to_qubo (self : pubo) (lam : option (Qc -> Qc)) : result poly :=
  let lam := match lam with None => default_lam | Some f => f end in
  st <- to_qubo_run self lam ;;
  Ok (Q_ st).

(** A solution: [solution[i]] for a list, a tuple or a dictionary; [None]
    where the subscript raises. *)
Definition solution := nat -> option Z.

(** [convert_solution]: the dictionary comprehension over
    [range(self.num_binary_variables)]. *)
Definition convert_solution (self : pubo) (sol : solution)
  : result (dict label Z) :=
  foldM (fun res i =>
           l <- _reverse_mapping self i ;;
           match sol i with
           | Some s => Ok (dict_set label_eq_dec res l (if Z.eq_dec s 1 then 1%Z else 0%Z))
           | None => Raise KeyNotFound
           end)
        (seq 0 (num_binary_variables self)) [].

(** ** Notions in which the properties are stated *)

(** The coefficient of the monomial [m] in a list of terms, which may name a
    monomial several times. *)
Fixpoint tcoef (l : list (key * Qc)) (m : key) : Qc :=
  match l with
  | [] => 0
  | (k, v) :: t => (if key_eq_dec k m then v else 0) + tcoef t m
  end.

(** [sum_{(k, v) in l} v * f k] *)
Fixpoint wsum (f : key -> Qc) (l : list (key * Qc)) : Qc :=
  match l with
  | [] => 0
  | (k, v) :: t => v * f k + wsum f t
  end.

(** A key that a container of class [c] stores as it is: strictly increasing,
    and of length at most 2 in the bounded classes. *)
Definition okkey (c : pyclass) (k : key) : Prop :=
  StronglySorted lt k /\ (bounded_degree c = true -> (length k <= 2)%nat).

(** The state that [__setitem__] maintains in a container: one entry per
    key, canonical keys, no zero coefficient. *)
Record wf_poly (p : poly) : Prop := mk_wf_poly {
  wf_keys : NoDup (keys (items p));
  wf_canon : Forall (fun kv => okkey (cls p) (fst kv)) (items p);
  wf_nonzero : Forall (fun kv => snd kv <> 0) (items p)
}.

(** A boolean assignment. *)
Definition boolean (a : nat -> Qc) : Prop := forall i, a i = 0 \/ a i = 1.

(** The dictionary after [p[k] += v] for a canonical key [k]. *)
Definition acc_at (d : poly_dict) (k : key) (v : Qc) : poly_dict :=
  if Qc_eq_dec (get0 d k + v) 0
  then dict_pop key_eq_dec d k
  else dict_set key_eq_dec d k (get0 d k + v).

(** The dictionary after one such accumulation per term of [l], in order. *)
Fixpoint accumulate (d : poly_dict) (l : list (key * Qc)) : poly_dict :=
  match l with
  | [] => d
  | (k, v) :: t => accumulate (acc_at d k v) t
  end.

(** The terms of [l], each key canonicalized. *)
Definition squashed (alg : algebra) (l : list (key * Qc)) : list (key * Qc) :=
  map (fun '(k, v) => (canonical alg k, v)) l.

(** The terms that one turn of the loop of each converter accumulates, for
    the canonical key [k] whose coefficient is [v]. *)
Definition qubo_to_ising_terms (k : key) (v : Qc) : list (key * Qc) :=
  match k with
  | [] => [([], v)]
  | [i] => [([i], v / two); ([], v / two)]
  | [i; j] => [([i; j], v / four); ([i], v / four); ([j], v / four); ([], v / four)]
  | _ => []
  end.

Definition ising_to_qubo_terms (k : key) (v : Qc) : list (key * Qc) :=
  match k with
  | [] => [([], v)]
  | [i] => [([i], two * v); ([], - v)]
  | [i; j] =>
      [([i; j], four * v); ([i], - (two * v)); ([j], - (two * v)); ([], v)]
  | _ => []
  end.

Definition scale (v : Qc) (l : list (key * Qc)) : list (key * Qc) :=
  map (fun '(key, value) => (key, value * v)) l.


Definition hising_to_pubo_terms (k : key) (v : Qc) : list (key * Qc) :=
  scale v (hising_generate_new_key_value k).

(** All the terms a converter accumulates over the items [l]. *)
Definition expand (gen : key -> Qc -> list (key * Qc)) (l : list (key * Qc))
  : list (key * Qc) :=
  flat_map (fun '(k, v) => gen k v) l.

(** The terms of [l] on monomials other than [k0]. *)
Definition remove_key (k0 : key) (l : list (key * Qc)) : list (key * Qc) :=
  filter (fun kv => if key_eq_dec (fst kv) k0 then false else true) l.



(** The assignments [{0: 1, 1: 0}] and [{0: 1, 1: -1}]. *)
Definition example_binary : nat -> Qc := fun i => if (i =? 0)%nat then 1 else 0.

(** [z_i = 2 x_i - 1] *)
Definition to_spin (x : nat -> Qc) : nat -> Qc := fun i => two * x i - 1.

(** The [PUBO] of the class documentation,
    [PUBO({('a',): 5, (0, 'a', 1): -2, (): -1.5})], whose [mapping] is
    [{'a': 0, 0: 1, 1: 2}]. *)
Definition doc_pubo : pubo :=
  mkPubo [ ([LStr "a"%string], five);
           ([LStr "a"%string; LInt 0; LInt 1], - two);
           ([], - (three / two)) ]
         [LStr "a"%string; LInt 0; LInt 1].

(** The state in which [to_qubo] enters its loop over the terms. *)
Definition to_qubo_init (self : pubo) : reducer :=
  mkReducer (new QUBOMatrix) (num_binary_variables self) [].

(** An assignment in which every registered ancilla is the product of its
    pair. *)
Definition respects (a : nat -> Qc) (R : dict key nat) : Prop :=
  forall x y z, dict_get key_eq_dec R [x; y] = Some z -> a z = a x * a y.

(** Every binding of [R] is a binding of [R']. *)
Definition extends (R R' : dict key nat) : Prop :=
  forall k z, dict_get key_eq_dec R k = Some z -> dict_get key_eq_dec R' k = Some z.

(** The registry of a run over [n] original variables whose next ancilla is
    [anc]: one binding per key, the ancillas [n, n+1, ...] in the order of
    registration, every key a pair [x < y] of indices below its ancilla. *)
Record wf_registry (n anc : nat) (R : dict key nat) : Prop := mk_wf_registry {
  reg_keys : NoDup (keys R);
  reg_values : map snd R = seq n (length R);
  reg_next : anc = (n + length R)%nat;
  reg_pairs : Forall (fun kz => exists x y, fst kz = [x; y] /\ (x < y)%nat
                                            /\ (y < snd kz)%nat) R
}.

(** [covers R i o]: the index [o] is [i], or enters the product that the
    ancilla [i] stands for. *)
Inductive covers (R : dict key nat) : nat -> nat -> Prop :=
| covers_refl i : covers R i i
| covers_left x y z o :
    dict_get key_eq_dec R [x; y] = Some z -> covers R x o -> covers R z o
| covers_right x y z o :
    dict_get key_eq_dec R [x; y] = Some z -> covers R y o -> covers R z o.

(** The key that the [while] loop holds: strictly increasing, below the next
    ancilla, and no index enters two of its elements. *)
Record wf_key (anc : nat) (R : dict key nat) (k : key) : Prop := mk_wf_key {
  key_sorted : StronglySorted lt k;
  key_bound : Forall (fun i => (i < anc)%nat) k;
  key_disjoint : forall i j o, In i k -> In j k ->
                               covers R i o -> covers R j o -> i = j
}.

(** The state of [to_qubo] between two terms. *)
Record wf_reducer (n : nat) (st : reducer) : Prop := mk_wf_reducer {
  red_cls : cls (Q_ st) = QUBOMatrix;
  red_registry : wf_registry n (ancilla st) (reductions st)
}.

(** The terms of a [PUBO] with their labels replaced by indices. *)
Fixpoint mapped_terms (self : pubo) (ts : dict (list label) Qc)
  : result (list (key * Qc)) :=
  match ts with
  | [] => Ok []
  | (kp, v) :: t =>
      key <- mapM (_mapping self) kp ;;
      rest <- mapped_terms self t ;;
      Ok ((key, v) :: rest)
  end.

(** A [PUBO] in which a pair is first reduced and then met as a term:
    [PUBO({(0, 1, 2): 1, (0, 1): 1})]. *)
Definition pair_after_cubic : pubo :=
  mkPubo [ ([LInt 0; LInt 1; LInt 2], 1); ([LInt 0; LInt 1], 1) ]
         [LInt 0; LInt 1; LInt 2].

(** An assignment given by the list of its first values, 0 elsewhere. *)
Definition assignment (l : list Z) : nat -> Qc :=
  fun i => Q2Qc (inject_Z (nth i l 0%Z)).

(** Assignments of bits, and what it is to minimize a polynomial over them. *)
Definition bits (s : nat -> Z) : Prop := forall i, s i = 0%Z \/ s i = 1%Z.

Definition of_bits (s : nat -> Z) : nat -> Qc := fun i => Q2Qc (inject_Z (s i)).

Definition minimizes (d : poly_dict) (s : nat -> Z) : Prop :=
  bits s /\ forall s', bits s' -> value d (of_bits s) <= value d (of_bits s').

(** The solution that holds [s i] at every index [i]. *)
Definition full (s : nat -> Z) : solution := fun i => Some (s i).

(** The value of the quadratic polynomial that [to_qubo] builds for
    [doc_pubo], the penalty weight being [L]. *)
Definition doc_qubo_poly (L : Qc) (a : nat -> Qc) : Qc :=
  five * a 0%nat
  + L * (three * a 3%nat + a 0%nat * a 1%nat
         - two * a 0%nat * a 3%nat - two * a 1%nat * a 3%nat)
  - two * a 2%nat * a 3%nat - three / two.

(** The two ways in which one turn of the [while] loop takes the key [k] and
    the state [st] to [k'] and [st'].  Either a pair of [k] is registered and
    the turn uses its ancilla, the registry and the counter staying as they
    are; or no pair of [k] is registered (no element of [k] with an element
    after it), and the turn registers the first two elements with the counter
    as their ancilla, and advances the counter. *)
Definition step_reuses (k k' : key) (st st' : reducer) : Prop :=
  exists x y z,
    In x k /\ In y k
    /\ dict_get key_eq_dec (reductions st) [x; y] = Some z
    /\ reductions st' = reductions st /\ ancilla st' = ancilla st
    /\ k' = sorted (without k x y ++ [z]).

Definition step_mints (k k' : key) (st st' : reducer) : Prop :=
  exists x y t,
    k = x :: y :: t
    /\ (forall l1 a l2 b, k = l1 ++ a :: l2 -> In b l2 ->
                          dict_get key_eq_dec (reductions st) [a; b] = None)
    /\ reductions st' = reductions st ++ [([x; y], ancilla st)]
    /\ ancilla st' = S (ancilla st)
    /\ k' = sorted (without k x y ++ [ancilla st]).

(** ** Notions for the further properties *)


(** Every index of every key of [d] is below [b]. *)
Definition index_bound (b : nat) (d : poly_dict) : Prop :=
  Forall (fun kv => Forall (fun i => (i < b)%nat) (fst kv)) d.

(** The number of turns of the [while] loop that the terms [ts] ask for: a
    term of degree [d > 2] takes [d - 2] turns. *)
Definition reduction_budget (ts : dict (list label) Qc) : nat :=
  list_sum (map (fun kv => (length (fst kv) - 2)%nat) ts).

(** The assignment [a] with every registered ancilla, in the order of
    registration, set to the product of its pair. *)
Definition extend_step (a : nat -> Qc) (kz : key * nat) : nat -> Qc :=
  match fst kz with
  | [x; y] => fun i => if Nat.eq_dec i (snd kz) then a x * a y else a i
  | _ => a
  end.

Definition extend_assignment (R : dict key nat) (a : nat -> Qc) : nat -> Qc :=
  fold_left extend_step R a.

(** A [PUBO] of degree 2, [PUBO({('a', 'b'): 2, ('b',): -1, (): 3})]. *)
Definition example_quadratic : pubo :=
  mkPubo [ ([LStr "a"%string; LStr "b"%string], two);
           ([LStr "b"%string], - (1));
           ([], three) ]
         [LStr "a"%string; LStr "b"%string].

(** A solution given as a list or a tuple: [sol[i]] raises past the end. *)
Definition of_list (l : list Z) : solution := fun i => nth_error l i.

(** ** The other functions of [utils/_conversions.py] *)

(** What these functions raise themselves: [ValueError], [TypeError],
    [RecursionError], and the [KeyError] of a lookup in a conversion table;
    what Python's arithmetic raises: [OverflowError] and [ZeroDivisionError];
    [Container] carries an exception of the polynomial containers. *)
Inductive pyexn : Set :=
| ValueError
| TypeError
| KeyError
| RecursionError
| OverflowError
| ZeroDivisionError
| Container (e : exn).

Inductive outcome (A : Type) : Type :=
| Return (a : A)
| Throw (e : pyexn).
Arguments Return {A} a.
Arguments Throw {A} e.

Definition obind {A B} (r : outcome A) (f : A -> outcome B) : outcome B :=
  match r with
  | Return a => f a
  | Throw e => Throw e
  end.

Definition omap {A B} (f : A -> B) (r : outcome A) : outcome B :=
  obind r (fun a => Return (f a)).

(** A call into the containers from one of these functions. *)
Definition lift {A} (r : result A) : outcome A :=
  match r with
  | Ok a => Return a
  | Raise e => Throw (Container e)
  end.

(** [for x in l: acc = f(acc, x)], stopping at the first exception. *)
Fixpoint ofoldM {A B} (f : A -> B -> outcome A) (l : list B) (acc : A) : outcome A :=
  match l with
  | [] => Return acc
  | x :: t => obind (f acc x) (ofoldM f t)
  end.

(** [(f(x) for x in l)], consumed to the end. *)
Fixpoint omapM {A B} (f : A -> outcome B) (l : list A) : outcome (list B) :=
  match l with
  | [] => Return []
  | x :: t => obind (f x) (fun y => obind (omapM f t) (fun ys => Return (y :: ys)))
  end.

(** *** [binary_to_spin], [spin_to_binary] *)

(** The arguments these two accept: an integer, a dictionary from labels to
    integers, a list or a tuple of integers. *)
Inductive seq_type : Set := PyList | PyTuple.

Inductive pyarg : Type :=
| Num (z : Z)
| Dict (d : dict label Z)
| Seq (t : seq_type) (l : list Z).

(** [convert[v]] *)
Definition lookup (convert : dict Z Z) (v : Z) : outcome Z :=
  match dict_get Z.eq_dec convert v with
  | Some w => Return w
  | None => Throw KeyError
  end.

(** The three branches that the two functions share.  An integer outside
    the table reaches [type(x)(convert[i] for i in x)], where iterating over
    it is a [TypeError]. *)
Definition convert_arg (convert : dict Z Z) (x : pyarg) : outcome pyarg :=
  match x with
  | Num z =>
      if dict_mem Z.eq_dec convert z then omap Num (lookup convert z)
      else Throw TypeError
  | Dict d =>
      omap Dict
        (ofoldM (fun res '(k, v) =>
                   obind (lookup convert v)
                         (fun w => Return (dict_set label_eq_dec res k w)))
                d [])
  | Seq t l => omap (Seq t) (omapM (lookup convert) l)
  end.

Definition binary_to_spin (x : pyarg) : outcome pyarg :=
  let convert := [(0, -1); (1, 1)]%Z in
  convert_arg convert x.

Definition spin_to_binary (z : pyarg) : outcome pyarg :=
  let convert := [(-1, 0); (1, 1)]%Z in
  convert_arg convert z.

(** *** [decimal_to_binary], [decimal_to_spin] *)

(** [tuple(int(x) for x in bin(d)[2:])] for [d >= 0]: the binary digits of
    [d], the most significant first, ["0"] for 0. *)
Fixpoint bin_digits (p : positive) : list Z :=
  match p with
  | xH => [1%Z]
  | xO q => bin_digits q ++ [0%Z]
  | xI q => bin_digits q ++ [1%Z]
  end.

Definition bin (d : Z) : list Z :=
  match d with
  | Zpos p => bin_digits p
  | _ => [0%Z]
  end.

(** [decimal_to_binary(d, num_bits)] for an integer [d], for which
    [int(d) != d] is false; [None] is the default argument. *)
Definition decimal_to_binary (d : Z) (num_bits : option Z) : outcome (list Z) :=
  if (d <? 0)%Z then Throw ValueError
  else
    let b := bin d in
    let lb := Z.of_nat (length b) in
    match num_bits with
    | None => Return (repeat 0%Z (Z.to_nat (lb - lb)) ++ b)
    | Some num_bits =>
        if (num_bits <? lb)%Z then Throw ValueError
        else Return (repeat 0%Z (Z.to_nat (num_bits - lb)) ++ b)
    end.

Definition decimal_to_spin (d : Z) (num_spins : option Z) : outcome pyarg :=
  obind (decimal_to_binary d num_spins) (fun b => binary_to_spin (Seq PyTuple b)).

(** The number that a tuple of digits writes, the most significant first. *)
Definition of_digits (b : list Z) : Z :=
  fold_left (fun acc x => (2 * acc + x)%Z) b 0%Z.

(** *** [matrix_to_qubo] *)

(** [np.array(matrix).shape] for a list of lists of numbers, when the array
    is 2-dimensional: there is a row, and the rows have one length.  The
    empty list gives a 1-dimensional array; rows of different lengths give a
    1-dimensional array of objects, or [ValueError] from [np.array] itself in
    the later versions of numpy: in each case [matrix_to_qubo] ends in
    [ValueError]. *)
Definition shape (matrix : list (list Qc)) : option (nat * nat) :=
  match matrix with
  | [] => None
  | row :: rest =>
      if forallb (fun r => (length r =? length row)%nat) rest
      then Some (length matrix, length row)
      else None
  end.

(** [matrix[i][j]] *)
Definition entry (matrix : list (list Qc)) (i j : nat) : Qc :=
  nth j (nth i matrix []) 0.

Definition matrix_to_qubo (matrix : list (list Qc)) : outcome poly :=
  match shape matrix with
  | None => Throw ValueError
  | Some (n, m) =>
      if negb (n =? m)%nat then Throw ValueError
      else
        lift (foldM (fun Q i =>
                       foldM (fun Q j => iadd_item Q (Tup [i; j]) (entry matrix i j))
                             (seq 0 m) Q)
                    (seq 0 n) (new QUBOMatrix))
  end.

(** A bit, and an argument whose dictionary, if it is one, holds one item per
    key, as a Python dictionary does. *)
Definition bit (b : Z) : Prop := b = 0%Z \/ b = 1%Z.

Definition wf_arg (x : pyarg) : Prop :=
  match x with
  | Dict d => NoDup (keys d)
  | _ => True
  end.

(** *** The class [Conversions] *)

Module Conversions.

(** A subclass of [Conversions], by the methods it defines itself; [args]
    stands for the arguments, which the methods pass on as they are. *)
Record subclass (args : Type) : Type := mkSubclass {
  own_to_qubo : option (args -> outcome poly);
  own_to_ising : option (args -> outcome poly);
  own_to_pubo : option (args -> outcome poly);
  own_to_hising : option (args -> outcome poly)
}.
Arguments mkSubclass {args}.
Arguments own_to_qubo {args}.
Arguments own_to_ising {args}.
Arguments own_to_pubo {args}.
Arguments own_to_hising {args}.

(** [self.to_qubo] and [self.to_ising], called with these arguments: the
    method of the subclass if it defines one, the method of [Conversions]
    otherwise.  [depth] bounds the nesting of the calls, as the recursion
    limit of the interpreter does; reaching it is [RecursionError]. *)
Fixpoint to_qubo {args} (depth : nat) (self : subclass args) (a : args)
  : outcome poly :=
  match own_to_qubo self with
  | Some method => method a
  | None =>
      match depth with
      | O => Throw RecursionError
      | S depth' =>
          obind (to_ising depth' self a) (fun L => lift (ising_to_qubo L))
      end
  end
with to_ising {args} (depth : nat) (self : subclass args) (a : args)
  : outcome poly :=
  match own_to_ising self with
  | Some method => method a
  | None =>
      match depth with
      | O => Throw RecursionError
      | S depth' =>
          obind (to_qubo depth' self a) (fun Q => lift (qubo_to_ising Q))
      end
  end.

(** [self.to_pubo] and [self.to_hising], in the same way *)
Fixpoint to_pubo {args} (depth : nat) (self : subclass args) (a : args)
  : outcome poly :=
  match own_to_pubo self with
  | Some method => method a
  | None =>
      match depth with
      | O => Throw RecursionError
      | S depth' =>
          obind (to_hising depth' self a) (fun H => lift (hising_to_pubo H))
      end
  end
with to_hising {args} (depth : nat) (self : subclass args) (a : args)
  : outcome poly :=
  match own_to_hising self with
  | Some method => method a
  | None =>
      match depth with
      | O => Throw RecursionError
      | S depth' =>
          obind (to_pubo depth' self a) (fun P => lift (pubo_to_hising P))
      end
  end.

(** A subclass that defines none of the four methods, and one that defines
    [to_qubo] alone, returning the [QUBOMatrix] of the converters'
    documentation. *)
Definition bare : subclass unit := mkSubclass None None None None.

End Conversions.

(** A spin assignment: every value squares to 1. *)
Definition spin (a : nat -> Qc) : Prop := forall i, a i * a i = 1.


(** * The code on Python's numbers

    The definitions above read every coefficient as an exact rational, which
    is what the code computes on [fractions.Fraction] coefficients wherever it
    does not multiply by a float.  On the numbers Python programs mostly
    hold, [int] and [float], the same code rounds: [v / 2] of an [int] is a
    float, [value * v] in [pubo_to_hising] multiplies by the floats
    [0.5, 0.25, ...], and [+=] adds floats.  The module [Py] embeds the same
    functions over these numbers: [int] is [Z], [float] is IEEE 754 binary64
    as the Standard Library specifies it ([SpecFloat], precision 53, maximal
    exponent 1024, rounding to nearest even), [Fraction] is [Qc]. *)

Notation "x <~ e ;; k" := (obind e (fun x => k))
  (at level 61, e at next level, right associativity).
Notation "' p <~ e ;; k" := (obind e (fun p => k))
  (at level 61, p pattern, e at next level, right associativity).

Module Py.

(** ** Numbers *)

Inductive num : Type :=
| PyInt (z : Z)
| PyFloat (f : SpecFloat.spec_float)
| Fraction (q : Qc).

Definition fadd := SpecFloat.SFadd 53%Z 1024%Z.
Definition fsub := SpecFloat.SFsub 53%Z 1024%Z.
Definition fmul := SpecFloat.SFmul 53%Z 1024%Z.
Definition fdiv := SpecFloat.SFdiv 53%Z 1024%Z.

(** An integer as an operand of a correctly rounded operation. *)
Definition operand (z : Z) : SpecFloat.spec_float :=
  match z with
  | Z0 => SpecFloat.S754_zero false
  | Zpos p => SpecFloat.S754_finite false p 0%Z
  | Zneg p => SpecFloat.S754_finite true p 0%Z
  end.

(** The result of a conversion or of a division of integers: a float, or
    [OverflowError] where the rounded value is out of range. *)
Definition in_range (f : SpecFloat.spec_float) : outcome SpecFloat.spec_float :=
  match f with
  | SpecFloat.S754_infinity _ => Throw OverflowError
  | _ => Return f
  end.

(** [float(z)] for an [int]: the nearest float, ties to even. *)
Definition float_of_int (z : Z) : outcome SpecFloat.spec_float :=
  in_range (SpecFloat.binary_normalize 53%Z 1024%Z z 0%Z false).

(** [a / b] for two [int]s: the float nearest to the quotient. *)
Definition int_truediv (a b : Z) : outcome SpecFloat.spec_float :=
  if (b =? 0)%Z then Throw ZeroDivisionError
  else in_range (fdiv (operand a) (operand b)).

(** [float(q)] for a [Fraction]: [numerator / denominator]. *)
Definition float_of_fraction (q : Qc) : outcome SpecFloat.spec_float :=
  int_truediv (Qnum q) (Zpos (Qden q)).

Definition of_Z (z : Z) : Qc := Q2Qc (inject_Z z).

(** [float(a)], as the mixed operations take it. *)
Definition to_float (a : num) : outcome SpecFloat.spec_float :=
  match a with
  | PyInt z => float_of_int z
  | PyFloat f => Return f
  | Fraction q => float_of_fraction q
  end.

(** The exact operand of an operation between [int]s and [Fraction]s. *)
Definition to_fraction (a : num) : option Qc :=
  match a with
  | PyInt z => Some (of_Z z)
  | Fraction q => Some q
  | PyFloat _ => None
  end.

(** A binary operation of the numeric tower: on two [int]s the integer
    operation, with a float on either side the float operation on
    [float(a)] and [float(b)], and otherwise the operation of [Fraction]. *)
Definition binop (fz : Z -> Z -> Z) (ff : SpecFloat.spec_float -> SpecFloat.spec_float -> SpecFloat.spec_float)
  (fq : Qc -> Qc -> Qc) (a b : num) : outcome num :=
  match a, b with
  | PyInt x, PyInt y => Return (PyInt (fz x y))
  | PyFloat _, _ | _, PyFloat _ =>
      f <~ to_float a ;; g <~ to_float b ;; Return (PyFloat (ff f g))
  | _, _ =>
      match to_fraction a, to_fraction b with
      | Some p, Some q => Return (Fraction (fq p q))
      | _, _ => Throw TypeError
      end
  end.

(** [a + b], [a - b], [a * b] *)
Definition add : num -> num -> outcome num := binop Z.add fadd Qcplus.
Definition sub : num -> num -> outcome num := binop Z.sub fsub Qcminus.
Definition mul : num -> num -> outcome num := binop Z.mul fmul Qcmult.

Definition float_is_zero (f : SpecFloat.spec_float) : bool :=
  match f with
  | SpecFloat.S754_zero _ => true
  | _ => false
  end.

(** [a / b]: true division. *)
Definition truediv (a b : num) : outcome num :=
  match a, b with
  | PyInt x, PyInt y => f <~ int_truediv x y ;; Return (PyFloat f)
  | PyFloat _, _ | _, PyFloat _ =>
      f <~ to_float a ;; g <~ to_float b ;;
      if float_is_zero g then Throw ZeroDivisionError
      else Return (PyFloat (fdiv f g))
  | _, _ =>
      match to_fraction a, to_fraction b with
      | Some p, Some q =>
          if Qc_eq_bool q 0 then Throw ZeroDivisionError
          else Return (Fraction (p / q))
      | _, _ => Throw TypeError
      end
  end.

(** [-a] and [abs(a)] *)
Definition neg (a : num) : num :=
  match a with
  | PyInt z => PyInt (- z)%Z
  | PyFloat f => PyFloat (SpecFloat.SFopp f)
  | Fraction q => Fraction (- q)
  end.

Definition abs (a : num) : num :=
  match a with
  | PyInt z => PyInt (Z.abs z)
  | PyFloat f => PyFloat (SpecFloat.SFabs f)
  | Fraction q => Fraction (Qcabs q)
  end.

(** The rational number that a float is; none for the infinities and NaN. *)
Definition float_rat (f : SpecFloat.spec_float) : option Qc :=
  match f with
  | SpecFloat.S754_zero _ => Some 0
  | SpecFloat.S754_finite s m e =>
      let n := if s then Zneg m else Zpos m in
      Some (Q2Qc (match e with
                  | Zneg p => Qmake n (2 ^ p)%positive
                  | _ => inject_Z (n * 2 ^ e)%Z
                  end))
  | _ => None
  end.

(** The rational number that a number is. *)
Definition rat (a : num) : option Qc :=
  match a with
  | PyInt z => Some (of_Z z)
  | PyFloat f => float_rat f
  | Fraction q => Some q
  end.

(** [a == b]: Python compares the values of numbers of different types
    exactly; an infinity equals itself, NaN equals nothing. *)
Definition eqb (a b : num) : bool :=
  match rat a, rat b with
  | Some p, Some q => Qc_eq_bool p q
  | None, None =>
      match a, b with
      | PyFloat (SpecFloat.S754_infinity s), PyFloat (SpecFloat.S754_infinity t) =>
          Bool.eqb s t
      | _, _ => false
      end
  | _, _ => false
  end.

(** ** The polynomial containers *)

Record poly : Type := mkPoly { cls : pyclass; items : dict key num }.

Definition new (c : pyclass) : poly := mkPoly c [].

(** Modelled from the spec: [__getitem__], as above; the value of a missing
    key is the [int] 0. *)
Definition getitem (p : poly) (s : subscript) : outcome num :=
  k <~ lift (squash_key (cls p) s) ;;
  Return (match dict_get key_eq_dec (items p) k with
          | Some v => v
          | None => PyInt 0%Z
          end).

(** Modelled from the spec: [__setitem__], as above; the entry is removed
    when [value == 0]. *)
Definition setitem (p : poly) (s : subscript) (value : num) : outcome poly :=
  k <~ lift (squash_key (cls p) s) ;;
  Return (mkPoly (cls p)
            (if eqb value (PyInt 0%Z)
             then dict_pop key_eq_dec (items p) k
             else dict_set key_eq_dec (items p) k value)).

(** [p[s] += e]: the old value is read, then [e] is evaluated, added, and
    the sum stored. *)
Definition iadd_item (p : poly) (s : subscript) (e : outcome num) : outcome poly :=
  old <~ getitem p s ;;
  v <~ e ;;
  sum <~ add old v ;;
  setitem p s sum.

(** [p[s] -= e] *)
Definition isub_item (p : poly) (s : subscript) (e : outcome num) : outcome poly :=
  old <~ getitem p s ;;
  v <~ e ;;
  difference <~ sub old v ;;
  setitem p s difference.

(** Modelled from the spec: [p += other] for a dictionary, as above. *)
Definition iadd (p : poly) (other : dict key num) : outcome poly :=
  ofoldM (fun p '(k, v) => iadd_item p (Tup k) (Return v)) other p.

(** Python's [==] between two dictionaries. *)
Definition dict_eqb (d1 d2 : dict key num) : bool :=
  (length d1 =? length d2)%nat &&
  forallb (fun '(k, v) =>
             match dict_get key_eq_dec d2 k with
             | Some w => eqb v w
             | None => false
             end) d1.

(** ** [utils/_conversions.py] *)

(** [qubo_to_ising(Q)] *)
Definition qubo_to_ising (Q : poly) : outcome poly :=
  let L0 := if pyclass_eq_dec (cls Q) QUBOMatrix then new IsingMatrix else new Ising in
  let squash := if pyclass_eq_dec (cls Q) QUBOMatrix
                then squash_key QUBOMatrix else squash_key QUBO in
  ofoldM (fun L '(kp, v) =>
            k <~ lift (squash (Tup kp)) ;;
            match k with
            | [] => iadd_item L (Tup k) (Return v)
            | [_] =>
                L <~ iadd_item L (Tup k) (truediv v (PyInt 2%Z)) ;;
                iadd_item L (Tup []) (truediv v (PyInt 2%Z))
            | [i; j] =>
                L <~ iadd_item L (Tup k) (truediv v (PyInt 4%Z)) ;;
                L <~ iadd_item L (Tup [i]) (truediv v (PyInt 4%Z)) ;;
                L <~ iadd_item L (Tup [j]) (truediv v (PyInt 4%Z)) ;;
                iadd_item L (Tup []) (truediv v (PyInt 4%Z))
            | _ => Return L
            end) (items Q) L0.

(** [ising_to_qubo(L)] *)
Definition ising_to_qubo (L : poly) : outcome poly :=
  let Q0 := if pyclass_eq_dec (cls L) IsingMatrix then new QUBOMatrix else new QUBO in
  let squash := if pyclass_eq_dec (cls L) IsingMatrix
                then squash_key IsingMatrix else squash_key Ising in
  ofoldM (fun Q '(kp, v) =>
            k <~ lift (squash (Tup kp)) ;;
            match k with
            | [] => iadd_item Q (Tup k) (Return v)
            | [_] =>
                Q <~ iadd_item Q (Tup k) (mul (PyInt 2%Z) v) ;;
                isub_item Q (Tup []) (Return v)
            | [i; j] =>
                Q <~ iadd_item Q (Tup k) (mul (PyInt 4%Z) v) ;;
                Q <~ isub_item Q (Tup [i]) (mul (PyInt 2%Z) v) ;;
                Q <~ isub_item Q (Tup [j]) (mul (PyInt 2%Z) v) ;;
                iadd_item Q (Tup []) (Return v)
            | _ => Return Q
            end) (items L) Q0.

(** The pairs of one turn of the generators' loop, in the order they are
    yielded. *)
Definition flat_mapM {A B} (f : A -> outcome (list B)) (l : list A)
  : outcome (list B) :=
  ls <~ omapM f l ;; Return (concat ls).

(** The generator [generate_new_key_value] inside [pubo_to_hising], as the
    list of the pairs it yields.  The generator calls itself once per element
    of the key; [depth] is the number of nested calls that the recursion limit
    of the interpreter still allows, and reaching it is [RecursionError],
    raised before the first pair is yielded. *)
Fixpoint pubo_generate_new_key_value (depth : nat) (k : key)
  : outcome (list (key * num)) :=
  match depth with
  | O => Throw RecursionError
  | S depth' =>
      match k with
      | [] => Return [([], PyInt 1%Z)]
      | k0 :: rest =>
          l <~ pubo_generate_new_key_value depth' rest ;;
          flat_mapM (fun '(key, value) =>
                       v1 <~ truediv value (PyInt 2%Z) ;;
                       v2 <~ truediv value (PyInt 2%Z) ;;
                       Return [(k0 :: key, v1); (key, v2)]) l
      end
  end.

(** [pubo_to_hising(P)] *)
Definition pubo_to_hising (depth : nat) (P : poly) : outcome poly :=
  let H0 := if pyclass_eq_dec (cls P) PUBOMatrix then new HIsingMatrix else new HIsing in
  let squash := if pyclass_eq_dec (cls P) PUBOMatrix
                then squash_key PUBOMatrix else squash_key PUBO in
  ofoldM (fun H '(k, v) =>
            sk <~ lift (squash (Tup k)) ;;
            l <~ pubo_generate_new_key_value depth sk ;;
            ofoldM (fun H '(key, value) => iadd_item H (Tup key) (mul value v)) l H)
         (items P) H0.

(** The generator inside [hising_to_pubo] *)
Fixpoint hising_generate_new_key_value (depth : nat) (k : key)
  : outcome (list (key * num)) :=
  match depth with
  | O => Throw RecursionError
  | S depth' =>
      match k with
      | [] => Return [([], PyInt 1%Z)]
      | k0 :: rest =>
          l <~ hising_generate_new_key_value depth' rest ;;
          flat_mapM (fun '(key, value) =>
                       v1 <~ mul (PyInt 2%Z) value ;;
                       Return [(k0 :: key, v1); (key, neg value)]) l
      end
  end.

(** [hising_to_pubo(H)] *)
Definition hising_to_pubo (depth : nat) (H : poly) : outcome poly :=
  let P0 := if pyclass_eq_dec (cls H) HIsingMatrix then new PUBOMatrix else new PUBO in
  let squash := if pyclass_eq_dec (cls H) HIsingMatrix
                then squash_key HIsingMatrix else squash_key HIsing in
  ofoldM (fun P '(k, v) =>
            sk <~ lift (squash (Tup k)) ;;
            l <~ hising_generate_new_key_value depth sk ;;
            ofoldM (fun P '(key, value) => iadd_item P (Tup key) (mul value v)) l P)
         (items H) P0.

(** ** [_pubo.py] *)

(** [_constraint_xy_eq_z(x, y, z, lam)]: the items of the dictionary display
    are evaluated in order. *)
Definition _constraint_xy_eq_z (x y z : nat) (lam : num) : outcome (dict key num) :=
  c1 <~ mul (PyInt 3%Z) lam ;;
  c3 <~ mul (PyInt (-2)%Z) lam ;;
  c4 <~ mul (PyInt (-2)%Z) lam ;;
  let D := dict_set key_eq_dec [] [z] c1 in
  let D := dict_set key_eq_dec D [x; y] lam in
  let D := dict_set key_eq_dec D [x; z] c3 in
  Return (dict_set key_eq_dec D [y; z] c4).

(** A [PUBO] with its label bookkeeping, as above. *)
Record pubo : Type := mkPubo {
  terms : dict (list label) num;
  labels : list label
}.

Definition _mapping (self : pubo) (l : label) : outcome nat :=
  match index_of l (labels self) with
  | Some i => Return i
  | None => Throw (Container KeyNotFound)
  end.

Definition num_binary_variables (self : pubo) : nat := length (labels self).

(** [to_pubo] *)
Definition to_pubo (self : pubo) : outcome poly :=
  ofoldM (fun P '(k, v) =>
            key <~ omapM (_mapping self) k ;;
            iadd_item P (Tup key) (Return v))
         (terms self) (new PUBOMatrix).

(** [default_lam(v)]: [1 + abs(v)] *)
Definition default_lam (v : num) : outcome num := add (PyInt 1%Z) (abs v).

Record reducer : Type := mkReducer {
  Q_ : poly;
  ancilla : nat;
  reductions : dict key nat
}.

(** One turn of [while len(k) > 2], as above; [lam(v)] is called in the
    turn, after [x], [y] and [z] are chosen. *)
Definition reduce_step (lam : num -> outcome num) (v : num) (k : key) (st : reducer)
  : outcome (key * reducer) :=
  '(x, y, z, reductions', ancilla') <~
    match find_reduced (reductions st) k with
    | Some (x, y) =>
        match dict_get key_eq_dec (reductions st) [x; y] with
        | Some z => Return (x, y, z, reductions st, ancilla st)
        | None => Throw (Container KeyNotFound)
        end
    | None =>
        match k with
        | x :: y :: _ =>
            Return (x, y, ancilla st,
                    dict_set key_eq_dec (reductions st) [x; y] (ancilla st),
                    S (ancilla st))
        | _ => Throw (Container KeyNotFound)
        end
    end ;;
  weight <~ lam v ;;
  D <~ _constraint_xy_eq_z x y z weight ;;
  Q' <~ iadd (Q_ st) D ;;
  Return (sorted (without k x y ++ [z]), mkReducer Q' ancilla' reductions').

Fixpoint reduce_loop (fuel : nat) (lam : num -> outcome num) (v : num) (k : key)
  (st : reducer) : outcome (key * reducer) :=
  if (2 <? length k)%nat then
    match fuel with
    | O => Throw (Container OutOfFuel)
    | S fuel' =>
        '(k', st') <~ reduce_step lam v k st ;;
        reduce_loop fuel' lam v k' st'
    end
  else Return (k, st).

Definition to_qubo_term (self : pubo) (lam : num -> outcome num) (st : reducer)
  (item : list label * num) : outcome reducer :=
  let '(kp, v) := item in
  mapped <~ omapM (_mapping self) kp ;;
  let key := sorted mapped in
  match dict_get key_eq_dec (reductions st) key with
  | Some z =>
      Q' <~ iadd_item (Q_ st) (Int z) (Return v) ;;
      Return (mkReducer Q' (ancilla st) (reductions st))
  | None =>
      '(k, st') <~ reduce_loop (length key) lam v key st ;;
      Q' <~ iadd_item (Q_ st') (Tup k) (Return v) ;;
      Return (mkReducer Q' (ancilla st') (reductions st'))
  end.

Definition to_qubo_run (self : pubo) (lam : num -> outcome num) : outcome reducer :=
  ofoldM (to_qubo_term self lam) (terms self)
         (mkReducer (new QUBOMatrix) (num_binary_variables self) []).

(** [if lam is None: lam = PUBO.default_lam] *)
Definition weight (lam : option (num -> outcome num)) : num -> outcome num :=
  match lam with None => default_lam | Some f => f end.

(** [to_qubo(lam)]; [None] stands for the default argument. *)
Definition to_qubo (self : pubo) (lam : option (num -> outcome num)) : outcome poly :=
  st <~ to_qubo_run self (weight lam) ;;
  Return (Q_ st).

End Py.

(** ** Notions in which the properties of [Py] are stated *)

(** The coefficients of a dictionary as rationals; none when one of them is
    an infinity or NaN. *)
Fixpoint rat_items (d : dict key Py.num) : option poly_dict :=
  match d with
  | [] => Some []
  | (k, v) :: t =>
      match Py.rat v, rat_items t with
      | Some q, Some l => Some ((k, q) :: l)
      | _, _ => None
      end
  end.

(** The value of a polynomial at an assignment: the sum over the stored
    terms of the coefficient, taken as the rational number it is, times the
    product of the assigned values. *)
Definition rat_value (d : dict key Py.num) (a : nat -> Qc) : option Qc :=
  option_map (fun l => value l a) (rat_items d).

(** A number on which the arithmetic of these functions is exact: an [int]
    or a [Fraction]; with [only_fractions], a [Fraction]. *)
Definition exact (only_fractions : bool) (a : Py.num) : bool :=
  match a with
  | Py.PyInt _ => negb only_fractions
  | Py.Fraction _ => true
  | Py.PyFloat _ => false
  end.

Definition exact_items {K} (only_fractions : bool) (d : dict K Py.num) : Prop :=
  Forall (fun kv => exact only_fractions (snd kv) = true) d.

(** The state that [__setitem__] maintains in a container: one entry per
    key, canonical keys, no coefficient equal to zero. *)
Record wf_items (c : pyclass) (d : dict key Py.num) : Prop := mk_wf_items {
  wf_items_keys : NoDup (keys d);
  wf_items_canon : Forall (fun kv => okkey c (fst kv)) d;
  wf_items_nonzero : Forall (fun kv => Py.eqb (snd kv) (Py.PyInt 0%Z) = false) d
}.

(** Two dictionaries that map the same keys to the same numbers. *)
Definition same_mapping (d1 d2 : dict key Py.num) : Prop :=
  forall k, dict_get key_eq_dec d1 k = dict_get key_eq_dec d2 k.

(** The product [a * b] is computed without rounding. *)
Definition exact_product (a b : Py.num) : Prop :=
  exists c p q, Py.mul a b = Return c /\ Py.rat a = Some p /\ Py.rat b = Some q
                /\ Py.rat c = Some (p * q).

(** The terms of a [PUBO] with their labels replaced by indices. *)
Fixpoint py_mapped_terms (self : Py.pubo) (ts : dict (list label) Py.num)
  : outcome (dict key Py.num) :=
  match ts with
  | [] => Return []
  | (kp, v) :: t =>
      key <~ omapM (Py._mapping self) kp ;;
      rest <~ py_mapped_terms self t ;;
      Return ((key, v) :: rest)
  end.

(** ** Exact numbers and the exact reading of the code *)

(** [a] is an [int] or a [Fraction] (a [Fraction], with the flag), and [q] is
    the rational number it holds. *)
Definition exactly (only_fractions : bool) (a : Py.num) (q : Qc) : Prop :=
  exact only_fractions a = true /\ Py.rat a = Some q.

(** The same keys in the same order, the same numbers. *)
Definition rel_items {K} (fr : bool) (D : dict K Py.num) (d : dict K Qc) : Prop :=
  Forall2 (fun KV kv => fst KV = fst kv /\ exactly fr (snd KV) (snd kv)) D d.

(** The rational reading of a dictionary. *)
Definition rational {K} (D : dict K Py.num) : dict K Qc :=
  map (fun kv => (fst kv, match Py.rat (snd kv) with Some q => q | None => 0 end)) D.

(** The same result, or the same exception of the containers. *)
Definition rel_outcome {A B} (R : A -> B -> Prop) (o : outcome A) (r : result B)
  : Prop :=
  match o, r with
  | Return a, Ok b => R a b
  | Throw e, Raise e' => e = Container e'
  | _, _ => False
  end.

(** A container of exact numbers and its exact reading. *)
Definition rel_poly (fr : bool) (P : Py.poly) (p : poly) : Prop :=
  Py.cls P = cls p /\ rel_items fr (Py.items P) (items p).

Definition reading (P : Py.poly) : poly := mkPoly (Py.cls P) (rational (Py.items P)).

(** The state of [to_qubo] on exact numbers and in the exact reading. *)
Definition rel_reducer (ST : Py.reducer) (st : reducer) : Prop :=
  rel_poly false (Py.Q_ ST) (Q_ st)
  /\ Py.ancilla ST = ancilla st /\ Py.reductions ST = reductions st.

Definition to_exact (self : Py.pubo) : pubo :=
  mkPubo (rational (Py.terms self)) (Py.labels self).




(** A coefficient that the closed form and the general expansion scale
    alike: [1 * v] is [v], [0.5 * v] is what [v / 2] is and [0.25 * v] what
    [v / 4] is, the same number or the same exception. *)
Definition same_scaling (v : Py.num) : Prop :=
  Py.mul (Py.PyInt 1) v = Return v
  /\ Py.mul (Py.PyFloat (SpecFloat.S754_finite false 4503599627370496 (-53))) v
     = Py.truediv v (Py.PyInt 2)
  /\ Py.mul (Py.PyFloat (SpecFloat.S754_finite false 4503599627370496 (-54))) v
     = Py.truediv v (Py.PyInt 4).

(** The dictionary of a container after [p[k] += e], for a canonical [k]. *)
Definition store (d : dict key Py.num) (k : key) (s : Py.num) : dict key Py.num :=
  if Py.eqb s (Py.PyInt 0) then dict_pop key_eq_dec d k
  else dict_set key_eq_dec d k s.

Definition upd (d : dict key Py.num) (k : key) (e : outcome Py.num)
  : outcome (dict key Py.num) :=
  v <~ e ;;
  s <~ Py.add (match dict_get key_eq_dec d k with Some o => o | None => Py.PyInt 0 end) v ;;
  Return (store d k s).

(** One such accumulation per pair of [l], in order. *)
Definition upds (d : dict key Py.num) (l : list (key * outcome Py.num))
  : outcome (dict key Py.num) :=
  ofoldM (fun d '(k, e) => upd d k e) l d.

(** Two dictionaries, as Python has them, with the same content. *)
Definition agree (d1 d2 : dict key Py.num) : Prop :=
  same_mapping d1 d2 /\ NoDup (keys d1) /\ NoDup (keys d2).

(** Both return, with results that agree, or both raise the same exception. *)
Definition osim (o1 o2 : outcome (dict key Py.num)) : Prop :=
  match o1, o2 with
  | Return a, Return b => agree a b
  | Throw x, Throw y => x = y
  | _, _ => False
  end.

(** [o1 < o2] for two values that may be undefined. *)
Definition lt_rat (o1 o2 : option Qc) : Prop :=
  match o1, o2 with
  | Some a, Some b => a < b
  | _, _ => False
  end.

(** ** The data of the examples *)

(** [0.1] and [0.2]: the floats nearest to 1/10 and to 2/10. *)
Definition tenth : Py.num :=
  Py.PyFloat (SpecFloat.S754_finite false 7205759403792794 (-56)).
Definition fifth : Py.num :=
  Py.PyFloat (SpecFloat.S754_finite false 7205759403792794 (-55)).

(** [0.5] and [0.25], the values that the generator of [pubo_to_hising]
    yields for keys of length 1 and 2. *)
Definition half : Py.num :=
  Py.PyFloat (SpecFloat.S754_finite false 4503599627370496 (-53)).
Definition quarter : Py.num :=
  Py.PyFloat (SpecFloat.S754_finite false 4503599627370496 (-54)).

(** [1 + 3 * 2**-52], a float *)
Definition float_weight : Py.num :=
  Py.PyFloat (SpecFloat.S754_finite false 4503599627370499 (-52)).

(** [1.5] *)
Definition three_halves : Py.num :=
  Py.PyFloat (SpecFloat.S754_finite false 6755399441055744 (-52)).


(** [QUBOMatrix({(0,): Fraction(1, 3), (0, 1): Fraction(-1, 7)})] *)
Definition fraction_qubo : Py.poly :=
  Py.mkPoly QUBOMatrix
    [([0%nat], Py.Fraction (Q2Qc (1 # 3))); ([0; 1]%nat, Py.Fraction (Q2Qc (-1 # 7)))].


(** [QUBOMatrix({(0,): 0.1, (0, 1): 0.2, (1,): 3, (): -1})] *)
Definition mixed_qubo : Py.poly :=
  Py.mkPoly QUBOMatrix
    [([0%nat], tenth); ([0; 1]%nat, fifth); ([1%nat], Py.PyInt 3); ([], Py.PyInt (-1))].


(** [QUBOMatrix({(0,): 2**1024})] *)
Definition huge_qubo : Py.poly :=
  Py.mkPoly QUBOMatrix [([0%nat], Py.PyInt (2 ^ 1024))].



(** The [PUBO] of the class documentation with the constant as a
    [Fraction]: [PUBO({('a',): 5, (0, 'a', 1): -2, (): Fraction(-3, 2)})]. *)
Definition fraction_pubo : Py.pubo :=
  Py.mkPubo [ ([LStr "a"%string], Py.PyInt 5);
              ([LStr "a"%string; LInt 0; LInt 1], Py.PyInt (-2));
              ([], Py.Fraction (Q2Qc (-3 # 2))) ]
            [LStr "a"%string; LInt 0; LInt 1].


(** [IsingMatrix({(0,): 1, (1,): -1, (0, 1): -1})], with [int]s, and
    [IsingMatrix({(0,): Fraction(1, 3), (0, 1): Fraction(-1, 7)})] *)
Definition int_ising : Py.poly :=
  Py.mkPoly IsingMatrix
    [([0%nat], Py.PyInt 1); ([1%nat], Py.PyInt (-1)); ([0; 1]%nat, Py.PyInt (-1))].
Definition fraction_ising : Py.poly :=
  Py.mkPoly IsingMatrix
    [([0%nat], Py.Fraction (Q2Qc (1 # 3))); ([0; 1]%nat, Py.Fraction (Q2Qc (-1 # 7)))].

(** [HIsingMatrix({(0,): 1, (0, 1, 2): -2, (): 3})], with [int]s *)
Definition int_hising : Py.poly :=
  Py.mkPoly HIsingMatrix
    [([0%nat], Py.PyInt 1); ([0; 1; 2]%nat, Py.PyInt (-2)); ([], Py.PyInt 3)].

(** Plain dictionaries with keys as a user may write them, out of order and
    with a repeated index: [{(1, 0): Fraction(1), (0, 0): Fraction(2),
    (0, 1): Fraction(1, 2)}] and [{(1, 0): 1, (0, 0): 2, (2, 1, 2): -1}].
    They are not matrix objects; the class recorded is the one of the
    container a converter would fill from them. *)
Definition fraction_raw : Py.poly :=
  Py.mkPoly QUBO
    [([1; 0]%nat, Py.Fraction 1); ([0; 0]%nat, Py.Fraction two);
     ([0; 1]%nat, Py.Fraction (Q2Qc (1 # 2)))].
Definition int_raw_spin : Py.poly :=
  Py.mkPoly Ising
    [([1; 0]%nat, Py.PyInt 1); ([0; 0]%nat, Py.PyInt 2); ([2; 1; 2]%nat, Py.PyInt (-1))].

(** * Properties *)

(** ** The error monad *)

Lemma bind_Ok_r {A} (r : result A) : bind r Ok = r.
Proof. now destruct r. Qed.

Lemma Ok_inj {A} (a b : A) : Ok a = Ok b -> a = b.
Proof. now intros [= ->]. Qed.

Lemma bind_inv {A B} (r : result A) (f : A -> result B) (b : B) :
  bind r f = Ok b -> exists a, r = Ok a /\ f a = Ok b.
Proof. destruct r as [a|e]; simpl; [eauto | discriminate]. Qed.

Lemma foldM_app {A B} (f : A -> B -> result A) (l1 l2 : list B) (acc : A) :
  foldM f (l1 ++ l2) acc = (acc' <- foldM f l1 acc ;; foldM f l2 acc').
Proof.
  revert acc; induction l1 as [|x t IH]; intros acc; simpl; [reflexivity|].
  destruct (f acc x); simpl; auto.
Qed.

(** ** Sorting and canonical keys *)

Section Sorting.
Local Close Scope Qc_scope.

Lemma insert_perm (x : nat) (l : list nat) : Permutation (insert x l) (x :: l).
Proof.
  induction l as [|y t IH]; simpl; [reflexivity|].
  destruct (x <=? y); [reflexivity|].
  rewrite IH. apply perm_swap.
Qed.

Lemma sorted_perm (l : list nat) : Permutation (sorted l) l.
Proof.
  induction l as [|x t IH]; simpl; [reflexivity|].
  rewrite insert_perm. now constructor.
Qed.

Lemma In_sorted (i : nat) (l : list nat) : In i (sorted l) <-> In i l.
Proof.
  split; apply Permutation_in; [|symmetry]; apply sorted_perm.
Qed.

Lemma length_sorted (l : list nat) : length (sorted l) = length l.
Proof. apply Permutation_length, sorted_perm. Qed.

Lemma NoDup_sorted (l : list nat) : NoDup l -> NoDup (sorted l).
Proof. apply Permutation_NoDup. symmetry. apply sorted_perm. Qed.

Lemma insert_StronglySorted (x : nat) (l : list nat) :
  StronglySorted le l -> StronglySorted le (insert x l).
Proof.
  induction 1 as [|y t Ht IH Hy]; simpl.
  - repeat constructor.
  - destruct (Nat.leb_spec x y) as [Hxy|Hxy].
    + constructor; [now constructor|].
      constructor; [exact Hxy|].
      eapply Forall_impl; [|exact Hy]. intros; lia.
    + constructor; [exact IH|].
      eapply Permutation_Forall; [symmetry; apply insert_perm|].
      constructor; [lia | exact Hy].
Qed.

Lemma sorted_StronglySorted (l : list nat) : StronglySorted le (sorted l).
Proof.
  induction l; simpl; [constructor | now apply insert_StronglySorted].
Qed.

Lemma StronglySorted_le_lt (l : list nat) :
  StronglySorted le l -> NoDup l -> StronglySorted lt l.
Proof.
  induction 1 as [|x t Ht IH Hx]; intros Hnd; [constructor|].
  inversion Hnd as [|? ? Hnin Hnd']; subst.
  constructor; [auto|].
  rewrite Forall_forall in *. intros y Hy.
  specialize (Hx y Hy).
  assert (x <> y) by (intros ->; contradiction). lia.
Qed.

Lemma StronglySorted_lt_NoDup (l : list nat) : StronglySorted lt l -> NoDup l.
Proof.
  induction 1 as [|x t Ht IH Hx]; constructor; auto.
  intros Hin. rewrite Forall_forall in Hx. specialize (Hx x Hin). lia.
Qed.

Lemma sorted_fixed (l : list nat) : StronglySorted le l -> sorted l = l.
Proof.
  induction 1 as [|x t Ht IH Hx]; simpl; [reflexivity|].
  rewrite IH. destruct t as [|y t']; simpl; [reflexivity|].
  inversion Hx; subst.
  destruct (Nat.leb_spec x y); [reflexivity | lia].
Qed.

Lemma StronglySorted_lt_le (l : list nat) :
  StronglySorted lt l -> StronglySorted le l.
Proof.
  induction 1 as [|x t Ht IH Hx]; constructor; auto.
  eapply Forall_impl; [|exact Hx]. intros; lia.
Qed.

Lemma sorted_strict (l : list nat) : NoDup l -> StronglySorted lt (sorted l).
Proof.
  intros H. apply StronglySorted_le_lt;
    [apply sorted_StronglySorted | now apply NoDup_sorted].
Qed.

(** A strictly increasing key is its own canonical form, in both algebras. *)
Lemma canonical_fixed (alg : algebra) (k : key) :
  StronglySorted lt k -> canonical alg k = k.
Proof.
  intros Hs. pose proof (StronglySorted_lt_NoDup _ Hs) as Hnd.
  unfold canonical. rewrite (nodup_fixed_point Nat.eq_dec Hnd).
  destruct alg.
  - apply sorted_fixed, StronglySorted_lt_le, Hs.
  - rewrite forallb_filter_id by
      (apply forallb_forall; intros i Hi;
       rewrite (proj1 (NoDup_count_occ' Nat.eq_dec k) Hnd i Hi); reflexivity).
    apply sorted_fixed, StronglySorted_lt_le, Hs.
Qed.

Lemma canonical_length (alg : algebra) (k : key) :
  length (canonical alg k) <= length k.
Proof.
  assert (Hn : forall l : list nat, length (nodup Nat.eq_dec l) <= length l).
  { induction l as [|x t IH]; simpl; [lia|].
    destruct (in_dec Nat.eq_dec x t); simpl; lia. }
  destruct alg; simpl; rewrite length_sorted; [apply Hn|].
  etransitivity; [apply filter_length_le | apply Hn].
Qed.

Lemma canonical_strict (alg : algebra) (k : key) :
  StronglySorted lt (canonical alg k).
Proof.
  destruct alg; simpl; apply sorted_strict.
  - apply NoDup_nodup.
  - apply NoDup_filter, NoDup_nodup.
Qed.
End Sorting.

(** ** Dictionaries *)

Section DictFacts.
Context {K V : Type} (K_eq_dec : forall a b : K, {a = b} + {a <> b}).
Implicit Types (d : dict K V) (k m : K) (v : V).

Lemma dict_get_set d k v m :
  dict_get K_eq_dec (dict_set K_eq_dec d k v) m
  = if K_eq_dec m k then Some v else dict_get K_eq_dec d m.
Proof.
  induction d as [|[k' v'] t IH]; simpl.
  - destruct (K_eq_dec m k); reflexivity.
  - destruct (K_eq_dec k k') as [->|Hk]; simpl.
    + destruct (K_eq_dec m k'); reflexivity.
    + rewrite IH. destruct (K_eq_dec m k') as [->|]; [|reflexivity].
      destruct (K_eq_dec k' k); [congruence | reflexivity].
Qed.

Lemma dict_get_None d k : dict_get K_eq_dec d k = None <-> ~ In k (keys d).
Proof.
  induction d as [|[k' v'] t IH]; simpl; [tauto|].
  destruct (K_eq_dec k k') as [->|Hk].
  - split; [discriminate | tauto].
  - rewrite IH. split; [intros H [E|E]; [congruence | tauto] | tauto].
Qed.

Lemma dict_get_In d k v : dict_get K_eq_dec d k = Some v -> In (k, v) d.
Proof.
  induction d as [|[k' v'] t IH]; simpl; [discriminate|].
  destruct (K_eq_dec k k') as [->|Hk]; [intros [= ->]; now left | auto].
Qed.

Lemma In_dict_get d k v :
  NoDup (keys d) -> In (k, v) d -> dict_get K_eq_dec d k = Some v.
Proof.
  induction d as [|[k' v'] t IH]; simpl; [tauto|].
  intros Hnd [E|Hin]; inversion Hnd as [|? ? Hnin Hnd']; subst.
  - injection E as -> ->. destruct (K_eq_dec k k); [reflexivity | congruence].
  - destruct (K_eq_dec k k') as [->|Hk]; [|auto].
    exfalso. apply Hnin. change k' with (fst (k', v)). now apply in_map.
Qed.

Lemma keys_set d k v :
  keys (dict_set K_eq_dec d k v)
  = if dict_mem K_eq_dec d k then keys d else keys d ++ [k].
Proof.
  unfold dict_mem.
  induction d as [|[k' v'] t IH]; simpl; [reflexivity|].
  destruct (K_eq_dec k k') as [->|Hk]; simpl; [reflexivity|].
  rewrite IH. now destruct (dict_get K_eq_dec t k).
Qed.

Lemma dict_set_fresh d k v :
  dict_get K_eq_dec d k = None -> dict_set K_eq_dec d k v = d ++ [(k, v)].
Proof.
  induction d as [|[k' v'] t IH]; simpl; [reflexivity|].
  destruct (K_eq_dec k k'); [discriminate|]. intros H. now rewrite IH.
Qed.

Lemma NoDup_keys_set d k v :
  NoDup (keys d) -> NoDup (keys (dict_set K_eq_dec d k v)).
Proof.
  intros Hnd. rewrite keys_set. unfold dict_mem.
  destruct (dict_get K_eq_dec d k) eqn:E; [exact Hnd|].
  apply dict_get_None in E.
  apply NoDup_app; [exact Hnd | repeat constructor; intros [] |].
  intros x Hx [<-|[]]. contradiction.
Qed.

Lemma In_keys_pop d k m : In m (keys (dict_pop K_eq_dec d k)) -> In m (keys d).
Proof.
  induction d as [|[k' v'] t IH]; simpl; [tauto|].
  destruct (K_eq_dec k k'); simpl; tauto.
Qed.

Lemma NoDup_keys_pop d k :
  NoDup (keys d) -> NoDup (keys (dict_pop K_eq_dec d k)).
Proof.
  induction d as [|[k' v'] t IH]; simpl; [auto|].
  intros Hnd; inversion Hnd as [|? ? Hnin Hnd']; subst.
  destruct (K_eq_dec k k'); [exact Hnd'|]. simpl.
  constructor; [|auto]. intros Hin. apply Hnin. eapply In_keys_pop, Hin.
Qed.

Lemma dict_get_pop d k m :
  NoDup (keys d) ->
  dict_get K_eq_dec (dict_pop K_eq_dec d k) m
  = if K_eq_dec m k then None else dict_get K_eq_dec d m.
Proof.
  induction d as [|[k' v'] t IH]; simpl; intros Hnd.
  - now destruct (K_eq_dec m k).
  - inversion Hnd as [|? ? Hnin Hnd']; subst.
    destruct (K_eq_dec k k') as [->|Hk]; simpl.
    + destruct (K_eq_dec m k') as [->|]; [|reflexivity].
      now apply dict_get_None.
    + rewrite IH by assumption.
      destruct (K_eq_dec m k') as [->|]; [|reflexivity].
      destruct (K_eq_dec k' k); [congruence | reflexivity].
Qed.

Lemma In_dict_set d k v kv :
  In kv (dict_set K_eq_dec d k v) -> In kv d \/ kv = (k, v).
Proof.
  induction d as [|[k' v'] t IH]; simpl; [intros [<-|[]]; auto|].
  destruct (K_eq_dec k k') as [->|Hk]; simpl.
  - intros [<-|H]; auto.
  - intros [<-|H]; auto. destruct (IH H); auto.
Qed.

Lemma In_dict_pop d k kv : In kv (dict_pop K_eq_dec d k) -> In kv d.
Proof.
  induction d as [|[k' v'] t IH]; simpl; [tauto|].
  destruct (K_eq_dec k k'); simpl; tauto.
Qed.
End DictFacts.

(** ** Accumulation into a polynomial *)

Lemma get0_set (d : poly_dict) (k : key) (v : Qc) (m : key) :
  get0 (dict_set key_eq_dec d k v) m = if key_eq_dec m k then v else get0 d m.
Proof.
  unfold get0. rewrite dict_get_set. now destruct (key_eq_dec m k).
Qed.

Lemma get0_pop (d : poly_dict) (k m : key) :
  NoDup (keys d) ->
  get0 (dict_pop key_eq_dec d k) m = if key_eq_dec m k then 0 else get0 d m.
Proof.
  intros Hnd. unfold get0. rewrite dict_get_pop by assumption.
  now destruct (key_eq_dec m k).
Qed.

Lemma value_set (d : poly_dict) (k : key) (c : Qc) (a : nat -> Qc) :
  value (dict_set key_eq_dec d k c) a = value d a + (c - get0 d k) * mono a k.
Proof.
  unfold get0.
  induction d as [|[k' v'] t IH]; simpl; [ring|].
  destruct (key_eq_dec k k') as [->|Hk]; simpl; [ring|].
  rewrite IH. ring.
Qed.

Lemma value_pop (d : poly_dict) (k : key) (a : nat -> Qc) :
  value (dict_pop key_eq_dec d k) a = value d a - get0 d k * mono a k.
Proof.
  unfold get0.
  induction d as [|[k' v'] t IH]; simpl; [ring|].
  destruct (key_eq_dec k k') as [->|Hk]; simpl; [ring|].
  rewrite IH. ring.
Qed.

Lemma value_acc_at (d : poly_dict) (k : key) (v : Qc) (a : nat -> Qc) :
  value (acc_at d k v) a = value d a + v * mono a k.
Proof.
  unfold acc_at. destruct (Qc_eq_dec (get0 d k + v) 0) as [E|E].
  - rewrite value_pop.
    assert (Hv : v = - get0 d k)
      by (transitivity (get0 d k + v - get0 d k); [ring | rewrite E; ring]).
    rewrite Hv. ring.
  - rewrite value_set. ring.
Qed.

Lemma get0_acc_at (d : poly_dict) (k : key) (v : Qc) (m : key) :
  NoDup (keys d) ->
  get0 (acc_at d k v) m = get0 d m + (if key_eq_dec k m then v else 0).
Proof.
  intros Hnd. unfold acc_at. destruct (Qc_eq_dec (get0 d k + v) 0) as [E|E].
  - rewrite get0_pop by assumption.
    destruct (key_eq_dec m k) as [->|Hm].
    + destruct (key_eq_dec k k); [symmetry; exact E | congruence].
    + destruct (key_eq_dec k m); [congruence | ring].
  - rewrite get0_set.
    destruct (key_eq_dec m k) as [->|Hm].
    + destruct (key_eq_dec k k); [reflexivity | congruence].
    + destruct (key_eq_dec k m); [congruence | ring].
Qed.

Lemma NoDup_acc_at (d : poly_dict) (k : key) (v : Qc) :
  NoDup (keys d) -> NoDup (keys (acc_at d k v)).
Proof.
  intros Hnd. unfold acc_at. destruct (Qc_eq_dec _ 0);
    [now apply NoDup_keys_pop | now apply NoDup_keys_set].
Qed.

Lemma Forall_acc_at (P : key * Qc -> Prop) (d : poly_dict) (k : key) (v : Qc) :
  Forall P d -> (forall c, c <> 0 -> P (k, c)) -> Forall P (acc_at d k v).
Proof.
  intros Hd Hk. rewrite Forall_forall in *. intros kv Hin.
  unfold acc_at in Hin. destruct (Qc_eq_dec (get0 d k + v) 0) as [E|E].
  - apply Hd. eapply In_dict_pop, Hin.
  - apply In_dict_set in Hin. destruct Hin as [Hin| ->]; auto.
Qed.

Lemma value_accumulate (l : list (key * Qc)) (d : poly_dict) (a : nat -> Qc) :
  value (accumulate d l) a = value d a + value l a.
Proof.
  revert d; induction l as [|[k v] t IH]; intros d; simpl; [ring|].
  rewrite IH, value_acc_at. ring.
Qed.

Lemma NoDup_accumulate (l : list (key * Qc)) (d : poly_dict) :
  NoDup (keys d) -> NoDup (keys (accumulate d l)).
Proof.
  revert d; induction l as [|[k v] t IH]; intros d Hnd; simpl; [exact Hnd|].
  apply IH, NoDup_acc_at, Hnd.
Qed.

Lemma get0_accumulate (l : list (key * Qc)) (d : poly_dict) (m : key) :
  NoDup (keys d) -> get0 (accumulate d l) m = get0 d m + tcoef l m.
Proof.
  revert d; induction l as [|[k v] t IH]; intros d Hnd; simpl; [ring|].
  rewrite IH by now apply NoDup_acc_at.
  rewrite get0_acc_at by assumption. ring.
Qed.

Lemma Forall_accumulate (P : key * Qc -> Prop) (l : list (key * Qc)) (d : poly_dict) :
  Forall P d -> Forall (fun kv => forall c, c <> 0 -> P (fst kv, c)) l ->
  Forall P (accumulate d l).
Proof.
  revert d; induction l as [|[k v] t IH]; intros d Hd Hl; simpl; [exact Hd|].
  inversion Hl; subst. apply IH; [|assumption].
  apply Forall_acc_at; assumption.
Qed.

Lemma squash_key_Tup (c : pyclass) (k : key) :
  squash_key c (Tup k)
  = if bounded_degree c && (2 <? length (canonical (algebra_of c) k))%nat
    then Raise InvalidTermDegree
    else Ok (canonical (algebra_of c) k).
Proof. reflexivity. Qed.

Lemma squash_key_okkey (c : pyclass) (k : key) :
  okkey c k -> squash_key c (Tup k) = Ok k.
Proof.
  intros [Hs Hb]. rewrite squash_key_Tup, canonical_fixed by assumption.
  destruct (bounded_degree c); [|reflexivity].
  specialize (Hb eq_refl). simpl.
  destruct (Nat.ltb_spec 2 (length k)); [lia | reflexivity].
Qed.

(** [p[s] += v] canonicalizes [s] once and accumulates there. *)
Lemma iadd_item_unfold (p : poly) (s : subscript) (v : Qc) :
  iadd_item p s v
  = (k <- squash_key (cls p) s ;; Ok (mkPoly (cls p) (acc_at (items p) k v))).
Proof.
  unfold iadd_item, getitem, setitem, acc_at.
  destruct (squash_key (cls p) s) as [k|e]; simpl; [|reflexivity].
  now destruct (Qc_eq_dec (get0 (items p) k + v) 0).
Qed.

Lemma isub_item_iadd (p : poly) (s : subscript) (v : Qc) :
  isub_item p s v = iadd_item p s (- v).
Proof. reflexivity. Qed.

(** An integer subscript is rejected. *)
Lemma iadd_item_Int (p : poly) (z : nat) (v : Qc) :
  iadd_item p (Int z) v = Raise InvalidKey.
Proof. reflexivity. Qed.

(** [p += other] when no canonicalized key of [other] is too long. *)
Lemma iadd_accumulate (l : list (key * Qc)) (p : poly) :
  Forall (fun kv => bounded_degree (cls p) = true ->
                    (length (canonical (algebra_of (cls p)) (fst kv)) <= 2)%nat) l ->
  iadd p l
  = Ok (mkPoly (cls p) (accumulate (items p) (squashed (algebra_of (cls p)) l))).
Proof.
  unfold iadd. revert p; induction l as [|[k v] t IH]; intros p Hl; simpl.
  - now destruct p.
  - inversion Hl as [|? ? Hk Ht]; subst. simpl in Hk.
    rewrite iadd_item_unfold, squash_key_Tup.
    destruct (bounded_degree (cls p)) eqn:Eb; simpl.
    + specialize (Hk eq_refl).
      destruct (Nat.ltb_spec 2 (length (canonical (algebra_of (cls p)) k))); [lia|].
      simpl. rewrite IH; [reflexivity|]. simpl. now rewrite Eb.
    + rewrite IH; [reflexivity|]. simpl. now rewrite Eb.
Qed.

Lemma squashed_okkeys (c : pyclass) (l : list (key * Qc)) :
  Forall (fun kv => okkey c (fst kv)) l -> squashed (algebra_of c) l = l.
Proof.
  induction 1 as [|[k v] t [Hk _] Ht IH]; simpl; [reflexivity|].
  simpl in Hk. now rewrite canonical_fixed, IH.
Qed.

Lemma iadd_okkeys (l : list (key * Qc)) (p : poly) :
  Forall (fun kv => okkey (cls p) (fst kv)) l ->
  iadd p l = Ok (mkPoly (cls p) (accumulate (items p) l)).
Proof.
  intros Hl. rewrite iadd_accumulate.
  - now rewrite squashed_okkeys.
  - eapply Forall_impl; [|exact Hl]. intros [k v] [Hs Hb] Hbd; simpl in *.
    rewrite canonical_fixed by assumption. auto.
Qed.

Lemma wf_accumulate (c : pyclass) (d : poly_dict) (l : list (key * Qc)) :
  wf_poly (mkPoly c d) ->
  Forall (fun kv => okkey c (fst kv)) l ->
  wf_poly (mkPoly c (accumulate d l)).
Proof.
  intros [H1 H2 H3] Hl; simpl in *. constructor; simpl.
  - now apply NoDup_accumulate.
  - apply Forall_accumulate; [assumption|].
    eapply Forall_impl; [|exact Hl]. simpl. auto.
  - apply Forall_accumulate; [assumption|].
    apply Forall_forall. simpl. auto.
Qed.

(** [p[s] += v] keeps a container in the state of its class. *)
Lemma iadd_item_wf (p p' : poly) (s : subscript) (v : Qc) :
  wf_poly p -> iadd_item p s v = Ok p' -> wf_poly p' /\ cls p' = cls p.
Proof.
  intros Hp H. rewrite iadd_item_unfold in H.
  apply bind_inv in H. destruct H as (k & Hk & H). apply Ok_inj in H. subst p'.
  split; [|reflexivity].
  assert (Hok : okkey (cls p) k).
  { destruct s as [k0|i]; [|discriminate Hk]. rewrite squash_key_Tup in Hk.
    destruct (bounded_degree (cls p)) eqn:Eb; simpl in Hk.
    - destruct (Nat.ltb_spec 2 (length (canonical (algebra_of (cls p)) k0)));
        [discriminate Hk|].
      apply Ok_inj in Hk. subst k. split; [apply canonical_strict | auto].
    - apply Ok_inj in Hk. subst k. split; [apply canonical_strict | congruence]. }
  apply (wf_accumulate (cls p) (items p) [(k, v)]).
  - now destruct p.
  - apply Forall_cons; [exact Hok | apply Forall_nil].
Qed.

Lemma tcoef_app (l1 l2 : list (key * Qc)) (m : key) :
  tcoef (l1 ++ l2) m = tcoef l1 m + tcoef l2 m.
Proof.
  induction l1 as [|[k v] t IH]; simpl; [ring|]. rewrite IH. ring.
Qed.

Lemma value_app (l1 l2 : list (key * Qc)) (a : nat -> Qc) :
  value (l1 ++ l2) a = value l1 a + value l2 a.
Proof.
  induction l1 as [|[k v] t IH]; simpl; [ring|]. rewrite IH. ring.
Qed.

(** In a dictionary the coefficient of a monomial is the entry read. *)
Lemma tcoef_dict (d : poly_dict) (m : key) :
  NoDup (keys d) -> tcoef d m = get0 d m.
Proof.
  unfold get0.
  induction d as [|[k v] t IH]; simpl; intros Hnd; [reflexivity|].
  inversion Hnd as [|? ? Hnin Hnd']; subst.
  destruct (key_eq_dec k m) as [->|Hk].
  - destruct (key_eq_dec m m); [|congruence].
    rewrite IH by assumption.
    apply (dict_get_None key_eq_dec) in Hnin. rewrite Hnin. ring.
  - destruct (key_eq_dec m k); [congruence|]. rewrite IH by assumption. ring.
Qed.

(** ** The converters as accumulations of generated terms *)

Lemma accumulate_app (l1 l2 : list (key * Qc)) (d : poly_dict) :
  accumulate d (l1 ++ l2) = accumulate (accumulate d l1) l2.
Proof.
  revert d; induction l1 as [|[k v] t IH]; intros d; simpl; auto.
Qed.

Lemma okkey_bounded (c c' : pyclass) (k : key) :
  bounded_degree c = bounded_degree c' -> okkey c k -> okkey c' k.
Proof. unfold okkey. intros ->. auto. Qed.

Lemma foldM_convert (c_sq c_out : pyclass)
  (gen : key -> Qc -> list (key * Qc)) (body : poly -> key -> Qc -> result poly) :
  (forall L k v, cls L = c_out -> okkey c_sq k -> body L k v = iadd L (gen k v)) ->
  (forall k v, okkey c_sq k -> Forall (fun kv => okkey c_out (fst kv)) (gen k v)) ->
  forall l d,
    Forall (fun kv => okkey c_sq (fst kv)) l ->
    foldM (fun L '(kp, v) => k <- squash_key c_sq (Tup kp) ;; body L k v)
          l (mkPoly c_out d)
    = Ok (mkPoly c_out (accumulate d (expand gen l))).
Proof.
  intros Hbody Hgen. induction l as [|[k v] t IH]; intros d Hl; simpl.
  - reflexivity.
  - inversion Hl as [|? ? Hk Ht]; subst; simpl in Hk.
    rewrite squash_key_okkey by assumption. simpl.
    rewrite Hbody by auto. rewrite iadd_okkeys by (simpl; auto). simpl.
    rewrite IH by assumption. now rewrite accumulate_app.
Qed.

Lemma okkey_nil (c : pyclass) : okkey c [].
Proof. split; [constructor | simpl; lia]. Qed.

Lemma okkey_single (c : pyclass) (i : nat) : okkey c [i].
Proof. split; [repeat constructor | simpl; lia]. Qed.

Lemma okkey_pair_inv (c : pyclass) (i j : nat) : okkey c [i; j] -> (i < j)%nat.
Proof.
  intros [H _]. inversion H as [|? ? _ Hf]; subst. now inversion Hf.
Qed.

Lemma quadratic_terms_okkey (c_out : pyclass) (k : key) :
  okkey c_out k ->
  forall v, Forall (fun kv => okkey c_out (fst kv)) (qubo_to_ising_terms k v)
            /\ Forall (fun kv => okkey c_out (fst kv)) (ising_to_qubo_terms k v).
Proof.
  intros Hk v.
  destruct k as [|i [|j [|? ?]]]; simpl; split;
    repeat (apply Forall_cons || apply Forall_nil); simpl;
    auto using okkey_nil, okkey_single.
Qed.

Ltac bind_chain :=
  unfold iadd_item, isub_item, Qcminus; simpl;
  repeat (rewrite ?bind_Ok_r; try reflexivity;
          match goal with
          | |- bind ?r _ = bind ?r _ => destruct r; simpl
          end).

Lemma qubo_to_ising_accumulate (Q : poly) :
  Forall (fun kv => okkey QUBOMatrix (fst kv)) (items Q) ->
  qubo_to_ising Q
  = Ok (mkPoly (if pyclass_eq_dec (cls Q) QUBOMatrix then IsingMatrix else Ising)
               (accumulate [] (expand qubo_to_ising_terms (items Q)))).
Proof.
  intros HQ. unfold qubo_to_ising, new.
  destruct (pyclass_eq_dec (cls Q) QUBOMatrix);
    (apply (foldM_convert _ _ qubo_to_ising_terms); [| |exact HQ]).
  1,3: intros L k v _ _; unfold iadd;
       destruct k as [|i [|j [|? ?]]]; simpl; rewrite ?bind_Ok_r;
       try reflexivity; bind_chain.
  - intros k v Hk.
    apply (quadratic_terms_okkey IsingMatrix k (okkey_bounded _ _ k eq_refl Hk)).
  - intros k v Hk.
    apply (quadratic_terms_okkey Ising k (okkey_bounded _ _ k eq_refl Hk)).
Qed.

Lemma ising_to_qubo_accumulate (L : poly) :
  Forall (fun kv => okkey IsingMatrix (fst kv)) (items L) ->
  ising_to_qubo L
  = Ok (mkPoly (if pyclass_eq_dec (cls L) IsingMatrix then QUBOMatrix else QUBO)
               (accumulate [] (expand ising_to_qubo_terms (items L)))).
Proof.
  intros HL. unfold ising_to_qubo, new.
  destruct (pyclass_eq_dec (cls L) IsingMatrix);
    (apply (foldM_convert _ _ ising_to_qubo_terms); [| |exact HL]).
  1,3: intros Q k v _ _; unfold iadd;
       destruct k as [|i [|j [|? ?]]]; simpl; rewrite ?bind_Ok_r;
       try reflexivity; bind_chain.
  - intros k v Hk.
    apply (quadratic_terms_okkey QUBOMatrix k (okkey_bounded _ _ k eq_refl Hk)).
  - intros k v Hk.
    apply (quadratic_terms_okkey QUBO k (okkey_bounded _ _ k eq_refl Hk)).
Qed.

(** The keys a generator yields are subsequences of its argument. *)
Lemma StronglySorted_cons_sub (x : nat) (k key : list nat) :
  Forall (lt x) k -> (forall i, In i key -> In i k) ->
  StronglySorted lt key -> StronglySorted lt (x :: key).
Proof.
  intros Hx Hsub Hs. constructor; [exact Hs|].
  rewrite Forall_forall in *. auto.
Qed.


Lemma hising_generate_keys (k : key) :
  StronglySorted lt k ->
  Forall (fun kv => StronglySorted lt (fst kv) /\ forall i, In i (fst kv) -> In i k)
         (hising_generate_new_key_value k).
Proof.
  induction 1 as [|x t Ht IH Hx]; simpl.
  - repeat constructor. simpl. tauto.
  - apply Forall_flat_map. eapply Forall_impl; [|exact IH].
    intros [key value] [Hs Hsub]; simpl in *.
    apply Forall_cons; [split | apply Forall_cons; [split | apply Forall_nil]];
      simpl; auto.
    + eapply StronglySorted_cons_sub; eauto.
    + intros i [->|Hi]; auto.
Qed.

Lemma foldM_scale (v : Qc) (l : list (key * Qc)) (p : poly) :
  foldM (fun H '(key, value) => iadd_item H (Tup key) (value * v)) l p
  = iadd p (scale v l).
Proof.
  unfold iadd. revert p; induction l as [|[key value] t IH]; intros p; simpl;
    [reflexivity|].
  destruct (iadd_item p (Tup key) (value * v)); simpl; auto.
Qed.

Lemma scale_okkey (c : pyclass) (v : Qc) (k : key) (l : list (key * Qc)) :
  bounded_degree c = false ->
  Forall (fun kv => StronglySorted lt (fst kv) /\ forall i, In i (fst kv) -> In i k) l ->
  Forall (fun kv => okkey c (fst kv)) (scale v l).
Proof.
  intros Hc Hl. unfold scale. apply Forall_map.
  eapply Forall_impl; [|exact Hl]. intros [key value] [Hs _]; simpl.
  split; [exact Hs | congruence].
Qed.


Lemma hising_to_pubo_accumulate (H : poly) :
  Forall (fun kv => StronglySorted lt (fst kv)) (items H) ->
  hising_to_pubo H
  = Ok (mkPoly (if pyclass_eq_dec (cls H) HIsingMatrix then PUBOMatrix else PUBO)
               (accumulate [] (expand hising_to_pubo_terms (items H)))).
Proof.
  intros HH.
  assert (HH' : forall c, bounded_degree c = false ->
                          Forall (fun kv => okkey c (fst kv)) (items H)).
  { intros c Hc. eapply Forall_impl; [|exact HH].
    intros kv Hs. split; [exact Hs | congruence]. }
  unfold hising_to_pubo, new.
  destruct (pyclass_eq_dec (cls H) HIsingMatrix);
    (apply (foldM_convert _ _ hising_to_pubo_terms); [| |now apply HH']).
  1,3: intros L k v _ _; apply foldM_scale.
  all: intros k v [Hk _]; eapply scale_okkey; [reflexivity|];
       apply hising_generate_keys, Hk.
Qed.

(** ** Linear algebra of term lists *)

Lemma wsum_app (f : key -> Qc) (l1 l2 : list (key * Qc)) :
  wsum f (l1 ++ l2) = wsum f l1 + wsum f l2.
Proof.
  induction l1 as [|[k v] t IH]; simpl; [ring|]. rewrite IH. ring.
Qed.

Lemma wsum_scale (f : key -> Qc) (c : Qc) (l : list (key * Qc)) :
  wsum f (scale c l) = c * wsum f l.
Proof.
  induction l as [|[k v] t IH]; simpl; [ring|]. rewrite IH. ring.
Qed.

Lemma tcoef_scale (c : Qc) (l : list (key * Qc)) (m : key) :
  tcoef (scale c l) m = c * tcoef l m.
Proof.
  induction l as [|[k v] t IH]; simpl; [ring|]. rewrite IH.
  destruct (key_eq_dec k m); ring.
Qed.

Lemma wsum_remove_key (f : key -> Qc) (k0 : key) (l : list (key * Qc)) :
  wsum f l = tcoef l k0 * f k0 + wsum f (remove_key k0 l).
Proof.
  induction l as [|[k v] t IH]; simpl; [ring|].
  rewrite IH. destruct (key_eq_dec k k0) as [->|Hk]; simpl; ring.
Qed.

Lemma tcoef_remove_key (k0 : key) (l : list (key * Qc)) (m : key) :
  tcoef (remove_key k0 l) m = if key_eq_dec k0 m then 0 else tcoef l m.
Proof.
  induction l as [|[k v] t IH]; simpl.
  - now destruct (key_eq_dec k0 m).
  - destruct (key_eq_dec k k0) as [->|Hk]; simpl; rewrite IH.
    + destruct (key_eq_dec k0 m); ring.
    + destruct (key_eq_dec k0 m) as [<-|]; [|reflexivity].
      destruct (key_eq_dec k k0); [contradiction | ring].
Qed.

Lemma length_remove_key (k0 : key) (l : list (key * Qc)) :
  (length (remove_key k0 l) <= length l)%nat.
Proof. apply filter_length_le. Qed.

(** Terms that cancel monomial by monomial have a zero weighted sum. *)
Lemma wsum_zero (f : key -> Qc) (l : list (key * Qc)) :
  (forall m, tcoef l m = 0) -> wsum f l = 0.
Proof.
  remember (length l) as n eqn:Hn.
  revert l Hn. induction n as [n IH] using lt_wf_ind. intros l Hn Hz.
  destruct l as [|[k0 v] t]; [reflexivity|].
  rewrite (wsum_remove_key f k0), Hz.
  rewrite (IH (length (remove_key k0 ((k0, v) :: t)))) with (l := remove_key k0 ((k0, v) :: t));
    [ring | | reflexivity |].
  - subst n. simpl. destruct (key_eq_dec k0 k0); [|congruence].
    pose proof (length_remove_key k0 t). simpl. lia.
  - intros m. rewrite tcoef_remove_key. destruct (key_eq_dec k0 m); auto.
Qed.

(** The weighted sum depends on the terms through their coefficients only. *)
Lemma wsum_ext (f : key -> Qc) (l l' : list (key * Qc)) :
  (forall m, tcoef l m = tcoef l' m) -> wsum f l = wsum f l'.
Proof.
  intros H.
  assert (E : wsum f (l ++ scale (- (1)) l') = 0).
  { apply wsum_zero. intros m. rewrite tcoef_app, tcoef_scale, H. ring. }
  rewrite wsum_app, wsum_scale in E.
  transitivity (wsum f l + - (1) * wsum f l' + wsum f l'); [ring|].
  rewrite E. ring.
Qed.

Lemma wsum_expand (f : key -> Qc) (gen : key -> Qc -> list (key * Qc))
  (l : list (key * Qc)) :
  wsum f (expand gen l)
  = fold_right (fun '(k, v) acc => wsum f (gen k v) + acc) 0 l.
Proof.
  induction l as [|[k v] t IH]; simpl; [reflexivity|].
  now rewrite wsum_app, IH.
Qed.

Lemma tcoef_wsum (G : key -> key -> Qc) (gen : key -> Qc -> list (key * Qc))
  (m : key) :
  (forall k v, tcoef (gen k v) m = v * G k m) ->
  forall l, tcoef (expand gen l) m = wsum (fun k => G k m) l.
Proof.
  intros Hlin. induction l as [|[k v] t IH]; simpl; [reflexivity|].
  now rewrite tcoef_app, Hlin, IH.
Qed.

Lemma value_expand (gen : key -> Qc -> list (key * Qc)) (a b : nat -> Qc)
  (l : list (key * Qc)) :
  Forall (fun kv => value (gen (fst kv) (snd kv)) b = snd kv * mono a (fst kv)) l ->
  value (expand gen l) b = value l a.
Proof.
  induction 1 as [|[k v] t Hk Ht IH]; simpl in *; [reflexivity|].
  now rewrite value_app, Hk, IH.
Qed.

(** Composition of two converters, coefficient by coefficient. *)
Lemma roundtrip_coef (gen1 gen2 : key -> Qc -> list (key * Qc))
  (G2 : key -> key -> Qc) (P : poly_dict) (m : key) :
  (forall k v, tcoef (gen2 k v) m = v * G2 k m) ->
  Forall (fun kv => wsum (fun k' => G2 k' m) (gen1 (fst kv) (snd kv))
                    = if key_eq_dec (fst kv) m then snd kv else 0) P ->
  NoDup (keys P) ->
  get0 (accumulate [] (expand gen2 (accumulate [] (expand gen1 P)))) m
  = get0 P m.
Proof.
  intros Hlin HK Hnd.
  rewrite get0_accumulate by constructor.
  rewrite (tcoef_wsum G2 gen2 m Hlin).
  rewrite (wsum_ext _ _ (expand gen1 P)).
  2:{ intros m'. rewrite tcoef_dict by (apply NoDup_accumulate; constructor).
      rewrite get0_accumulate by constructor. unfold get0; simpl. ring. }
  rewrite wsum_expand, <- (tcoef_dict P m) by assumption.
  unfold get0; simpl.
  clear Hnd. induction HK as [|[k v] t Hk Ht IH]; simpl in *; [ring|].
  rewrite Hk. rewrite Qcplus_0_l in IH. rewrite IH. ring.
Qed.

(** ** Equality of dictionaries *)

Lemma dict_eqb_intro (d1 d2 : poly_dict) :
  NoDup (keys d1) -> NoDup (keys d2) ->
  Forall (fun kv => snd kv <> 0) d1 -> Forall (fun kv => snd kv <> 0) d2 ->
  (forall m, get0 d1 m = get0 d2 m) ->
  dict_eqb d1 d2 = true.
Proof.
  intros N1 N2 Z1 Z2 H. rewrite Forall_forall in Z1, Z2.
  assert (Hsub : forall da db : poly_dict,
             NoDup (keys da) -> (forall kv, In kv da -> snd kv <> 0) ->
             (forall m, get0 da m = get0 db m) ->
             forall k v, In (k, v) da -> dict_get key_eq_dec db k = Some v).
  { intros da db Na Za Hab k v Hin.
    pose proof (In_dict_get key_eq_dec da k v Na Hin) as Hg.
    specialize (Hab k). unfold get0 in Hab. rewrite Hg in Hab.
    specialize (Za _ Hin). simpl in Za.
    destruct (dict_get key_eq_dec db k); congruence. }
  unfold dict_eqb. apply andb_true_intro; split.
  - apply Nat.eqb_eq. rewrite <- (length_map fst d1), <- (length_map fst d2).
    apply Nat.le_antisymm; apply NoDup_incl_length; auto; intros k Hk;
      apply in_map_iff in Hk; destruct Hk as [[k' v] [<- Hin]]; simpl.
    + apply (Hsub d1 d2) in Hin; auto.
      apply dict_get_In in Hin. now apply (in_map fst) in Hin.
    + apply (Hsub d2 d1) in Hin; auto.
      apply dict_get_In in Hin. now apply (in_map fst) in Hin.
  - apply forallb_forall. intros [k v] Hin.
    rewrite (Hsub d1 d2 N1 Z1 H k v Hin).
    destruct (Qc_eq_dec v v); congruence.
Qed.

(** Conversely, equal dictionaries read the same at every key. *)
Lemma dict_eqb_get (d1 d2 : poly_dict) :
  NoDup (keys d1) -> NoDup (keys d2) ->
  dict_eqb d1 d2 = true ->
  forall k, dict_get key_eq_dec d1 k = dict_get key_eq_dec d2 k.
Proof.
  intros N1 N2 H. unfold dict_eqb in H.
  apply andb_prop in H. destruct H as [Hlen Hall].
  apply Nat.eqb_eq in Hlen. rewrite forallb_forall in Hall.
  assert (Hsub : forall k v, dict_get key_eq_dec d1 k = Some v ->
                             dict_get key_eq_dec d2 k = Some v).
  { intros k v Hg. apply dict_get_In in Hg. specialize (Hall _ Hg). simpl in Hall.
    destruct (dict_get key_eq_dec d2 k) as [w|]; [|discriminate].
    destruct (Qc_eq_dec v w); congruence. }
  assert (Hincl : incl (keys d2) (keys d1)).
  { apply NoDup_length_incl; [exact N1 | unfold keys; rewrite !length_map; lia |].
    intros k Hk. apply in_map_iff in Hk. destruct Hk as [[k' v] [<- Hin]].
    apply (In_dict_get key_eq_dec d1 _ _ N1) in Hin. apply Hsub in Hin.
    apply dict_get_In in Hin. now apply (in_map fst) in Hin. }
  intros k. destruct (dict_get key_eq_dec d1 k) as [v|] eqn:E1.
  - symmetry. now apply Hsub.
  - destruct (dict_get key_eq_dec d2 k) as [w|] eqn:E2; [|reflexivity].
    exfalso. apply dict_get_In in E2. apply (in_map fst) in E2.
    apply Hincl in E2. apply (dict_get_None key_eq_dec) in E1. contradiction.
Qed.

(** ** The algebra of the substitutions [x = (z+1)/2] and [z = 2x-1] *)

Ltac qc_field :=
  unfold five, four, three, two;
  first [ ring
        | field; repeat split; let H := fresh in intro H; discriminate H ].

Ltac key_cases :=
  repeat match goal with
         | |- context [key_eq_dec ?a ?b] => destruct (key_eq_dec a b)
         end.


Lemma qubo_to_ising_terms_linear (k : key) (v : Qc) (m : key) :
  tcoef (qubo_to_ising_terms k v) m = v * tcoef (qubo_to_ising_terms k 1) m.
Proof.
  destruct k as [|i [|j [|? ?]]]; simpl; key_cases; qc_field.
Qed.


Lemma quadratic_inverse' (k : key) (v : Qc) (m : key) :
  okkey IsingMatrix k ->
  wsum (fun k' => tcoef (qubo_to_ising_terms k' 1) m) (ising_to_qubo_terms k v)
  = if key_eq_dec k m then v else 0.
Proof.
  intros Hk.
  destruct k as [|i [|j [|? ?]]]; simpl.
  - key_cases; qc_field.
  - key_cases; subst; try discriminate; try congruence; qc_field.
  - apply okkey_pair_inv in Hk.
    key_cases; subst; try discriminate; try congruence;
      try (exfalso; assert (i = j) by congruence; lia); qc_field.
  - destruct Hk as [_ Hlen]. specialize (Hlen eq_refl). simpl in Hlen. lia.
Qed.






(** ** Round trips and agreement of the converters *)

Lemma expand_okkey (c c' : pyclass) (gen : key -> Qc -> list (key * Qc))
  (l : list (key * Qc)) :
  (forall k v, okkey c k -> Forall (fun kv => okkey c' (fst kv)) (gen k v)) ->
  Forall (fun kv => okkey c (fst kv)) l ->
  Forall (fun kv => okkey c' (fst kv)) (expand gen l).
Proof.
  intros Hgen Hl. unfold expand. apply Forall_flat_map.
  eapply Forall_impl; [|exact Hl]. intros [k v] Hk. now apply Hgen.
Qed.

Lemma wf_nil (c : pyclass) : wf_poly (mkPoly c []).
Proof. repeat constructor. Qed.

Lemma roundtrip_eqb (c_in c_mid : pyclass)
  (gen1 gen2 : key -> Qc -> list (key * Qc)) (G2 : key -> key -> Qc)
  (P : poly_dict) :
  wf_poly (mkPoly c_in P) ->
  (forall k v, okkey c_in k -> Forall (fun kv => okkey c_mid (fst kv)) (gen1 k v)) ->
  (forall k v, okkey c_mid k -> Forall (fun kv => okkey c_in (fst kv)) (gen2 k v)) ->
  (forall k v m, tcoef (gen2 k v) m = v * G2 k m) ->
  (forall k v m, okkey c_in k ->
                 wsum (fun k' => G2 k' m) (gen1 k v) = if key_eq_dec k m then v else 0) ->
  dict_eqb (accumulate [] (expand gen2 (accumulate [] (expand gen1 P)))) P = true.
Proof.
  intros HP H1 H2 Hlin HK.
  pose proof (wf_accumulate c_mid [] (expand gen1 P) (wf_nil _)
                (expand_okkey _ _ _ _ H1 (wf_canon _ HP))) as HL.
  pose proof (wf_accumulate c_in [] _ (wf_nil _)
                (expand_okkey _ _ _ _ H2 (wf_canon _ HL))) as HQ.
  destruct HP as [P1 P2 P3], HQ as [Q1 Q2 Q3]; simpl in *.
  apply dict_eqb_intro; auto.
  intros m. apply (roundtrip_coef gen1 gen2 G2); auto.
  eapply Forall_impl; [|exact P2]. intros [k v] Hk; simpl in *. now apply HK.
Qed.


Lemma wf_poly_sorted (p : poly) :
  wf_poly p -> Forall (fun kv => StronglySorted lt (fst kv)) (items p).
Proof.
  intros [_ H _]. eapply Forall_impl; [|exact H]. now intros kv [Hs _].
Qed.



Lemma qubo_to_ising_terms_value (k : key) (v : Qc) (x : nat -> Qc) :
  okkey QUBOMatrix k ->
  value (qubo_to_ising_terms k v) (to_spin x) = v * mono x k.
Proof.
  intros [_ Hlen]. specialize (Hlen eq_refl).
  destruct k as [|i [|j [|? ?]]]; simpl in *; try lia; unfold to_spin; qc_field.
Qed.



(** ** The penalty block *)

Ltac qc_lra :=
  unfold five, four, three, two, Qcdiv, Qcinv in *;
  repeat match goal with
         | H : ?T |- _ =>
             lazymatch T with
             | Qclt _ _ => fail
             | Qcle _ _ => fail
             | Qc => fail
             | _ => clear H
             end
         end;
  unfold Qcle, Qclt, Qcminus, Qcopp, Qcmult, Qcplus, Q2Qc in *;
  cbn [this] in *;
  repeat rewrite Qred_correct in *;
  repeat match goal with
         | x : Qc |- _ => generalize dependent (this x); clear x; intros
         end;
  lra.

Lemma constraint_xy_eq_z_items (x y z : nat) (lam : Qc) :
  x <> y -> x <> z -> y <> z ->
  _constraint_xy_eq_z x y z lam
  = [([z], three * lam); ([x; y], lam); ([x; z], - two * lam); ([y; z], - two * lam)].
Proof.
  intros Hxy Hxz Hyz. unfold _constraint_xy_eq_z. simpl.
  repeat (key_cases; try congruence; simpl).
  reflexivity.
Qed.

(** The penalty block with a rational weight [lam > 0] and the products
    [3 * lam] and [-2 * lam] taken exactly: at each of the 8 boolean
    assignments of [(x, y, z)] it is 0 when [z = x*y] and at least [lam]
    otherwise. *)
Lemma constraint_xy_eq_z_penalty (lam : Qc) (x y z : nat) (a : nat -> Qc) :
  0 < lam -> x <> y -> x <> z -> y <> z ->
  (a x = 0 \/ a x = 1) -> (a y = 0 \/ a y = 1) -> (a z = 0 \/ a z = 1) ->
  _constraint_xy_eq_z x y z lam
  = [([z], three * lam); ([x; y], lam); ([x; z], - two * lam); ([y; z], - two * lam)]
  /\ (a z = a x * a y -> value (_constraint_xy_eq_z x y z lam) a = 0)
  /\ (a z <> a x * a y -> lam <= value (_constraint_xy_eq_z x y z lam) a).
Proof.
  intros Hlam Hxy Hxz Hyz Hx Hy Hz.
  rewrite constraint_xy_eq_z_items by assumption.
  split; [reflexivity|]. simpl.
  destruct Hx as [-> | ->], Hy as [-> | ->], Hz as [-> | ->]; split; intros H;
    try (exfalso; first [ apply H; ring
                        | revert H; rewrite ?Qcmult_0_l, ?Qcmult_0_r, ?Qcmult_1_l;
                          discriminate ]);
    try qc_field; qc_lra.
Qed.

(** ** [convert_solution] *)

Lemma foldM_ext_in {A B} (f g : A -> B -> result A) (l : list B) (acc : A) :
  (forall a x, In x l -> f a x = g a x) -> foldM f l acc = foldM g l acc.
Proof.
  revert acc; induction l as [|x t IH]; intros acc H; simpl; [reflexivity|].
  rewrite (H acc x) by now left.
  destruct (g acc x); simpl; [|reflexivity].
  apply IH. intros; apply H. now right.
Qed.

Lemma firstn_S_nth_error {A} (l : list A) (s : nat) (x : A) :
  nth_error l s = Some x -> firstn (S s) l = firstn s l ++ [x].
Proof.
  revert s; induction l as [|y t IH]; intros [|s] H; simpl in *; try discriminate.
  - now injection H as ->.
  - f_equal. now apply IH.
Qed.

Lemma In_firstn_nth_error {A} (l : list A) (s : nat) (x : A) :
  In x (firstn s l) -> exists j, (j < s)%nat /\ nth_error l j = Some x.
Proof.
  revert s; induction l as [|y t IH]; intros [|s] H; simpl in *; try tauto.
  destruct H as [->|H].
  - exists O. split; [lia | reflexivity].
  - destruct (IH s H) as [j [Hj Hn]]. exists (S j). split; [lia | exact Hn].
Qed.

(** The bit that [convert_solution] records for a value. *)
Lemma convert_solution_prefix (self : pubo) (sol : solution) :
  NoDup (labels self) ->
  forall len s acc,
    (s + len = num_binary_variables self)%nat ->
    (forall i, (i < num_binary_variables self)%nat -> sol i <> None) ->
    keys acc = firstn s (labels self) ->
    (forall i l, (i < s)%nat -> nth_error (labels self) i = Some l ->
                 exists v, sol i = Some v /\
                           dict_get label_eq_dec acc l
                           = Some (if Z.eq_dec v 1 then 1%Z else 0%Z)) ->
    exists res,
      foldM (fun res i =>
               l <- _reverse_mapping self i ;;
               match sol i with
               | Some s => Ok (dict_set label_eq_dec res l
                                 (if Z.eq_dec s 1 then 1%Z else 0%Z))
               | None => Raise KeyNotFound
               end) (seq s len) acc = Ok res
      /\ keys res = labels self
      /\ (forall i l, nth_error (labels self) i = Some l ->
                      exists v, sol i = Some v /\
                                dict_get label_eq_dec res l
                                = Some (if Z.eq_dec v 1 then 1%Z else 0%Z)).
Proof.
  intros Hnd. unfold num_binary_variables.
  induction len as [|len IH]; intros s acc Hlen Hsol Hkeys Hval; simpl.
  - exists acc. split; [reflexivity|]. split.
    + rewrite Hkeys. apply firstn_all2. lia.
    + intros i l Hi. apply Hval; [|exact Hi].
      assert (i < length (labels self))%nat by (apply nth_error_Some; congruence).
      lia.
  - assert (Hs : (s < length (labels self))%nat) by lia.
    unfold _reverse_mapping at 1.
    destruct (nth_error (labels self) s) as [l|] eqn:El;
      [|apply nth_error_None in El; lia].
    simpl. destruct (sol s) as [v|] eqn:Ev; [|now apply Hsol in Ev].
    assert (Hfresh : ~ In l (keys acc)).
    { rewrite Hkeys. intros Hin. apply In_firstn_nth_error in Hin.
      destruct Hin as [j [Hj Hn]].
      assert (j = s); [|lia].
      apply (proj1 (NoDup_nth_error (labels self)) Hnd); [|congruence].
      apply nth_error_Some; congruence. }
    apply IH; [lia | exact Hsol | |].
    + rewrite keys_set. unfold dict_mem.
      apply (dict_get_None label_eq_dec) in Hfresh. rewrite Hfresh.
      now rewrite Hkeys, (firstn_S_nth_error _ _ _ El).
    + intros i l' Hi Hn. rewrite dict_get_set.
      destruct (Nat.eq_dec i s) as [->|Hne].
      * assert (l' = l) by congruence. subst l'.
        exists v. split; [exact Ev|].
        destruct (label_eq_dec l l); [reflexivity | congruence].
      * destruct (Hval i l') as [w [Hw Hg]]; [lia | exact Hn |].
        exists w. split; [exact Hw|].
        destruct (label_eq_dec l' l) as [->|]; [|exact Hg].
        exfalso. apply Hne.
        apply (proj1 (NoDup_nth_error (labels self)) Hnd); [|congruence].
        apply nth_error_Some; congruence.
Qed.

(** C9.  For every [PUBO] with [n] original variables (its labels pairwise
    distinct) and every solution defined at least on the indices [0..n-1],
    [convert_solution] returns a dictionary whose keys are exactly the [n]
    original labels, each label mapped to 1 when the value at its index is 1
    and to 0 otherwise (so -1 becomes 0); and the result is the same for any
    other solution that agrees on [0..n-1], whatever it holds at the indices
    [>= n]. *)
Theorem convert_solution_spec (self : pubo) (sol : solution) :
  NoDup (labels self) ->
  (forall i, (i < num_binary_variables self)%nat -> sol i <> None) ->
  exists res,
    convert_solution self sol = Ok res
    /\ keys res = labels self
    /\ (forall i l, nth_error (labels self) i = Some l ->
                    exists v, sol i = Some v /\
                              dict_get label_eq_dec res l
                              = Some (if Z.eq_dec v 1 then 1%Z else 0%Z))
    /\ (forall sol' : solution,
           (forall i, (i < num_binary_variables self)%nat -> sol' i = sol i) ->
           convert_solution self sol' = Ok res).
Proof.
  intros Hnd Hsol.
  destruct (convert_solution_prefix self sol Hnd (num_binary_variables self) 0 [])
    as [res [Hres [Hk Hv]]]; auto; try (intros; lia).
  exists res. repeat split; auto.
  intros sol' Hagree. rewrite <- Hres. unfold convert_solution.
  apply foldM_ext_in. intros acc i Hi. apply in_seq in Hi.
  rewrite Hagree by lia. reflexivity.
Qed.

(** ** Monomials at boolean assignments *)

Lemma boolean_idem (a : nat -> Qc) (i : nat) : boolean a -> a i * a i = a i.
Proof. intros Ha. destruct (Ha i) as [-> | ->]; ring. Qed.

Lemma mono_app (a : nat -> Qc) (k1 k2 : key) :
  mono a (k1 ++ k2) = mono a k1 * mono a k2.
Proof. induction k1 as [|i t IH]; simpl; [ring|]. rewrite IH. ring. Qed.

Lemma mono_perm (a : nat -> Qc) (k k' : key) :
  Permutation k k' -> mono a k = mono a k'.
Proof.
  induction 1; simpl; try congruence; ring.
Qed.

Lemma mono_sorted (a : nat -> Qc) (k : key) : mono a (sorted k) = mono a k.
Proof. apply mono_perm, sorted_perm. Qed.

Lemma mono_absorb (a : nat -> Qc) (x : nat) (k : key) :
  boolean a -> In x k -> a x * mono a k = mono a k.
Proof.
  intros Ha. induction k as [|i t IH]; simpl; [tauto|].
  intros [->|Hin].
  - rewrite Qcmult_assoc, boolean_idem by assumption. reflexivity.
  - rewrite <- (IH Hin) at 2. ring.
Qed.

Lemma mono_nodup (a : nat -> Qc) (k : key) :
  boolean a -> mono a (nodup Nat.eq_dec k) = mono a k.
Proof.
  intros Ha. induction k as [|i t IH]; simpl; [reflexivity|].
  destruct (in_dec Nat.eq_dec i t) as [Hin|Hin]; simpl; rewrite IH.
  - symmetry. now apply mono_absorb.
  - reflexivity.
Qed.

Lemma mono_canonical (a : nat -> Qc) (k : key) :
  boolean a -> mono a (canonical BINARY k) = mono a k.
Proof. intros Ha. simpl. now rewrite mono_sorted, mono_nodup. Qed.

Lemma value_squashed (a : nat -> Qc) (l : list (key * Qc)) :
  boolean a -> value (squashed BINARY l) a = value l a.
Proof.
  intros Ha. induction l as [|[k v] t IH]; simpl; [reflexivity|].
  fold (canonical BINARY k). now rewrite mono_canonical, IH.
Qed.

Lemma mono_without (a : nat -> Qc) (x y : nat) (k : key) :
  boolean a -> In x k -> In y k ->
  mono a k = a x * a y * mono a (without k x y).
Proof.
  intros Ha Hx Hy.
  assert (E : forall l, a x * a y * mono a (without l x y) = a x * a y * mono a l).
  { induction l as [|i t IH]; simpl; [reflexivity|].
    destruct (Nat.eqb_spec i x) as [->|Hix]; simpl.
    - rewrite IH. transitivity (a x * a x * (a y * mono a t)); [|ring].
      rewrite boolean_idem by assumption. ring.
    - destruct (Nat.eqb_spec i y) as [->|Hiy]; simpl.
      + rewrite IH. transitivity (a x * (a y * a y) * mono a t); [|ring].
        rewrite boolean_idem by assumption. ring.
      + transitivity (a i * (a x * a y * mono a (without t x y))); [ring|].
        rewrite IH. ring. }
  rewrite E. rewrite <- Qcmult_assoc, (mono_absorb a y k), (mono_absorb a x k);
    auto.
Qed.

Lemma value_ext (l : list (key * Qc)) (a a' : nat -> Qc) :
  (forall k v i, In (k, v) l -> In i k -> a i = a' i) ->
  value l a = value l a'.
Proof.
  induction l as [|[k v] t IH]; intros H; simpl; [reflexivity|].
  rewrite IH by (intros; eapply H; [right|]; eauto).
  f_equal. f_equal.
  assert (Hk : forall i, In i k -> a i = a' i) by (intros; eapply H; [left|]; eauto).
  clear -Hk. induction k as [|i t IHk]; simpl; [reflexivity|].
  rewrite (Hk i) by now left. rewrite IHk; [reflexivity|].
  intros; apply Hk; now right.
Qed.

(** ** The search for a registered pair *)

Section Search.
Local Close Scope Qc_scope.
Variable R : dict key nat.

Lemma scan_y_Some (x : nat) (ys : list nat) (p : nat * nat) :
  scan_y R x ys = Some p ->
  fst p = x /\ In (snd p) ys /\ dict_mem key_eq_dec R [x; snd p] = true.
Proof.
  induction ys as [|y t IH]; simpl; [discriminate|].
  destruct (dict_mem key_eq_dec R [x; y]) eqn:E.
  - intros [= <-]. simpl. auto.
  - intros H. destruct (IH H) as (? & ? & ?). auto.
Qed.

Lemma find_reduced_Some (k : key) (x y : nat) :
  find_reduced R k = Some (x, y) ->
  exists l1 l2, k = l1 ++ x :: l2 /\ In y l2
                /\ dict_mem key_eq_dec R [x; y] = true.
Proof.
  induction k as [|i t IH]; simpl; [discriminate|].
  destruct (scan_y R i t) as [p|] eqn:E.
  - intros [= ->]. apply scan_y_Some in E. simpl in E.
    destruct E as (-> & Hy & Hm). exists [], t. auto.
  - intros H. destruct (IH H) as (l1 & l2 & -> & Hy & Hm).
    exists (i :: l1), l2. auto.
Qed.

Lemma find_reduced_None (x y : nat) (t : list nat) :
  find_reduced R (x :: y :: t) = None ->
  dict_get key_eq_dec R [x; y] = None.
Proof.
  simpl. unfold dict_mem.
  destruct (dict_get key_eq_dec R [x; y]); [discriminate | reflexivity].
Qed.

Lemma scan_y_None (x : nat) (ys : list nat) :
  scan_y R x ys = None ->
  forall y, In y ys -> dict_get key_eq_dec R [x; y] = None.
Proof.
  induction ys as [|y t IH]; simpl; [tauto|]. unfold dict_mem.
  destruct (dict_get key_eq_dec R [x; y]) eqn:E; [discriminate|].
  intros H y' [<-|Hy']; auto.
Qed.

Lemma find_reduced_None_all (k : key) :
  find_reduced R k = None ->
  forall l1 a l2 b, k = l1 ++ a :: l2 -> In b l2 ->
                    dict_get key_eq_dec R [a; b] = None.
Proof.
  induction k as [|i t IH]; simpl; intros H l1 a l2 b E Hb.
  - destruct l1; discriminate E.
  - destruct (scan_y R i t) eqn:Es; [discriminate|].
    destruct l1 as [|i' l1]; simpl in E; injection E as -> ->.
    + eapply scan_y_None; eauto.
    + eapply IH; eauto.
Qed.

Lemma find_reduced_lt (k : key) (x y : nat) :
  StronglySorted lt k -> find_reduced R k = Some (x, y) ->
  In x k /\ In y k /\ x < y.
Proof.
  intros Hs H. apply find_reduced_Some in H.
  destruct H as (l1 & l2 & -> & Hy & _).
  repeat split.
  - apply in_or_app. right. now left.
  - apply in_or_app. right. now right.
  - clear -Hs Hy. induction l1 as [|i t IH]; simpl in *.
    + inversion Hs as [|? ? _ Hf]; subst.
      rewrite Forall_forall in Hf. auto.
    + inversion Hs; subst. auto.
Qed.
End Search.

(** ** Removing the pair from the key *)

Section Without.
Local Close Scope Qc_scope.

Lemma In_without (k : key) (x y i : nat) :
  In i (without k x y) <-> In i k /\ i <> x /\ i <> y.
Proof.
  unfold without. rewrite filter_In.
  destruct (Nat.eqb_spec i x), (Nat.eqb_spec i y); simpl;
    intuition (congruence || lia).
Qed.

Lemma length_without_count (k : key) (x y : nat) :
  x <> y ->
  length (without k x y) + count_occ Nat.eq_dec k x + count_occ Nat.eq_dec k y
  = length k.
Proof.
  intros Hxy. induction k as [|i t IH]; simpl; [reflexivity|].
  destruct (Nat.eqb_spec i x) as [->|Hix]; simpl.
  - destruct (Nat.eq_dec x x); [|congruence].
    destruct (Nat.eq_dec x y); [congruence|]. lia.
  - destruct (Nat.eq_dec i x); [congruence|].
    destruct (Nat.eqb_spec i y) as [->|Hiy]; simpl.
    + destruct (Nat.eq_dec y y); [|congruence]. lia.
    + destruct (Nat.eq_dec i y); [congruence|]. simpl. lia.
Qed.

Lemma length_without (k : key) (x y : nat) :
  NoDup k -> In x k -> In y k -> x <> y ->
  length (without k x y) + 2 = length k.
Proof.
  intros Hnd Hx Hy Hxy.
  pose proof (length_without_count k x y Hxy) as H.
  rewrite (proj1 (NoDup_count_occ' Nat.eq_dec k) Hnd x Hx) in H.
  rewrite (proj1 (NoDup_count_occ' Nat.eq_dec k) Hnd y Hy) in H.
  lia.
Qed.

Lemma NoDup_without (k : key) (x y : nat) : NoDup k -> NoDup (without k x y).
Proof. apply NoDup_filter. Qed.
End Without.

(** ** The registry of reductions *)

Section Registry.
Local Close Scope Qc_scope.

Lemma dict_get_app {K V} (dec : forall a b : K, {a = b} + {a <> b})
  (d1 d2 : dict K V) (k : K) :
  dict_get dec (d1 ++ d2) k
  = match dict_get dec d1 k with
    | Some v => Some v
    | None => dict_get dec d2 k
    end.
Proof.
  induction d1 as [|[k' v'] t IH]; simpl; [reflexivity|].
  now destruct (dec k k').
Qed.

Lemma NoDup_snd_inj {K V} (l : list (K * V)) (k1 k2 : K) (z : V) :
  NoDup (map snd l) -> In (k1, z) l -> In (k2, z) l -> k1 = k2.
Proof.
  induction l as [|[k v] t IH]; simpl; [tauto|].
  intros Hnd H1 H2. inversion Hnd as [|? ? Hnin Hnd']; subst.
  destruct H1 as [E1|H1], H2 as [E2|H2]; try congruence.
  - injection E1 as -> ->. exfalso. apply Hnin.
    change z with (snd (k2, z)). now apply in_map.
  - injection E2 as -> ->. exfalso. apply Hnin.
    change z with (snd (k1, z)). now apply in_map.
  - now apply IH.
Qed.

Variables (n anc : nat) (R : dict key nat).
Hypothesis HR : wf_registry n anc R.

Lemma registry_value_bound (k : key) (z : nat) :
  dict_get key_eq_dec R k = Some z -> n <= z < anc.
Proof.
  intros H. apply dict_get_In in H. apply (in_map snd) in H. simpl in H.
  rewrite (reg_values _ _ _ HR) in H. apply in_seq in H.
  rewrite (reg_next _ _ _ HR). lia.
Qed.

Lemma registry_pair (k : key) (z : nat) :
  dict_get key_eq_dec R k = Some z ->
  exists x y, k = [x; y] /\ x < y /\ y < z.
Proof.
  intros H. apply dict_get_In in H.
  pose proof (reg_pairs _ _ _ HR) as Hp. rewrite Forall_forall in Hp.
  apply (Hp _ H).
Qed.

Lemma registry_inj (k1 k2 : key) (z : nat) :
  dict_get key_eq_dec R k1 = Some z -> dict_get key_eq_dec R k2 = Some z ->
  k1 = k2.
Proof.
  intros H1 H2. apply dict_get_In in H1, H2.
  eapply NoDup_snd_inj; eauto.
  rewrite (reg_values _ _ _ HR). apply seq_NoDup.
Qed.

Lemma extends_mint (k0 : key) (z : nat) :
  dict_get key_eq_dec R k0 = None -> extends R (dict_set key_eq_dec R k0 z).
Proof.
  intros Hn k z' H. rewrite dict_get_set.
  destruct (key_eq_dec k k0); [congruence | exact H].
Qed.

Lemma wf_registry_mint (x y : nat) :
  dict_get key_eq_dec R [x; y] = None -> x < y -> y < anc ->
  wf_registry n (S anc) (dict_set key_eq_dec R [x; y] anc).
Proof.
  intros Hn Hxy Hy. rewrite (dict_set_fresh key_eq_dec) by assumption.
  destruct HR as [H1 H2 H3 H4]. constructor.
  - unfold keys. rewrite map_app. simpl.
    apply NoDup_app; [exact H1 | repeat constructor; intros [] |].
    intros k Hk [<-|[]]. apply (dict_get_None key_eq_dec) in Hn. contradiction.
  - rewrite map_app, length_app. simpl.
    rewrite Nat.add_1_r, seq_S, H2. now rewrite H3.
  - rewrite length_app. simpl. lia.
  - apply Forall_app. split; [exact H4|].
    repeat constructor. exists x, y. simpl. auto.
Qed.

Lemma covers_trans (i j o : nat) : covers R i j -> covers R j o -> covers R i o.
Proof.
  induction 1; intros Ho; eauto using covers.
Qed.

Lemma covers_original (i o : nat) : i < n -> covers R i o -> o = i.
Proof.
  intros Hi H. destruct H as [|x y z o Hz _|x y z o Hz _]; [reflexivity| |];
    apply registry_value_bound in Hz; lia.
Qed.

Lemma covers_ancilla_inv (x y z o : nat) :
  dict_get key_eq_dec R [x; y] = Some z -> covers R z o ->
  o = z \/ covers R x o \/ covers R y o.
Proof.
  intros Hz H. inversion H as [|x' y' z' o' Hz' Hc|x' y' z' o' Hz' Hc]; subst;
    [now left | |];
    pose proof (registry_inj _ _ _ Hz Hz') as E; injection E as <- <-; auto.
Qed.

Lemma covers_mint_inv (x y i o : nat) :
  dict_get key_eq_dec R [x; y] = None ->
  covers (dict_set key_eq_dec R [x; y] anc) i o -> i < anc -> covers R i o.
Proof.
  intros Hn H. induction H as [i|x' y' z o Hz Hc IH|x' y' z o Hz Hc IH];
    intros Hi; [constructor | |];
    rewrite dict_get_set in Hz;
    (destruct (key_eq_dec [x'; y'] [x; y]); [injection Hz as <-; lia|]);
    destruct (registry_pair _ _ Hz) as (a & b & E & Hab & Hbz);
    injection E as <- <-.
  - eapply covers_left; [exact Hz | apply IH; lia].
  - eapply covers_right; [exact Hz | apply IH; lia].
Qed.
End Registry.

Lemma covers_extends (R R' : dict key nat) (i o : nat) :
  extends R R' -> covers R i o -> covers R' i o.
Proof.
  intros He. induction 1; eauto using covers.
Qed.

Lemma extends_refl (R : dict key nat) : extends R R.
Proof. now intros k z. Qed.

Lemma extends_trans (R1 R2 R3 : dict key nat) :
  extends R1 R2 -> extends R2 R3 -> extends R1 R3.
Proof. intros H1 H2 k z H. auto. Qed.

Lemma respects_extends (a : nat -> Qc) (R R' : dict key nat) :
  extends R R' -> respects a R' -> respects a R.
Proof. intros He Hr x y z H. apply Hr, He, H. Qed.

(** ** One reduction *)

Lemma constraint_value_zero (x y z : nat) (lam : Qc) (a : nat -> Qc) :
  x <> y -> x <> z -> y <> z -> boolean a -> a z = a x * a y ->
  value (_constraint_xy_eq_z x y z lam) a = 0.
Proof.
  intros Hxy Hxz Hyz Ha Hz.
  rewrite constraint_xy_eq_z_items by assumption. simpl. rewrite Hz.
  destruct (Ha x) as [-> | ->], (Ha y) as [-> | ->]; qc_field.
Qed.

Lemma constraint_keys_short (x y z : nat) (lam : Qc) :
  x <> y -> x <> z -> y <> z ->
  Forall (fun kv => (length (canonical BINARY (fst kv)) <= 2)%nat)
         (_constraint_xy_eq_z x y z lam).
Proof.
  intros Hxy Hxz Hyz. rewrite constraint_xy_eq_z_items by assumption.
  repeat (apply Forall_cons || apply Forall_nil);
    (etransitivity; [apply canonical_length | simpl; lia]).
Qed.

Section KeyStep.
Local Close Scope Qc_scope.
Variables (n anc : nat) (R : dict key nat) (k : key) (x y z : nat).
Hypothesis HR : wf_registry n anc R.
Hypothesis Hk : wf_key anc R k.
Hypothesis Hx : In x k.
Hypothesis Hy : In y k.
Hypothesis Hz : dict_get key_eq_dec R [x; y] = Some z.

Lemma ancilla_not_beside (j o : nat) :
  In j (without k x y) -> covers R z o -> covers R j o -> False.
Proof.
  intros Hj Hzo Hjo. apply In_without in Hj. destruct Hj as (Hj & Hjx & Hjy).
  destruct (covers_ancilla_inv n anc R HR x y z o Hz Hzo) as [-> | [Hc | Hc]].
  - apply Hjx. apply (key_disjoint _ _ _ Hk j x x); auto; [|constructor].
    eapply covers_trans; [exact Hjo|].
    eapply covers_left; [exact Hz | constructor].
  - apply Hjx. apply (key_disjoint _ _ _ Hk j x o); auto.
  - apply Hjy. apply (key_disjoint _ _ _ Hk j y o); auto.
Qed.

Lemma ancilla_not_in_rest : ~ In z (without k x y).
Proof.
  intros Hin. apply (ancilla_not_beside z z Hin); constructor.
Qed.

Lemma NoDup_reduced_key : NoDup (without k x y ++ [z]).
Proof.
  apply NoDup_app.
  - apply NoDup_without, StronglySorted_lt_NoDup, (key_sorted _ _ _ Hk).
  - repeat constructor. intros [].
  - intros i Hi [<-|[]]. now apply ancilla_not_in_rest.
Qed.

Lemma wf_key_step : wf_key anc R (sorted (without k x y ++ [z])).
Proof.
  pose proof (registry_value_bound n anc R HR _ _ Hz) as Hzb.
  assert (Hin : forall i, In i (sorted (without k x y ++ [z])) ->
                          In i (without k x y) \/ i = z).
  { intros i Hi. apply In_sorted, in_app_or in Hi.
    destruct Hi as [Hi|[<-|[]]]; auto. }
  constructor.
  - apply sorted_strict, NoDup_reduced_key.
  - apply Forall_forall. intros i Hi. destruct (Hin i Hi) as [Hi'| ->]; [|lia].
    apply In_without in Hi'. destruct Hi' as [Hi' _].
    pose proof (key_bound _ _ _ Hk) as Hb. rewrite Forall_forall in Hb. auto.
  - intros i j o Hi Hj Hio Hjo.
    destruct (Hin i Hi) as [Hi'| ->], (Hin j Hj) as [Hj'| ->]; auto.
    + apply (key_disjoint _ _ _ Hk i j o); auto;
        [apply In_without in Hi' | apply In_without in Hj']; tauto.
    + exfalso. eapply ancilla_not_beside; eauto.
    + exfalso. eapply ancilla_not_beside; eauto.
Qed.

Lemma length_reduced_key :
  x <> y -> length (sorted (without k x y ++ [z])) + 1 = length k.
Proof.
  intros Hxy. rewrite length_sorted, length_app. simpl.
  pose proof (length_without k x y
                (StronglySorted_lt_NoDup _ (key_sorted _ _ _ Hk)) Hx Hy Hxy).
  lia.
Qed.
End KeyStep.

Lemma wf_key_mint (n anc : nat) (R : dict key nat) (k : key) (x y : nat) :
  wf_registry n anc R -> wf_key anc R k ->
  dict_get key_eq_dec R [x; y] = None ->
  wf_key (S anc) (dict_set key_eq_dec R [x; y] anc) k.
Proof.
  intros HR [H1 H2 H3] Hn. rewrite Forall_forall in H2. constructor.
  - exact H1.
  - apply Forall_forall. intros i Hi. specialize (H2 i Hi). lia.
  - intros i j o Hi Hj Hio Hjo. apply (H3 i j o); auto;
      eapply covers_mint_inv; eauto.
Qed.

Lemma reduce_step_spec (n : nat) (lam : Qc -> Qc) (v : Qc) (k : key) (st : reducer) :
  wf_reducer n st -> wf_key (ancilla st) (reductions st) k ->
  (2 < length k)%nat ->
  exists x y z Q' anc' R',
    reduce_step lam v k st
    = Ok (sorted (without k x y ++ [z]), mkReducer Q' anc' R')
    /\ In x k /\ In y k /\ (x < y)%nat /\ (y < z)%nat
    /\ dict_get key_eq_dec R' [x; y] = Some z
    /\ extends (reductions st) R'
    /\ wf_reducer n (mkReducer Q' anc' R')
    /\ wf_key anc' R' (sorted (without k x y ++ [z]))
    /\ (length (sorted (without k x y ++ [z])) + 1 = length k)%nat
    /\ items Q' = accumulate (items (Q_ st))
                    (squashed BINARY (_constraint_xy_eq_z x y z (lam v))).
Proof.
  intros [Hc HR] Hk Hlen.
  assert (Hadd : forall x y z, (x < y)%nat -> (y < z)%nat ->
             iadd (Q_ st) (_constraint_xy_eq_z x y z (lam v))
             = Ok (mkPoly QUBOMatrix
                     (accumulate (items (Q_ st))
                        (squashed BINARY (_constraint_xy_eq_z x y z (lam v)))))).
  { intros x y z Hxy Hyz. rewrite iadd_accumulate; rewrite Hc; [reflexivity|].
    eapply Forall_impl; [|apply constraint_keys_short; lia]. simpl. auto. }
  unfold reduce_step.
  destruct (find_reduced (reductions st) k) as [[x y]|] eqn:Ef.
  - destruct (find_reduced_lt _ _ _ _ (key_sorted _ _ _ Hk) Ef) as (Hx & Hy & Hxy).
    apply find_reduced_Some in Ef. destruct Ef as (_ & _ & _ & _ & Hm).
    unfold dict_mem in Hm.
    destruct (dict_get key_eq_dec (reductions st) [x; y]) as [z|] eqn:Ez;
      [|discriminate].
    destruct (registry_pair _ _ _ HR _ _ Ez) as (x' & y' & E & _ & Hyz).
    injection E as <- <-.
    exists x, y, z, (mkPoly QUBOMatrix
                       (accumulate (items (Q_ st))
                          (squashed BINARY (_constraint_xy_eq_z x y z (lam v))))),
      (ancilla st), (reductions st).
    simpl. rewrite (Hadd x y z Hxy Hyz). simpl.
    repeat match goal with |- _ /\ _ => split end; auto using extends_refl.
    + now constructor.
    + eapply wf_key_step; eauto.
    + eapply length_reduced_key; eauto. lia.
  - destruct k as [|x [|y t]]; simpl in Hlen; try lia.
    pose proof (find_reduced_None _ _ _ _ Ef) as Hn.
    assert (Hxy : (x < y)%nat).
    { pose proof (key_sorted _ _ _ Hk) as Hs.
      inversion Hs as [|? ? _ Hf]; subst. now inversion Hf. }
    assert (Hy : (y < ancilla st)%nat).
    { pose proof (key_bound _ _ _ Hk) as Hb. rewrite Forall_forall in Hb.
      apply Hb. simpl. auto. }
    pose proof (wf_registry_mint _ _ _ HR x y Hn Hxy Hy) as HR'.
    pose proof (wf_key_mint _ _ _ _ x y HR Hk Hn) as Hk'.
    assert (Hz : dict_get key_eq_dec
                   (dict_set key_eq_dec (reductions st) [x; y] (ancilla st)) [x; y]
                 = Some (ancilla st)).
    { rewrite dict_get_set. destruct (key_eq_dec [x; y] [x; y]); congruence. }
    exists x, y, (ancilla st),
      (mkPoly QUBOMatrix
         (accumulate (items (Q_ st))
            (squashed BINARY (_constraint_xy_eq_z x y (ancilla st) (lam v))))),
      (S (ancilla st)),
      (dict_set key_eq_dec (reductions st) [x; y] (ancilla st)).
    cbn [bind Q_ ancilla reductions]. rewrite (Hadd x y (ancilla st) Hxy Hy).
    cbn [bind Q_ ancilla reductions items].
    repeat match goal with |- _ /\ _ => split end; auto.
    + now left.
    + right. now left.
    + now apply extends_mint.
    + now constructor.
    + eapply wf_key_step; eauto; simpl; auto.
    + eapply length_reduced_key; eauto; simpl; auto. lia.
Qed.

(** ** The [while] loop, one term, all terms *)

Lemma reduce_loop_short (fuel : nat) (lam : Qc -> Qc) (v : Qc) (k : key)
  (st : reducer) :
  (length k <= 2)%nat -> reduce_loop fuel lam v k st = Ok (k, st).
Proof.
  intros H. destruct fuel; simpl;
    destruct (Nat.ltb_spec 2 (length k)); try lia; reflexivity.
Qed.

Lemma reduce_loop_spec (n : nat) (lam : Qc -> Qc) (v : Qc) :
  forall (fuel : nat) (k : key) (st : reducer),
    wf_reducer n st -> wf_key (ancilla st) (reductions st) k ->
    (length k <= fuel + 2)%nat ->
    exists k' st',
      reduce_loop fuel lam v k st = Ok (k', st')
      /\ (length k' <= 2)%nat
      /\ wf_reducer n st'
      /\ extends (reductions st) (reductions st')
      /\ forall a, boolean a -> respects a (reductions st') ->
                   value (items (Q_ st')) a = value (items (Q_ st)) a
                   /\ mono a k' = mono a k.
Proof.
  induction fuel as [|fuel IH]; intros k st Hst Hk Hlen.
  - exists k, st. rewrite reduce_loop_short by lia.
    repeat match goal with |- _ /\ _ => split end;
      auto using extends_refl; lia.
  - destruct (Nat.ltb_spec 2 (length k)) as [Hlong|Hshort].
    + destruct (reduce_step_spec n lam v k st Hst Hk Hlong)
        as (x & y & z & Q' & anc' & R' & Hstep & Hx & Hy & Hxy & Hyz & Hz
            & Hext & Hst' & Hk' & Hlen' & HQ').
      destruct (IH _ _ Hst' Hk') as (k'' & st'' & Hloop & Hl2 & Hst'' & Hext' & Hval);
        [simpl; lia|].
      exists k'', st''. simpl in *.
      destruct (Nat.ltb_spec 2 (length k)); [|lia].
      rewrite Hstep. simpl. rewrite Hloop.
      repeat match goal with |- _ /\ _ => split end; auto.
      * eapply extends_trans; eauto.
      * intros a Ha Hr. destruct (Hval a Ha Hr) as [Hv Hm]. split.
        -- rewrite Hv, HQ'.
           rewrite value_accumulate, value_squashed by assumption.
           rewrite constraint_value_zero; try lia; try assumption; [ring|].
           apply Hr, Hext', Hz.
        -- rewrite Hm, mono_sorted, mono_app. simpl.
           rewrite (mono_without a x y k) by assumption.
           rewrite (Hr x y z) by (apply Hext', Hz). ring.
    + exists k, st. rewrite reduce_loop_short by lia.
      repeat match goal with |- _ /\ _ => split end;
        auto using extends_refl; lia.
Qed.

Section Mapping.
Local Close Scope Qc_scope.

Lemma index_of_nth (l : label) (ls : list label) (i : nat) :
  index_of l ls = Some i -> nth_error ls i = Some l.
Proof.
  revert i; induction ls as [|l' t IH]; simpl; intros i; [discriminate|].
  destruct (label_eq_dec l l') as [->|Hl].
  - now intros [= <-].
  - destruct (index_of l t) as [j|]; simpl; [|discriminate].
    intros [= <-]. now apply IH.
Qed.

Lemma mapM_mapping (self : pubo) (kp : list label) (mapped : list nat) :
  mapM (_mapping self) kp = Ok mapped -> NoDup kp ->
  NoDup mapped /\ Forall (fun i => i < num_binary_variables self) mapped.
Proof.
  revert mapped; induction kp as [|l t IH]; simpl; intros mapped H Hnd.
  - injection H as <-. split; constructor.
  - apply bind_inv in H. destruct H as (i & Hi & H).
    apply bind_inv in H. destruct H as (ys & Hys & H). injection H as <-.
    inversion Hnd as [|? ? Hnin Hnd']; subst.
    destruct (IH ys Hys Hnd') as [N B].
    unfold _mapping in Hi.
    destruct (index_of l (labels self)) as [i'|] eqn:Ei; [|discriminate].
    injection Hi as ->. apply index_of_nth in Ei.
    split; constructor; auto.
    + intros Hin. apply Hnin. clear -Hin Hys Ei.
      revert ys Hys Hin. induction t as [|l' t IH]; simpl; intros ys Hys Hin.
      * injection Hys as <-. destruct Hin.
      * apply bind_inv in Hys. destruct Hys as (j & Hj & Hys).
        apply bind_inv in Hys. destruct Hys as (ys' & Hys' & Hys).
        injection Hys as <-. destruct Hin as [->|Hin].
        -- left. unfold _mapping in Hj.
           destruct (index_of l' (labels self)) eqn:Ej; [|discriminate].
           injection Hj as ->. apply index_of_nth in Ej. congruence.
        -- right. eapply IH; eauto.
    + unfold num_binary_variables. apply nth_error_Some. congruence.
Qed.

Lemma wf_key_initial (n anc : nat) (R : dict key nat) (mapped : list nat) :
  wf_registry n anc R -> NoDup mapped -> Forall (fun i => i < n) mapped ->
  wf_key anc R (sorted mapped).
Proof.
  intros HR Hnd Hb. rewrite Forall_forall in Hb.
  assert (Hin : forall i, In i (sorted mapped) -> i < n)
    by (intros i Hi; apply Hb, In_sorted, Hi).
  constructor.
  - now apply sorted_strict.
  - apply Forall_forall. intros i Hi. specialize (Hin i Hi).
    rewrite (reg_next _ _ _ HR). lia.
  - intros i j o Hi Hj Hio Hjo.
    apply (covers_original n anc R HR) in Hio, Hjo; auto. congruence.
Qed.
End Mapping.

Lemma to_qubo_term_inv (self : pubo) (lam : Qc -> Qc) (st st' : reducer)
  (kp : list label) (v : Qc) :
  to_qubo_term self lam st (kp, v) = Ok st' ->
  exists mapped, mapM (_mapping self) kp = Ok mapped
                 /\ dict_get key_eq_dec (reductions st) (sorted mapped) = None.
Proof.
  unfold to_qubo_term. intros H.
  apply bind_inv in H. destruct H as (mapped & Hm & H).
  exists mapped. split; [exact Hm|].
  destruct (dict_get key_eq_dec (reductions st) (sorted mapped)); [|reflexivity].
  rewrite iadd_item_Int in H. discriminate.
Qed.

Lemma to_qubo_term_spec (self : pubo) (lam : Qc -> Qc) (st : reducer)
  (kp : list label) (v : Qc) (mapped : list nat) :
  wf_reducer (num_binary_variables self) st -> NoDup kp ->
  mapM (_mapping self) kp = Ok mapped ->
  dict_get key_eq_dec (reductions st) (sorted mapped) = None ->
  exists st',
    to_qubo_term self lam st (kp, v) = Ok st'
    /\ wf_reducer (num_binary_variables self) st'
    /\ extends (reductions st) (reductions st')
    /\ ((length mapped <= 2)%nat ->
        st' = mkReducer (mkPoly QUBOMatrix (acc_at (items (Q_ st)) (sorted mapped) v))
                        (ancilla st) (reductions st))
    /\ forall a, boolean a -> respects a (reductions st') ->
                 value (items (Q_ st')) a = value (items (Q_ st)) a + v * mono a mapped.
Proof.
  intros Hst Hnd Hm Hn.
  destruct (mapM_mapping self kp mapped Hm Hnd) as [Hnd' Hb].
  pose proof (wf_key_initial _ _ _ mapped (red_registry _ _ Hst) Hnd' Hb) as Hk.
  destruct (reduce_loop_spec (num_binary_variables self) lam v
              (length (sorted mapped)) (sorted mapped) st Hst Hk)
    as (k' & st' & Hloop & Hl2 & Hst' & Hext & Hval); [lia|].
  assert (Hsq : squash_key QUBOMatrix (Tup k') = Ok (canonical BINARY k')).
  { rewrite squash_key_Tup. simpl algebra_of. simpl bounded_degree.
    pose proof (canonical_length BINARY k').
    destruct (Nat.ltb_spec 2 (length (canonical BINARY k'))); [lia | reflexivity]. }
  exists (mkReducer (mkPoly QUBOMatrix (acc_at (items (Q_ st')) (canonical BINARY k') v))
            (ancilla st') (reductions st')).
  unfold to_qubo_term. rewrite Hm. cbn [bind]. rewrite Hn, Hloop. cbn [bind].
  rewrite iadd_item_unfold, (red_cls _ _ Hst'), Hsq. cbn [bind].
  repeat match goal with |- _ /\ _ => split end; auto.
  - destruct Hst'. now constructor.
  - intros Hshort. rewrite reduce_loop_short in Hloop
      by (rewrite length_sorted; exact Hshort).
    injection Hloop as <- <-.
    rewrite canonical_fixed by (apply sorted_strict, Hnd'). reflexivity.
  - intros a Ha Hr. cbn [Q_ items reductions] in *.
    destruct (Hval a Ha Hr) as [Hv Hmono].
    rewrite value_acc_at, mono_canonical, Hv, Hmono, mono_sorted by assumption.
    reflexivity.
Qed.

Lemma to_qubo_fold (self : pubo) (lam : Qc -> Qc) :
  forall (ts : dict (list label) Qc) (st st' : reducer),
    wf_reducer (num_binary_variables self) st ->
    (forall kp v, In (kp, v) ts -> NoDup kp) ->
    foldM (to_qubo_term self lam) ts st = Ok st' ->
    wf_reducer (num_binary_variables self) st'
    /\ extends (reductions st) (reductions st')
    /\ exists l, mapped_terms self ts = Ok l
                 /\ forall a, boolean a -> respects a (reductions st') ->
                              value (items (Q_ st')) a
                              = value (items (Q_ st)) a + value l a.
Proof.
  induction ts as [|[kp v] t IH]; intros st st' Hst Hnd H; cbn [foldM] in H.
  - injection H as <-. split; [exact Hst|]. split; [apply extends_refl|].
    exists []. split; [reflexivity|]. intros. simpl. ring.
  - apply bind_inv in H. destruct H as (st1 & H1 & H2).
    destruct (to_qubo_term_inv _ _ _ _ _ _ H1) as (mapped & Hm & Hn).
    destruct (to_qubo_term_spec self lam st kp v mapped Hst) as
      (st1' & H1' & Hst1 & Hext1 & _ & Hval1); auto.
    { apply (Hnd kp v). now left. }
    rewrite H1 in H1'. injection H1' as <-.
    destruct (IH st1 st' Hst1) as (Hst' & Hext' & l & Hl & Hval); auto.
    { intros kp' v' Hin. apply (Hnd kp' v'). now right. }
    split; [exact Hst'|]. split; [eapply extends_trans; eauto|].
    exists ((mapped, v) :: l). cbn [mapped_terms]. rewrite Hm, Hl.
    split; [reflexivity|].
    intros a Ha Hr. simpl.
    rewrite (Hval a Ha Hr), (Hval1 a Ha (respects_extends _ _ _ Hext' Hr)). ring.
Qed.

Lemma wf_reducer_init (self : pubo) :
  wf_reducer (num_binary_variables self) (to_qubo_init self).
Proof.
  constructor; [reflexivity|]. constructor; simpl; auto; constructor.
Qed.

(** ** [to_pubo] and the soundness of [to_qubo] *)

Lemma mapM_mapping_bound (self : pubo) (kp : list label) (mapped : list nat) :
  mapM (_mapping self) kp = Ok mapped ->
  forall i, In i mapped -> (i < num_binary_variables self)%nat.
Proof.
  revert mapped; induction kp as [|l t IH]; simpl; intros mapped H i Hi.
  - injection H as <-. destruct Hi.
  - apply bind_inv in H. destruct H as (j & Hj & H).
    apply bind_inv in H. destruct H as (ys & Hys & H). injection H as <-.
    destruct Hi as [<-|Hi]; [|eauto].
    unfold _mapping in Hj.
    destruct (index_of l (labels self)) as [j'|] eqn:Ej; [|discriminate].
    injection Hj as ->. apply index_of_nth in Ej.
    unfold num_binary_variables. apply nth_error_Some. congruence.
Qed.

Lemma mapped_terms_bound (self : pubo) (ts : dict (list label) Qc)
  (l : list (key * Qc)) :
  mapped_terms self ts = Ok l ->
  forall k v i, In (k, v) l -> In i k -> (i < num_binary_variables self)%nat.
Proof.
  revert l; induction ts as [|[kp v] t IH]; simpl; intros l H k w i Hin Hi.
  - injection H as <-. destruct Hin.
  - apply bind_inv in H. destruct H as (key & Hkey & H).
    apply bind_inv in H. destruct H as (rest & Hrest & H). injection H as <-.
    destruct Hin as [E|Hin]; [|eauto].
    injection E as <- <-. eapply mapM_mapping_bound; eauto.
Qed.

Lemma to_pubo_fold (self : pubo) :
  forall (ts : dict (list label) Qc) (l : list (key * Qc)) (d : poly_dict),
    mapped_terms self ts = Ok l ->
    foldM (fun P '(k, v) => key <- mapM (_mapping self) k ;; iadd_item P (Tup key) v)
          ts (mkPoly PUBOMatrix d)
    = Ok (mkPoly PUBOMatrix (accumulate d (squashed BINARY l))).
Proof.
  induction ts as [|[kp v] t IH]; simpl; intros l d H.
  - now injection H as <-.
  - apply bind_inv in H. destruct H as (key & Hkey & H).
    apply bind_inv in H. destruct H as (rest & Hrest & H). injection H as <-.
    rewrite Hkey. cbn [bind]. rewrite iadd_item_unfold. simpl.
    now rewrite (IH rest).
Qed.

Lemma In_canonical (alg : algebra) (k : key) (i : nat) :
  In i (canonical alg k) -> In i k.
Proof.
  destruct alg; simpl; intros H; apply (proj1 (In_sorted _ _)) in H.
  - now apply (proj1 (nodup_In _ _ _)) in H.
  - apply filter_In in H. destruct H as [H _].
    now apply (proj1 (nodup_In _ _ _)) in H.
Qed.

Lemma doc_pubo_keys (kp : list label) (v : Qc) :
  In (kp, v) (terms doc_pubo) -> NoDup kp.
Proof.
  simpl. intros [E|[E|[E|[]]]]; injection E as <- _;
    repeat constructor; simpl; intuition discriminate.
Qed.


(** ** Terms of degree at most 2 *)

(** A term whose key is a registered pair makes [to_qubo] raise: the
    subscript of [Q] is then the ancilla's index, not a tuple. *)
Lemma to_qubo_term_registered (self : pubo) (lam : Qc -> Qc) (st : reducer)
  (kp : list label) (v : Qc) (mapped : list nat) (z : nat) :
  mapM (_mapping self) kp = Ok mapped ->
  dict_get key_eq_dec (reductions st) (sorted mapped) = Some z ->
  to_qubo_term self lam st (kp, v) = Raise InvalidKey.
Proof.
  intros Hm Hz. unfold to_qubo_term. rewrite Hm. cbn [bind]. now rewrite Hz.
Qed.

Lemma mapM_mapping_known (self : pubo) (kp : list label) :
  (forall l, In l kp -> In l (labels self)) ->
  exists mapped, mapM (_mapping self) kp = Ok mapped.
Proof.
  induction kp as [|l kp IHk]; intros Hin; simpl; [eauto|].
  destruct IHk as (ys & Hys); [intros; apply Hin; now right|].
  unfold _mapping at 1.
  destruct (index_of l (labels self)) as [i|] eqn:Ei.
  - rewrite Hys. simpl. eauto.
  - exfalso. assert (Hl' : In l (labels self)) by (apply Hin; now left).
    clear -Ei Hl'. induction (labels self) as [|l' ls IHl]; simpl in *; [tauto|].
    destruct (label_eq_dec l l'); [discriminate|].
    destruct (index_of l ls); [discriminate|].
    destruct Hl' as [->|Hl']; [congruence | auto].
Qed.


(** C2, as the code has it.  A term whose sorted key [K] has length at most 2
    and is not, at that moment, a key of the registry of reductions is added
    at [K] itself: processing it does not raise, the coefficient at [K] grows
    by [v], every other coefficient is unchanged, and so are the registry and
    the ancilla counter. *)
Theorem to_qubo_term_short_key (self : pubo) (lam : Qc -> Qc) (st : reducer)
  (kp : list label) (v : Qc) (mapped : list nat) :
  cls (Q_ st) = QUBOMatrix -> NoDup (keys (items (Q_ st))) ->
  NoDup kp -> mapM (_mapping self) kp = Ok mapped ->
  (length mapped <= 2)%nat ->
  dict_get key_eq_dec (reductions st) (sorted mapped) = None ->
  exists Q',
    to_qubo_term self lam st (kp, v)
    = Ok (mkReducer Q' (ancilla st) (reductions st))
    /\ cls Q' = QUBOMatrix
    /\ get0 (items Q') (sorted mapped) = get0 (items (Q_ st)) (sorted mapped) + v
    /\ forall m, m <> sorted mapped -> get0 (items Q') m = get0 (items (Q_ st)) m.
Proof.
  intros Hc HQ Hnd Hm Hlen Hn.
  destruct (mapM_mapping self kp mapped Hm Hnd) as [Hnd' _].
  exists (mkPoly QUBOMatrix (acc_at (items (Q_ st)) (sorted mapped) v)).
  split; [|split; [reflexivity|split]].
  - unfold to_qubo_term. rewrite Hm. cbn [bind]. rewrite Hn.
    rewrite reduce_loop_short by (rewrite length_sorted; exact Hlen).
    cbn [bind]. rewrite iadd_item_unfold, Hc, squash_key_okkey; [reflexivity|].
    split; [now apply sorted_strict | rewrite length_sorted; auto].
  - simpl. rewrite get0_acc_at by assumption.
    destruct (key_eq_dec (sorted mapped) (sorted mapped)); congruence.
  - intros m Hne. simpl. rewrite get0_acc_at by assumption.
    destruct (key_eq_dec (sorted mapped) m); [congruence | ring].
Qed.

Lemma to_qubo_term_short_key_example :
  exists Q',
    to_qubo_term doc_pubo default_lam (to_qubo_init doc_pubo)
      ([LStr "a"%string], five)
    = Ok (mkReducer Q' (ancilla (to_qubo_init doc_pubo))
            (reductions (to_qubo_init doc_pubo)))
    /\ cls Q' = QUBOMatrix
    /\ get0 (items Q') (sorted [0%nat])
       = get0 (items (Q_ (to_qubo_init doc_pubo))) (sorted [0%nat]) + five
    /\ forall m, m <> sorted [0%nat] ->
                 get0 (items Q') m = get0 (items (Q_ (to_qubo_init doc_pubo))) m.
Proof.
  apply (to_qubo_term_short_key doc_pubo default_lam (to_qubo_init doc_pubo)
           [LStr "a"%string] five [0%nat]).
  - reflexivity.
  - simpl. constructor.
  - repeat constructor. simpl. tauto.
  - reflexivity.
  - simpl. lia.
  - reflexivity.
Defined.

(** C2 as stated fails: in [PUBO({(0, 1, 2): 1, (0, 1): 1})] the first term
    registers the pair [(0, 1)] with the ancilla 3; the second term then has
    the key [(0, 1)], of length 2, and processing it raises; so does
    [to_qubo]. *)
Lemma to_qubo_pair_after_cubic :
  exists st,
    foldM (to_qubo_term pair_after_cubic default_lam)
          [([LInt 0; LInt 1; LInt 2], 1)] (to_qubo_init pair_after_cubic) = Ok st
    /\ reductions st = [([0; 1]%nat, 3%nat)]
    /\ mapM (_mapping pair_after_cubic) [LInt 0; LInt 1] = Ok [0; 1]%nat
    /\ (length (sorted [0; 1]%nat) <= 2)%nat
    /\ to_qubo_term pair_after_cubic default_lam st ([LInt 0; LInt 1], 1)
       = Raise InvalidKey
    /\ to_qubo pair_after_cubic None = Raise InvalidKey.
Proof.
  destruct (foldM (to_qubo_term pair_after_cubic default_lam)
              [([LInt 0; LInt 1; LInt 2], 1)] (to_qubo_init pair_after_cubic))
    as [st|e] eqn:Hrun; [|vm_compute in Hrun; discriminate Hrun].
  assert (HR : reductions st = [([0; 1]%nat, 3%nat)])
    by (vm_compute in Hrun; injection Hrun as <-; reflexivity).
  exists st. split; [reflexivity|]. split; [exact HR|].
  split; [reflexivity|]. split; [simpl; lia|]. split.
  - apply (to_qubo_term_registered _ _ _ _ _ [0; 1]%nat 3%nat); [reflexivity|].
    now rewrite HR.
  - unfold to_qubo, to_qubo_run. change (terms pair_after_cubic) with
      ([([LInt 0; LInt 1; LInt 2], 1)] ++ [([LInt 0; LInt 1], 1)]).
    rewrite foldM_app. fold (to_qubo_init pair_after_cubic). rewrite Hrun.
    cbn [bind foldM].
    rewrite (to_qubo_term_registered _ _ _ _ _ [0; 1]%nat 3%nat);
      [reflexivity | reflexivity | now rewrite HR].
Qed.

(** ** The ancilla registry *)

(** One turn of the loop either reuses a registered pair of the key or, no
    pair of the key being registered, mints. *)
Lemma reduce_step_registry (lam : Qc -> Qc) (v : Qc) (k k' : key)
  (st st' : reducer) :
  reduce_step lam v k st = Ok (k', st') ->
  step_reuses k k' st st' \/ step_mints k k' st st'.
Proof.
  unfold reduce_step. intros H.
  apply bind_inv in H. destruct H as ([[[[x y] z] R'] anc'] & Hsel & H).
  apply bind_inv in H. destruct H as (Q' & _ & H). injection H as <- <-.
  destruct (find_reduced (reductions st) k) as [[x0 y0]|] eqn:Ef.
  - destruct (dict_get key_eq_dec (reductions st) [x0; y0]) as [z0|] eqn:Ez;
      [|discriminate].
    injection Hsel as <- <- <- <- <-. left. exists x0, y0, z0.
    apply find_reduced_Some in Ef. destruct Ef as (l1 & l2 & -> & Hy & _).
    cbn [reductions ancilla].
    repeat match goal with |- _ /\ _ => split end; auto;
      apply in_or_app; right; simpl; auto.
  - destruct k as [|x0 [|y0 t]]; try discriminate.
    pose proof (find_reduced_None _ _ _ _ Ef) as Hn.
    injection Hsel as <- <- <- <- <-. right. exists x0, y0, t.
    cbn [reductions ancilla].
    rewrite (dict_set_fresh key_eq_dec) by exact Hn.
    repeat match goal with |- _ /\ _ => split end; auto.
    now apply find_reduced_None_all.
Qed.

(** C8.  In any run of [to_qubo] over terms with pairwise distinct labels,
    after any number of terms ([ts1], then [ts2]): the registry holds one
    binding per key; its keys are pairs [x < y], so that an unordered pair of
    indices is bound to at most one ancilla; the ancillas are, in the order of
    registration, [n, n+1, ...] from the original variable count [n], and the
    counter is the next one; a binding made while processing [ts1] is still
    the same after [ts2]; and every turn of the loop either uses the ancilla
    registered for a pair of the key, leaving the registry and the counter as
    they are, or, no pair of the key being registered, registers its first
    two elements with the counter as ancilla and advances the counter. *)
Theorem to_qubo_registry (self : pubo) (lam : Qc -> Qc)
  (ts1 ts2 : dict (list label) Qc) (st2 : reducer) :
  (forall kp v, In (kp, v) (ts1 ++ ts2) -> NoDup kp) ->
  foldM (to_qubo_term self lam) (ts1 ++ ts2) (to_qubo_init self) = Ok st2 ->
  exists st1,
    foldM (to_qubo_term self lam) ts1 (to_qubo_init self) = Ok st1
    /\ NoDup (keys (reductions st2))
    /\ map snd (reductions st2)
       = seq (num_binary_variables self) (length (reductions st2))
    /\ ancilla st2 = (num_binary_variables self + length (reductions st2))%nat
    /\ (forall x y z z',
           dict_get key_eq_dec (reductions st2) [x; y] = Some z
           \/ dict_get key_eq_dec (reductions st2) [y; x] = Some z ->
           dict_get key_eq_dec (reductions st2) [x; y] = Some z'
           \/ dict_get key_eq_dec (reductions st2) [y; x] = Some z' ->
           z = z')
    /\ (forall p z, dict_get key_eq_dec (reductions st1) p = Some z ->
                    dict_get key_eq_dec (reductions st2) p = Some z)
    /\ (forall v k k' st st',
           reduce_step lam v k st = Ok (k', st') ->
           step_reuses k k' st st' \/ step_mints k k' st st').
Proof.
  intros Hnd Hrun. rewrite foldM_app in Hrun.
  apply bind_inv in Hrun. destruct Hrun as (st1 & H1 & H2).
  destruct (to_qubo_fold self lam ts1 _ st1 (wf_reducer_init self)) as (Hst1 & _);
    [intros kp v Hin; apply (Hnd kp v), in_or_app; now left | exact H1 |].
  destruct (to_qubo_fold self lam ts2 st1 st2 Hst1) as (Hst2 & Hext & _);
    [intros kp v Hin; apply (Hnd kp v), in_or_app; now right | exact H2 |].
  destruct Hst2 as [_ HR]. pose proof HR as [R1 R2 R3 R4].
  exists st1. repeat match goal with |- _ /\ _ => split end; auto.
  - intros x y z z' Hz Hz'.
    assert (Hlt : forall a b c, dict_get key_eq_dec (reductions st2) [a; b] = Some c ->
                                (a < b)%nat).
    { intros a b c Hc.
      destruct (registry_pair _ _ _ HR _ _ Hc) as (a' & b' & E & Hab & _).
      now injection E as <- <-. }
    destruct Hz as [Hz|Hz], Hz' as [Hz'|Hz']; try congruence;
      apply Hlt in Hz, Hz'; lia.
  - intros v k k' st st'. apply reduce_step_registry.
Qed.

Lemma to_qubo_registry_example :
  exists st1,
    foldM (to_qubo_term doc_pubo default_lam) [([LStr "a"%string], five)]
          (to_qubo_init doc_pubo) = Ok st1
    /\ exists st2,
        foldM (to_qubo_term doc_pubo default_lam) (terms doc_pubo)
              (to_qubo_init doc_pubo) = Ok st2
        /\ reductions st2 = [([0; 1]%nat, 3%nat)]
        /\ ancilla st2 = 4%nat.
Proof.
  destruct (foldM (to_qubo_term doc_pubo default_lam) (terms doc_pubo)
              (to_qubo_init doc_pubo)) as [st2|e] eqn:Hrun;
    [|vm_compute in Hrun; discriminate Hrun].
  destruct (to_qubo_registry doc_pubo default_lam
              [([LStr "a"%string], five)]
              [([LStr "a"%string; LInt 0; LInt 1], - two); ([], - (three / two))]
              st2 doc_pubo_keys Hrun) as (st1 & H1 & _).
  exists st1. split; [exact H1|]. exists st2. split; [reflexivity|].
  vm_compute in Hrun. injection Hrun as <-. split; reflexivity.
Defined.

(** ** The documented example, with a symbolic weight *)

Lemma reduce_loop_unfold (fuel : nat) (lam : Qc -> Qc) (v : Qc) (k : key)
  (st : reducer) :
  (2 < length k)%nat ->
  reduce_loop (S fuel) lam v k st
  = ('(k', st') <- reduce_step lam v k st ;; reduce_loop fuel lam v k' st').
Proof.
  intros H. cbn [reduce_loop].
  destruct (Nat.ltb_spec 2 (length k)); [reflexivity | lia].
Qed.

Lemma reduce_step_mint (lam : Qc -> Qc) (v : Qc) (x y : nat) (t : list nat)
  (st : reducer) :
  cls (Q_ st) = QUBOMatrix ->
  find_reduced (reductions st) (x :: y :: t) = None ->
  (x < y)%nat -> (y < ancilla st)%nat ->
  reduce_step lam v (x :: y :: t) st
  = Ok (sorted (without (x :: y :: t) x y ++ [ancilla st]),
        mkReducer
          (mkPoly QUBOMatrix
             (accumulate (items (Q_ st))
                (squashed BINARY (_constraint_xy_eq_z x y (ancilla st) (lam v)))))
          (S (ancilla st))
          (dict_set key_eq_dec (reductions st) [x; y] (ancilla st))).
Proof.
  intros Hc Hf Hxy Hy. unfold reduce_step. rewrite Hf. cbn [bind].
  rewrite iadd_accumulate; rewrite Hc; [reflexivity|].
  eapply Forall_impl; [|apply constraint_keys_short; lia]. simpl. auto.
Qed.

Lemma to_qubo_term_unfold (self : pubo) (lam : Qc -> Qc) (st st' : reducer)
  (kp : list label) (v : Qc) (mapped : list nat) (k : key) :
  mapM (_mapping self) kp = Ok mapped ->
  dict_get key_eq_dec (reductions st) (sorted mapped) = None ->
  reduce_loop (length (sorted mapped)) lam v (sorted mapped) st = Ok (k, st') ->
  cls (Q_ st') = QUBOMatrix -> StronglySorted lt k -> (length k <= 2)%nat ->
  to_qubo_term self lam st (kp, v)
  = Ok (mkReducer (mkPoly QUBOMatrix (acc_at (items (Q_ st')) k v))
                  (ancilla st') (reductions st')).
Proof.
  intros Hm Hn Hloop Hc Hs Hlen. unfold to_qubo_term.
  rewrite Hm. cbn [bind]. rewrite Hn, Hloop. cbn [bind].
  rewrite iadd_item_unfold, Hc, squash_key_okkey; [reflexivity|].
  split; auto.
Qed.

Lemma doc_pubo_run (lam : Qc -> Qc) :
  to_qubo_run doc_pubo lam
  = Ok (mkReducer
          (mkPoly QUBOMatrix
             (acc_at
                (acc_at
                   (accumulate (acc_at [] [0%nat] five)
                      (squashed BINARY (_constraint_xy_eq_z 0 1 3 (lam (- two)))))
                   [2; 3]%nat (- two))
                [] (- (three / two))))
          4 [([0; 1]%nat, 3%nat)]).
Proof.
  set (st1 := mkReducer (mkPoly QUBOMatrix (acc_at [] [0%nat] five)) 3 []).
  set (st2 := mkReducer
                (mkPoly QUBOMatrix
                   (accumulate (acc_at [] [0%nat] five)
                      (squashed BINARY (_constraint_xy_eq_z 0 1 3 (lam (- two))))))
                4 [([0; 1]%nat, 3%nat)]).
  assert (T1 : to_qubo_term doc_pubo lam (to_qubo_init doc_pubo)
                 ([LStr "a"%string], five) = Ok st1).
  { apply (to_qubo_term_unfold doc_pubo lam (to_qubo_init doc_pubo)
             (to_qubo_init doc_pubo) [LStr "a"%string] five
             [0%nat] [0%nat] eq_refl eq_refl eq_refl eq_refl);
      [repeat constructor | simpl; lia]. }
  assert (T2 : to_qubo_term doc_pubo lam st1
                 ([LStr "a"%string; LInt 0; LInt 1], - two)
               = Ok (mkReducer (mkPoly QUBOMatrix
                                  (acc_at (items (Q_ st2)) [2; 3]%nat (- two)))
                       4 [([0; 1]%nat, 3%nat)])).
  { apply (to_qubo_term_unfold doc_pubo lam st1 st2
             [LStr "a"%string; LInt 0; LInt 1] (- two)
             [0; 1; 2]%nat [2; 3]%nat eq_refl eq_refl);
      [| reflexivity | repeat constructor | simpl; lia].
    change (length (sorted [0; 1; 2]%nat)) with 3%nat.
    change (sorted [0; 1; 2]%nat) with [0; 1; 2]%nat.
    rewrite reduce_loop_unfold by (simpl; lia).
    rewrite reduce_step_mint; [|reflexivity|reflexivity|simpl; lia|simpl; lia].
    cbn [bind]. apply reduce_loop_short. simpl. lia. }
  unfold to_qubo_run. fold (to_qubo_init doc_pubo).
  change (terms doc_pubo) with
    [ ([LStr "a"%string], five);
      ([LStr "a"%string; LInt 0; LInt 1], - two);
      ([], - (three / two)) ].
  cbn [foldM]. rewrite T1. cbn [bind]. rewrite T2. cbn [bind].
  set (st3 := mkReducer _ 4%nat _).
  rewrite (to_qubo_term_unfold doc_pubo lam st3 st3 [] (- (three / two))
             [] [] eq_refl eq_refl eq_refl eq_refl);
    [reflexivity | constructor | simpl; lia].
Qed.

Lemma of_bits_boolean (s : nat -> Z) : bits s -> boolean (of_bits s).
Proof.
  intros Hs i. unfold of_bits. destruct (Hs i) as [-> | ->]; [left | right];
    apply Qc_is_canon; reflexivity.
Qed.

Lemma doc_qubo_value (lam : Qc -> Qc) (st : reducer) (a : nat -> Qc) :
  to_qubo_run doc_pubo lam = Ok st -> boolean a ->
  value (items (Q_ st)) a = doc_qubo_poly (lam (- two)) a.
Proof.
  rewrite doc_pubo_run. intros H Ha. apply Ok_inj in H. subst st. cbn [Q_ items].
  rewrite !value_acc_at, value_accumulate, value_acc_at, value_squashed by assumption.
  rewrite constraint_xy_eq_z_items by lia.
  unfold doc_qubo_poly. cbn [value mono]. qc_field.
Qed.

(** Over the bits, with a weight above 2, the quadratic polynomial is at
    least -3/2, and is -3/2 only where ['a'] and the ancilla are 0. *)
Lemma doc_qubo_lower (L : Qc) (a : nat -> Qc) :
  two < L ->
  (a 0%nat = 0 \/ a 0%nat = 1) -> (a 1%nat = 0 \/ a 1%nat = 1) ->
  (a 2%nat = 0 \/ a 2%nat = 1) -> (a 3%nat = 0 \/ a 3%nat = 1) ->
  - (three / two) <= doc_qubo_poly L a
  /\ (doc_qubo_poly L a <= - (three / two) -> a 0%nat = 0 /\ a 3%nat = 0).
Proof.
  intros HL H0 H1 H2 H3. unfold doc_qubo_poly.
  destruct H0 as [-> | ->], H1 as [-> | ->], H2 as [-> | ->], H3 as [-> | ->];
    (split; [qc_lra | intros H; first [ split; reflexivity | exfalso; qc_lra ]]).
Qed.

Lemma doc_pubo_mapped :
  mapped_terms doc_pubo (terms doc_pubo)
  = Ok [([0%nat], five); ([0; 1; 2]%nat, - two); ([], - (three / two))].
Proof. reflexivity. Qed.

Lemma doc_pubo_value (a : nat -> Qc) :
  boolean a ->
  exists P, to_pubo doc_pubo = Ok P
            /\ value (items P) a
               = five * a 0%nat - two * (a 0%nat * a 1%nat * a 2%nat) - three / two.
Proof.
  intros Ha. eexists. split; [apply to_pubo_fold, doc_pubo_mapped|].
  cbn [items]. rewrite value_accumulate, value_squashed by assumption.
  cbn [value mono]. qc_field.
Qed.

Lemma convert_solution_doc (s : nat -> Z) :
  bits s ->
  convert_solution doc_pubo (full s)
  = Ok [(LStr "a"%string, s 0%nat); (LInt 0, s 1%nat); (LInt 1, s 2%nat)].
Proof.
  intros Hs. unfold convert_solution, full. simpl.
  destruct (Hs 0%nat) as [-> | ->], (Hs 1%nat) as [-> | ->],
    (Hs 2%nat) as [-> | ->]; reflexivity.
Qed.

Lemma bits_zero : bits (fun _ => 0%Z).
Proof. intros i. now left. Qed.

Lemma of_bits_cases (s : nat -> Z) (i : nat) :
  bits s -> of_bits s i = 0 \/ of_bits s i = 1.
Proof. intros Hs. apply (of_bits_boolean s Hs). Qed.

Lemma of_bits_zero (s : nat -> Z) (i : nat) :
  bits s -> of_bits s i = 0 -> s i = 0%Z.
Proof.
  intros Hs. unfold of_bits. destruct (Hs i) as [-> | ->]; [reflexivity|].
  intros H. discriminate H.
Qed.

Lemma doc_qubo_poly_zero (L : Qc) (a : nat -> Qc) :
  a 0%nat = 0 -> a 3%nat = 0 -> doc_qubo_poly L a = - (three / two).
Proof. intros H0 H3. unfold doc_qubo_poly. rewrite H0, H3. qc_field. Qed.

(** With a weight above 2, the minimizers of the quadratic polynomial are
    the bit assignments in which ['a'] and the ancilla are 0. *)
Lemma doc_qubo_minimizers (lam : Qc -> Qc) (st : reducer) (s : nat -> Z) :
  two < lam (- two) -> to_qubo_run doc_pubo lam = Ok st ->
  (minimizes (items (Q_ st)) s <-> bits s /\ s 0%nat = 0%Z /\ s 3%nat = 0%Z).
Proof.
  intros HL Hrun.
  assert (Hv : forall s', bits s' ->
                 value (items (Q_ st)) (of_bits s')
                 = doc_qubo_poly (lam (- two)) (of_bits s'))
    by (intros s' Hs'; apply doc_qubo_value; auto using of_bits_boolean).
  assert (Hlow : forall s', bits s' ->
                   - (three / two) <= doc_qubo_poly (lam (- two)) (of_bits s')
                   /\ (doc_qubo_poly (lam (- two)) (of_bits s') <= - (three / two) ->
                       of_bits s' 0%nat = 0 /\ of_bits s' 3%nat = 0))
    by (intros s' Hs'; apply doc_qubo_lower; auto using of_bits_cases).
  split.
  - intros [Hs Hmin]. split; [exact Hs|].
    specialize (Hmin _ bits_zero). rewrite !Hv in Hmin by auto using bits_zero.
    destruct (Hlow s Hs) as [_ Hz].
    destruct Hz as [H0 H3]; [|split; apply of_bits_zero; auto].
    eapply Qcle_trans; [exact Hmin|].
    rewrite doc_qubo_poly_zero by reflexivity. apply Qcle_refl.
  - intros (Hs & H0 & H3). split; [exact Hs|]. intros s' Hs'.
    rewrite !Hv by assumption.
    eapply Qcle_trans; [|apply (Hlow s' Hs')].
    rewrite doc_qubo_poly_zero; [apply Qcle_refl | |];
      unfold of_bits; [rewrite H0 | rewrite H3]; reflexivity.
Qed.

Lemma convert_solution_ext (self : pubo) (sol sol' : solution) :
  (forall i, (i < num_binary_variables self)%nat -> sol' i = sol i) ->
  convert_solution self sol' = convert_solution self sol.
Proof.
  intros Hagree. unfold convert_solution.
  apply foldM_ext_in. intros acc i Hi. apply in_seq in Hi.
  rewrite Hagree by lia. reflexivity.
Qed.

Lemma doc_pubo_minimizes (s : nat -> Z) :
  bits s -> s 0%nat = 0%Z ->
  exists P, to_pubo doc_pubo = Ok P /\ minimizes (items P) s.
Proof.
  intros Hs H0.
  destruct (doc_pubo_value (of_bits s) (of_bits_boolean s Hs)) as (P & HP & Hv).
  exists P. split; [exact HP|]. split; [exact Hs|]. intros s' Hs'.
  destruct (doc_pubo_value (of_bits s') (of_bits_boolean s' Hs')) as (P' & HP' & Hv').
  rewrite HP in HP'. apply Ok_inj in HP'. subst P'. rewrite Hv, Hv'.
  unfold of_bits at 1 2 3. rewrite H0. change (Q2Qc (inject_Z 0)) with (Q2Qc 0).
  destruct (of_bits_cases s' 0%nat Hs') as [-> | ->],
    (of_bits_cases s' 1%nat Hs') as [-> | ->],
    (of_bits_cases s' 2%nat Hs') as [-> | ->];
    generalize (Q2Qc (inject_Z (s 1%nat))) (Q2Qc (inject_Z (s 2%nat)));
    intros q1 q2; unfold Qcle; vm_compute; discriminate.
Qed.

(** C3, as the code has it.  For
    [P = PUBO({('a',): 5, (0, 'a', 1): -2, (): -1.5})], with the mapping
    ['a' -> 0, 0 -> 1, 1 -> 2], and any weighting function whose weight for
    the cubic term exceeds 2 (the default gives 3): [to_qubo] returns and
    introduces exactly one ancilla, index 3, for the pair (0, 1); at every bit
    assignment [s] that minimizes the returned polynomial,
    [convert_solution] returns [{'a': 0, 0: s[1], 1: s[2]}], whatever the
    solution holds at the ancilla's index; and that assignment minimizes [P]
    itself. *)
Theorem doc_pubo_reduction (lam : Qc -> Qc) :
  two < lam (- two) ->
  exists st,
    to_qubo_run doc_pubo lam = Ok st
    /\ reductions st = [([0; 1]%nat, 3%nat)] /\ ancilla st = 4%nat
    /\ forall s, minimizes (items (Q_ st)) s ->
         convert_solution doc_pubo (full s)
         = Ok [(LStr "a"%string, 0%Z); (LInt 0, s 1%nat); (LInt 1, s 2%nat)]
         /\ (forall sol' : solution,
                (forall i, (i < 3)%nat -> sol' i = full s i) ->
                convert_solution doc_pubo sol' = convert_solution doc_pubo (full s))
         /\ exists P, to_pubo doc_pubo = Ok P /\ minimizes (items P) s.
Proof.
  intros HL. eexists. split; [apply doc_pubo_run|].
  split; [reflexivity|]. split; [reflexivity|].
  intros s Hmin.
  apply (doc_qubo_minimizers lam _ s HL (doc_pubo_run lam)) in Hmin.
  destruct Hmin as (Hs & H0 & H3).
  split; [|split].
  - rewrite convert_solution_doc by assumption. now rewrite H0.
  - intros sol' Hagree. now apply convert_solution_ext.
  - now apply doc_pubo_minimizes.
Qed.

Lemma default_lam_cubic : two < default_lam (- two).
Proof. vm_compute. reflexivity. Qed.

Lemma doc_pubo_reduction_example :
  two < default_lam (- two) /\
  exists st,
    to_qubo_run doc_pubo default_lam = Ok st
    /\ reductions st = [([0; 1]%nat, 3%nat)] /\ ancilla st = 4%nat
    /\ forall s, minimizes (items (Q_ st)) s ->
         convert_solution doc_pubo (full s)
         = Ok [(LStr "a"%string, 0%Z); (LInt 0, s 1%nat); (LInt 1, s 2%nat)]
         /\ (forall sol' : solution,
                (forall i, (i < 3)%nat -> sol' i = full s i) ->
                convert_solution doc_pubo sol' = convert_solution doc_pubo (full s))
         /\ exists P, to_pubo doc_pubo = Ok P /\ minimizes (items P) s.
Proof.
  split; [exact default_lam_cubic|].
  apply (doc_pubo_reduction default_lam). exact default_lam_cubic.
Defined.

(** C3 as stated fails.  With the default weight the all-zero assignment
    minimizes the polynomial that [to_qubo] returns, and [convert_solution]
    maps it to [{'a': 0, 0: 0, 1: 0}]; however large the weight is required to
    be, some minimizer is not mapped to [{'a': 1, 0: 1, 1: 1}]; and the
    all-one assignment does not minimize [P]. *)
Lemma doc_pubo_all_ones_not_recovered :
  (exists st,
      to_qubo_run doc_pubo default_lam = Ok st
      /\ minimizes (items (Q_ st)) (fun _ => 0%Z)
      /\ convert_solution doc_pubo (full (fun _ => 0%Z))
         = Ok [(LStr "a"%string, 0%Z); (LInt 0, 0%Z); (LInt 1, 0%Z)])
  /\ ~ (exists lam0 : Qc,
           forall lam : Qc -> Qc, lam0 <= lam (- two) ->
           forall st s, to_qubo_run doc_pubo lam = Ok st ->
                        minimizes (items (Q_ st)) s ->
                        convert_solution doc_pubo (full s)
                        = Ok [(LStr "a"%string, 1%Z); (LInt 0, 1%Z); (LInt 1, 1%Z)])
  /\ (forall P, to_pubo doc_pubo = Ok P -> ~ minimizes (items P) (fun _ => 1%Z)).
Proof.
  split; [|split].
  - eexists. split; [apply doc_pubo_run|]. split.
    + apply (doc_qubo_minimizers default_lam _ _ default_lam_cubic
               (doc_pubo_run default_lam)).
      split; [apply bits_zero | split; reflexivity].
    + reflexivity.
  - intros [lam0 H].
    set (L := if Qclt_le_dec three lam0 then lam0 else three).
    assert (HL : two < L /\ lam0 <= L).
    { unfold L. destruct (Qclt_le_dec three lam0) as [Hlt|Hle]; split.
      - eapply Qclt_trans; [|exact Hlt]. vm_compute. reflexivity.
      - apply Qcle_refl.
      - vm_compute. reflexivity.
      - exact Hle. }
    destruct HL as [HL2 HL0].
    specialize (H (fun _ => L) HL0 _ (fun _ => 0%Z) (doc_pubo_run (fun _ => L))).
    rewrite convert_solution_doc in H by apply bits_zero.
    assert (Hmin : minimizes
                     (items (Q_ (mkReducer
                        (mkPoly QUBOMatrix
                           (acc_at
                              (acc_at
                                 (accumulate (acc_at [] [0%nat] five)
                                    (squashed BINARY (_constraint_xy_eq_z 0 1 3 L)))
                                 [2; 3]%nat (- two))
                              [] (- (three / two))))
                        4 [([0; 1]%nat, 3%nat)])))
                     (fun _ => 0%Z)).
    { apply (doc_qubo_minimizers (fun _ => L) _ _ HL2 (doc_pubo_run (fun _ => L))).
      split; [apply bits_zero | split; reflexivity]. }
    specialize (H Hmin). apply Ok_inj in H. discriminate H.
  - intros P HP [_ Hmin].
    assert (Hone : bits (fun _ => 1%Z)) by (intros i; now right).
    destruct (doc_pubo_value (of_bits (fun _ => 1%Z)) (of_bits_boolean _ Hone))
      as (P1 & HP1 & Hv1).
    destruct (doc_pubo_value (of_bits (fun _ => 0%Z)) (of_bits_boolean _ bits_zero))
      as (P0 & HP0 & Hv0).
    rewrite HP in HP1, HP0. apply Ok_inj in HP1, HP0. subst P1 P0.
    specialize (Hmin _ bits_zero). rewrite Hv1, Hv0 in Hmin.
    revert Hmin. unfold Qcle. vm_compute. intros Hc. apply Hc. reflexivity.
Qed.

Lemma convert_solution_spec_example :
  exists res,
    convert_solution doc_pubo (fun i => nth_error [1; 0; -1; 1]%Z i) = Ok res
    /\ keys res = labels doc_pubo
    /\ (forall i l, nth_error (labels doc_pubo) i = Some l ->
                    exists v, nth_error [1; 0; -1; 1]%Z i = Some v /\
                              dict_get label_eq_dec res l
                              = Some (if Z.eq_dec v 1 then 1%Z else 0%Z))
    /\ (forall sol' : solution,
           (forall i, (i < num_binary_variables doc_pubo)%nat ->
                      sol' i = nth_error [1; 0; -1; 1]%Z i) ->
           convert_solution doc_pubo sol' = Ok res).
Proof.
  apply (convert_solution_spec doc_pubo (fun i => nth_error [1; 0; -1; 1]%Z i)).
  - repeat constructor; simpl; intuition discriminate.
  - intros i Hi. unfold num_binary_variables in Hi. simpl in Hi.
    do 3 (destruct i as [|i]; [discriminate|]). lia.
Defined.

(** * Further properties of the converters *)

Lemma ising_to_qubo_terms_value (k : key) (v : Qc) (x : nat -> Qc) :
  okkey IsingMatrix k ->
  value (ising_to_qubo_terms k v) x = v * mono (to_spin x) k.
Proof.
  intros [_ Hlen]. specialize (Hlen eq_refl).
  destruct k as [|i [|j [|? ?]]]; simpl in *; try lia; unfold to_spin; qc_field.
Qed.

(** Over the rationals, the spin polynomial and the binary polynomial that
    [ising_to_qubo] makes of it take the same value at corresponding
    assignments. *)
Lemma ising_to_qubo_preserves_value (L : poly) (x : nat -> Qc) :
  cls L = IsingMatrix -> wf_poly L ->
  exists Q, ising_to_qubo L = Ok Q /\ cls Q = QUBOMatrix /\ wf_poly Q
            /\ value (items Q) x = value (items L) (to_spin x).
Proof.
  intros Hc HL. pose proof (wf_canon _ HL) as Hk. rewrite Hc in Hk.
  eexists. rewrite ising_to_qubo_accumulate by exact Hk. rewrite Hc.
  split; [reflexivity|]. split; [reflexivity|]. split.
  - apply wf_accumulate; [apply wf_nil|].
    eapply expand_okkey; [|exact Hk]. intros k v Hkv.
    apply (quadratic_terms_okkey QUBOMatrix k (okkey_bounded _ _ k eq_refl Hkv)).
  - simpl. rewrite value_accumulate. simpl. rewrite Qcplus_0_l.
    apply value_expand. eapply Forall_impl; [|exact Hk].
    intros [k v] Hkv. simpl. now apply ising_to_qubo_terms_value.
Qed.


(** Over the rationals, [qubo_to_ising] undoes [ising_to_qubo]. *)
Lemma qubo_to_ising_ising_to_qubo (L : poly) :
  cls L = IsingMatrix -> wf_poly L ->
  exists Q L',
    ising_to_qubo L = Ok Q /\ cls Q = QUBOMatrix /\
    qubo_to_ising Q = Ok L' /\ cls L' = IsingMatrix /\
    dict_eqb (items L') (items L) = true.
Proof.
  intros Hc HL. destruct L as [c L]; simpl in Hc; subst c.
  assert (G1 : forall k v, okkey IsingMatrix k ->
                 Forall (fun kv => okkey QUBOMatrix (fst kv)) (ising_to_qubo_terms k v)).
  { intros k v Hk.
    apply (quadratic_terms_okkey QUBOMatrix k (okkey_bounded _ _ k eq_refl Hk)). }
  assert (G2 : forall k v, okkey QUBOMatrix k ->
                 Forall (fun kv => okkey IsingMatrix (fst kv)) (qubo_to_ising_terms k v)).
  { intros k v Hk.
    apply (quadratic_terms_okkey IsingMatrix k (okkey_bounded _ _ k eq_refl Hk)). }
  eexists _, _.
  rewrite ising_to_qubo_accumulate by apply (wf_canon _ HL). simpl.
  split; [reflexivity|]. split; [reflexivity|].
  rewrite qubo_to_ising_accumulate; simpl.
  - split; [reflexivity|]. split; [reflexivity|].
    apply (roundtrip_eqb IsingMatrix QUBOMatrix _ _
             (fun k m => tcoef (qubo_to_ising_terms k 1) m)); auto.
    + intros; apply qubo_to_ising_terms_linear.
    + intros; now apply quadratic_inverse'.
  - apply (wf_canon (mkPoly QUBOMatrix _)).
    apply wf_accumulate; [apply wf_nil|].
    eapply expand_okkey; [exact G1 | apply (wf_canon _ HL)].
Qed.

(** *** Any degree *)

Lemma value_scale (c : Qc) (l : list (key * Qc)) (a : nat -> Qc) :
  value (scale c l) a = c * value l a.
Proof.
  induction l as [|[k v] t IH]; simpl; [ring|]. rewrite IH. ring.
Qed.

Lemma hising_generate_value (k : key) (x : nat -> Qc) :
  value (hising_generate_new_key_value k) x = mono (to_spin x) k.
Proof.
  induction k as [|i t IH]; simpl; [ring|].
  rewrite <- IH. clear IH.
  induction (hising_generate_new_key_value t) as [|[key w] l IHl]; simpl; [ring|].
  rewrite IHl. unfold to_spin. qc_field.
Qed.

Lemma strict_okkey (c : pyclass) (l : list (key * Qc)) :
  bounded_degree c = false ->
  Forall (fun kv => StronglySorted lt (fst kv)) l ->
  Forall (fun kv => okkey c (fst kv)) l.
Proof.
  intros Hc Hl. eapply Forall_impl; [|exact Hl].
  intros kv Hs. split; [exact Hs | congruence].
Qed.

Lemma hising_terms_okkey (c : pyclass) (k : key) (v : Qc) :
  bounded_degree c = false -> StronglySorted lt k ->
  Forall (fun kv => okkey c (fst kv)) (hising_to_pubo_terms k v).
Proof.
  intros Hc Hk. eapply scale_okkey; [exact Hc|]. now apply hising_generate_keys.
Qed.

(** Over the rationals and in any degree, [hising_to_pubo] preserves the
    value under [z = 2x - 1]. *)
Lemma hising_to_pubo_value (H : poly) (x : nat -> Qc) :
  cls H = HIsingMatrix -> wf_poly H ->
  exists P, hising_to_pubo H = Ok P /\ cls P = PUBOMatrix /\ wf_poly P
            /\ value (items P) x = value (items H) (to_spin x).
Proof.
  intros Hc HH. pose proof (wf_poly_sorted _ HH) as Hs.
  eexists. rewrite hising_to_pubo_accumulate by exact Hs. rewrite Hc.
  split; [reflexivity|]. split; [reflexivity|]. split.
  - apply wf_accumulate; [apply wf_nil|].
    apply (expand_okkey HIsingMatrix); [|now apply strict_okkey].
    intros k v [Hk _]. now apply hising_terms_okkey.
  - simpl. rewrite value_accumulate. simpl. rewrite Qcplus_0_l.
    apply value_expand. apply Forall_forall. intros [k v] _. simpl.
    unfold hising_to_pubo_terms. now rewrite value_scale, hising_generate_value.
Qed.




(** ** Arguments that are not matrix objects *)

(** What [squash_key] answers on a tuple. *)
Lemma squash_key_cases (c : pyclass) (kp : key) :
  (bounded_degree c = true /\ (2 < length (canonical (algebra_of c) kp))%nat
   /\ squash_key c (Tup kp) = Raise InvalidTermDegree)
  \/ (okkey c (canonical (algebra_of c) kp)
      /\ squash_key c (Tup kp) = Ok (canonical (algebra_of c) kp)).
Proof.
  rewrite squash_key_Tup.
  destruct (bounded_degree c) eqn:Eb; simpl.
  - destruct (Nat.ltb_spec 2 (length (canonical (algebra_of c) kp))).
    + left. auto.
    + right. split; [|reflexivity]. split; [apply canonical_strict | auto].
  - right. split; [|reflexivity]. split; [apply canonical_strict | congruence].
Qed.

(** The loop of a converter over keys as they come: each key is squashed,
    and the loop raises at the first key that squashes to more than two
    indices in a bounded class. *)
Lemma foldM_convert_raw (c_sq c_out : pyclass)
  (gen : key -> Qc -> list (key * Qc)) (body : poly -> key -> Qc -> result poly) :
  (forall L k v, cls L = c_out -> okkey c_sq k -> body L k v = iadd L (gen k v)) ->
  (forall k v, okkey c_sq k -> Forall (fun kv => okkey c_out (fst kv)) (gen k v)) ->
  forall l d,
    (Forall (fun kv => okkey c_sq (canonical (algebra_of c_sq) (fst kv))) l ->
     foldM (fun L '(kp, v) => k <- squash_key c_sq (Tup kp) ;; body L k v)
           l (mkPoly c_out d)
     = Ok (mkPoly c_out (accumulate d (expand gen (squashed (algebra_of c_sq) l)))))
    /\ (Exists (fun kv => bounded_degree c_sq = true
                          /\ (2 < length (canonical (algebra_of c_sq) (fst kv)))%nat) l ->
        foldM (fun L '(kp, v) => k <- squash_key c_sq (Tup kp) ;; body L k v)
              l (mkPoly c_out d)
        = Raise InvalidTermDegree).
Proof.
  intros Hbody Hgen. induction l as [|[k v] t IH]; intros d.
  - split; [reflexivity|]. intros H. inversion H.
  - cbn [foldM]. destruct (squash_key_cases c_sq k) as [(Hb & Hlong & ->)|[Hok ->]].
    + split; [|reflexivity].
      intros H. inversion H as [|? ? [_ Hshort] _]; subst. simpl in Hshort.
      specialize (Hshort Hb). lia.
    + cbn [bind]. rewrite Hbody by auto. rewrite iadd_okkeys by (simpl; auto).
      cbn [bind cls items].
      destruct (IH (accumulate d (gen (canonical (algebra_of c_sq) k) v))) as [IH1 IH2].
      split.
      * intros H. inversion H; subst. rewrite IH1 by assumption.
        simpl. now rewrite accumulate_app.
      * intros H. inversion H as [? ? [Hb Hlong]|]; subst; [|auto].
        simpl in Hlong. destruct Hok as [_ Hok]. specialize (Hok Hb). lia.
Qed.

Lemma qubo_to_ising_body (L : poly) (k : key) (v : Qc) :
  match k with
  | [] => iadd_item L (Tup k) v
  | [_] => L <- iadd_item L (Tup k) (v / two) ;; iadd_item L (Tup []) (v / two)
  | [i; j] =>
      L <- iadd_item L (Tup k) (v / four) ;;
      L <- iadd_item L (Tup [i]) (v / four) ;;
      L <- iadd_item L (Tup [j]) (v / four) ;;
      iadd_item L (Tup []) (v / four)
  | _ => Ok L
  end = iadd L (qubo_to_ising_terms k v).
Proof.
  unfold iadd.
  destruct k as [|i [|j [|? ?]]]; simpl; rewrite ?bind_Ok_r;
    try reflexivity; bind_chain.
Qed.

(** Over the rationals, [qubo_to_ising] on any dictionary, whatever its
    keys: it raises if some key holds more than two distinct indices, and
    otherwise returns a container in the state of its class with the value of
    the terms as written. *)
Lemma qubo_to_ising_any_dict (Q : poly) :
  (Exists (fun kv => (2 < length (canonical BINARY (fst kv)))%nat) (items Q) ->
   qubo_to_ising Q = Raise InvalidTermDegree)
  /\ (Forall (fun kv => (length (canonical BINARY (fst kv)) <= 2)%nat) (items Q) ->
      exists L, qubo_to_ising Q = Ok L
                /\ cls L = (if pyclass_eq_dec (cls Q) QUBOMatrix
                            then IsingMatrix else Ising)
                /\ wf_poly L
                /\ forall x, boolean x ->
                             value (items L) (to_spin x) = value (items Q) x).
Proof.
  assert (G : forall c, bounded_degree c = true -> forall k v, okkey QUBOMatrix k ->
                 Forall (fun kv => okkey c (fst kv)) (qubo_to_ising_terms k v)).
  { intros c Hc k v Hk.
    apply (quadratic_terms_okkey c k (okkey_bounded QUBOMatrix c k (eq_sym Hc) Hk)). }
  assert (F : forall c_sq c_out,
             algebra_of c_sq = BINARY -> bounded_degree c_sq = true ->
             bounded_degree c_out = true ->
             (Exists (fun kv => (2 < length (canonical BINARY (fst kv)))%nat) (items Q) ->
              foldM (fun L '(kp, v) =>
                       k <- squash_key c_sq (Tup kp) ;;
                       match k with
                       | [] => iadd_item L (Tup k) v
                       | [_] => L <- iadd_item L (Tup k) (v / two) ;;
                                iadd_item L (Tup []) (v / two)
                       | [i; j] =>
                           L <- iadd_item L (Tup k) (v / four) ;;
                           L <- iadd_item L (Tup [i]) (v / four) ;;
                           L <- iadd_item L (Tup [j]) (v / four) ;;
                           iadd_item L (Tup []) (v / four)
                       | _ => Ok L
                       end) (items Q) (new c_out)
              = Raise InvalidTermDegree)
             /\ (Forall (fun kv => (length (canonical BINARY (fst kv)) <= 2)%nat) (items Q) ->
                 exists L,
                   foldM (fun L '(kp, v) =>
                       k <- squash_key c_sq (Tup kp) ;;
                       match k with
                       | [] => iadd_item L (Tup k) v
                       | [_] => L <- iadd_item L (Tup k) (v / two) ;;
                                iadd_item L (Tup []) (v / two)
                       | [i; j] =>
                           L <- iadd_item L (Tup k) (v / four) ;;
                           L <- iadd_item L (Tup [i]) (v / four) ;;
                           L <- iadd_item L (Tup [j]) (v / four) ;;
                           iadd_item L (Tup []) (v / four)
                       | _ => Ok L
                       end) (items Q) (new c_out) = Ok L
                   /\ cls L = c_out /\ wf_poly L
                   /\ forall x, boolean x ->
                                value (items L) (to_spin x) = value (items Q) x)).
  { intros c_sq c_out Ha Hb Hb'.
    destruct (foldM_convert_raw c_sq c_out qubo_to_ising_terms
                (fun L k v => match k with
                       | [] => iadd_item L (Tup k) v
                       | [_] => L <- iadd_item L (Tup k) (v / two) ;;
                                iadd_item L (Tup []) (v / two)
                       | [i; j] =>
                           L <- iadd_item L (Tup k) (v / four) ;;
                           L <- iadd_item L (Tup [i]) (v / four) ;;
                           L <- iadd_item L (Tup [j]) (v / four) ;;
                           iadd_item L (Tup []) (v / four)
                       | _ => Ok L
                       end)
                (fun L k v _ _ => qubo_to_ising_body L k v)
                (fun k v Hk => G c_out Hb' k v (okkey_bounded c_sq QUBOMatrix k Hb Hk))
                (items Q) []) as [F1 F2].
    rewrite Ha in F1, F2. split.
    - intros HE. apply F2. eapply Exists_impl; [|exact HE]. simpl. auto.
    - intros HF.
      assert (Hok : Forall (fun kv => okkey QUBOMatrix (fst kv))
                           (squashed BINARY (items Q))).
      { unfold squashed. apply Forall_map. eapply Forall_impl; [|exact HF].
        intros [k v] Hk. simpl in *. split; [apply (canonical_strict BINARY) | auto]. }
      eexists. split; [|split; [|split]].
      + apply F1. eapply Forall_impl; [|exact HF]. intros [k v] Hk. simpl in *.
        split; [apply (canonical_strict BINARY) | auto].
      + reflexivity.
      + apply wf_accumulate; [apply wf_nil|].
        eapply expand_okkey; [|exact Hok]. intros k v Hk. now apply G.
      + intros x Hx. simpl. rewrite value_accumulate. simpl. rewrite Qcplus_0_l.
        rewrite <- (value_squashed x (items Q) Hx).
        apply value_expand. eapply Forall_impl; [|exact Hok].
        intros [k v] Hk. simpl. now apply qubo_to_ising_terms_value. }
  unfold qubo_to_ising.
  destruct (pyclass_eq_dec (cls Q) QUBOMatrix); now apply F.
Qed.


(** * Further properties of [PUBO] *)

(** ** The shape of what [to_qubo] returns *)

Lemma index_bound_mono (b b' : nat) (d : poly_dict) :
  (b <= b')%nat -> index_bound b d -> index_bound b' d.
Proof.
  intros Hb Hd. eapply Forall_impl; [|exact Hd]. intros kv Hk.
  eapply Forall_impl; [|exact Hk]. simpl. intros; lia.
Qed.

Lemma index_bound_accumulate (b : nat) (d l : poly_dict) :
  index_bound b d -> index_bound b l -> index_bound b (accumulate d l).
Proof.
  intros Hd Hl. apply Forall_accumulate; [exact Hd|].
  eapply Forall_impl; [|exact Hl]. intros [k v] Hk c _. exact Hk.
Qed.

Lemma index_bound_squashed (b : nat) (l : poly_dict) :
  index_bound b l -> index_bound b (squashed BINARY l).
Proof.
  intros Hl. unfold squashed. apply Forall_map.
  eapply Forall_impl; [|exact Hl]. intros [k v] Hk. simpl in *.
  rewrite Forall_forall in *. intros i Hi. apply Hk.
  now apply (In_canonical BINARY).
Qed.

Lemma constraint_index_bound (x y z b : nat) (lam : Qc) :
  (x < y)%nat -> (y < z)%nat -> (z < b)%nat ->
  index_bound b (_constraint_xy_eq_z x y z lam).
Proof.
  intros Hxy Hyz Hz. rewrite constraint_xy_eq_z_items by lia.
  repeat (apply Forall_cons || apply Forall_nil); simpl; lia.
Qed.

Lemma squashed_short_okkey (l : poly_dict) :
  Forall (fun kv => (length (canonical BINARY (fst kv)) <= 2)%nat) l ->
  Forall (fun kv => okkey QUBOMatrix (fst kv)) (squashed BINARY l).
Proof.
  intros Hl. unfold squashed. apply Forall_map.
  eapply Forall_impl; [|exact Hl]. intros [k v] Hk. simpl in *.
  split; [apply (canonical_strict BINARY) | auto].
Qed.

Lemma wf_poly_items (p : poly) (c : pyclass) :
  cls p = c -> wf_poly p -> wf_poly (mkPoly c (items p)).
Proof. intros <- H. now destruct p. Qed.

Lemma step_registry_length (k k' : key) (st st' : reducer) :
  step_reuses k k' st st' \/ step_mints k k' st st' ->
  (length (reductions st) <= length (reductions st')
   /\ length (reductions st') <= length (reductions st) + 1)%nat.
Proof.
  intros [(x & y & z & _ & _ & _ & -> & _)|(x & y & t & _ & _ & -> & _)].
  - lia.
  - rewrite length_app. simpl. lia.
Qed.

(** The [while] loop keeps the polynomial in the state of its class, over
    indices below the counter, and registers at most one pair per index it
    takes off the key. *)
Lemma reduce_loop_shape (n : nat) (lam : Qc -> Qc) (v : Qc) :
  forall (fuel : nat) (k : key) (st : reducer),
    wf_reducer n st -> wf_key (ancilla st) (reductions st) k ->
    wf_poly (Q_ st) -> index_bound (ancilla st) (items (Q_ st)) ->
    (length k <= fuel + 2)%nat ->
    exists k' st',
      reduce_loop fuel lam v k st = Ok (k', st')
      /\ wf_reducer n st' /\ wf_key (ancilla st') (reductions st') k'
      /\ (length k' <= 2)%nat
      /\ wf_poly (Q_ st') /\ index_bound (ancilla st') (items (Q_ st'))
      /\ (length (reductions st) <= length (reductions st'))%nat
      /\ (length (reductions st') <= length (reductions st) + (length k - 2))%nat.
Proof.
  induction fuel as [|fuel IH]; intros k st Hst Hk HQ HB Hlen.
  - exists k, st. rewrite reduce_loop_short by lia.
    repeat match goal with |- _ /\ _ => split end; auto; lia.
  - destruct (Nat.ltb_spec 2 (length k)) as [Hlong|Hshort].
    + destruct (reduce_step_spec n lam v k st Hst Hk Hlong)
        as (x & y & z & Q' & anc' & R' & Hstep & Hx & Hy & Hxy & Hyz & Hz
            & Hext & Hst' & Hk' & Hlen' & HQ').
      destruct (step_registry_length _ _ _ _ (reduce_step_registry _ _ _ _ _ _ Hstep))
        as [Hle Hle1].
      cbn [reductions] in Hle, Hle1.
      pose proof (red_registry _ _ Hst) as HR.
      pose proof (red_registry _ _ Hst') as HR'. cbn [ancilla reductions] in HR'.
      pose proof (red_cls _ _ Hst) as Hc.
      pose proof (red_cls _ _ Hst') as Hc'. cbn [Q_] in Hc'.
      assert (Hanc : (ancilla st <= anc')%nat).
      { rewrite (reg_next _ _ _ HR), (reg_next _ _ _ HR'). lia. }
      assert (Hzb : (z < anc')%nat).
      { pose proof (registry_value_bound _ _ _ HR' _ _ Hz). lia. }
      destruct Q' as [c' d']. cbn [cls items] in *. subst c' d'.
      assert (HQ1 : wf_poly (mkPoly QUBOMatrix
                      (accumulate (items (Q_ st))
                         (squashed BINARY (_constraint_xy_eq_z x y z (lam v)))))).
      { apply wf_accumulate.
        - now apply wf_poly_items.
        - apply squashed_short_okkey, constraint_keys_short; lia. }
      assert (HB1 : index_bound anc'
                      (accumulate (items (Q_ st))
                         (squashed BINARY (_constraint_xy_eq_z x y z (lam v))))).
      { apply index_bound_accumulate.
        - apply (index_bound_mono (ancilla st)); assumption.
        - apply index_bound_squashed, constraint_index_bound; lia. }
      destruct (IH _ _ Hst' Hk' HQ1 HB1)
        as (k'' & st'' & Hloop & Hst'' & Hk'' & Hl2 & HQ2 & HB2 & Hle2 & Hle3);
        [lia|].
      cbn [reductions] in Hle2, Hle3.
      exists k'', st''. cbn [reduce_loop].
      destruct (Nat.ltb_spec 2 (length k)); [|lia].
      rewrite Hstep. cbn [bind]. rewrite Hloop.
      repeat match goal with |- _ /\ _ => split end; auto; lia.
    + exists k, st. rewrite reduce_loop_short by lia.
      repeat match goal with |- _ /\ _ => split end; auto; lia.
Qed.

Lemma mapM_length {A B} (f : A -> result B) (l : list A) (l' : list B) :
  mapM f l = Ok l' -> length l' = length l.
Proof.
  revert l'; induction l as [|x t IH]; simpl; intros l' H.
  - apply Ok_inj in H. now subst.
  - apply bind_inv in H. destruct H as (y & _ & H).
    apply bind_inv in H. destruct H as (ys & Hys & H).
    apply Ok_inj in H. subst. simpl. f_equal. now apply IH.
Qed.

Lemma to_qubo_term_shape (self : pubo) (lam : Qc -> Qc) (st st' : reducer)
  (kp : list label) (v : Qc) :
  wf_reducer (num_binary_variables self) st ->
  wf_poly (Q_ st) -> index_bound (ancilla st) (items (Q_ st)) ->
  NoDup kp ->
  to_qubo_term self lam st (kp, v) = Ok st' ->
  wf_reducer (num_binary_variables self) st'
  /\ wf_poly (Q_ st') /\ index_bound (ancilla st') (items (Q_ st'))
  /\ (length (reductions st) <= length (reductions st'))%nat
  /\ (length (reductions st') <= length (reductions st) + (length kp - 2))%nat.
Proof.
  intros Hst HQ HB Hnd H.
  destruct (to_qubo_term_inv _ _ _ _ _ _ H) as (mapped & Hm & Hn).
  destruct (mapM_mapping self kp mapped Hm Hnd) as [Hnd' Hb].
  pose proof (wf_key_initial _ _ _ mapped (red_registry _ _ Hst) Hnd' Hb) as Hk.
  destruct (reduce_loop_shape (num_binary_variables self) lam v
              (length (sorted mapped)) (sorted mapped) st Hst Hk HQ HB)
    as (k' & st1 & Hloop & Hst1 & Hk1 & Hl2 & HQ1 & HB1 & Hle & Hle');
    [lia|].
  rewrite length_sorted, (mapM_length _ _ _ Hm) in Hle'.
  assert (Hok : okkey QUBOMatrix k').
  { split; [apply (key_sorted _ _ _ Hk1) | auto]. }
  unfold to_qubo_term in H. rewrite Hm in H. cbn [bind] in H.
  rewrite Hn, Hloop in H. cbn [bind] in H.
  rewrite iadd_item_unfold, (red_cls _ _ Hst1), squash_key_okkey in H by exact Hok.
  cbn [bind] in H. apply Ok_inj in H. subst st'. cbn [Q_ ancilla reductions items].
  repeat match goal with |- _ /\ _ => split end; auto.
  - destruct Hst1. now constructor.
  - apply (wf_accumulate QUBOMatrix (items (Q_ st1)) [(k', v)]).
    + apply wf_poly_items; [apply (red_cls _ _ Hst1) | exact HQ1].
    + apply Forall_cons; [exact Hok | apply Forall_nil].
  - apply (index_bound_accumulate _ _ [(k', v)]); [exact HB1|].
    apply Forall_cons; [|apply Forall_nil]. apply (key_bound _ _ _ Hk1).
Qed.

Lemma to_qubo_fold_shape (self : pubo) (lam : Qc -> Qc) :
  forall (ts : dict (list label) Qc) (st st' : reducer),
    wf_reducer (num_binary_variables self) st ->
    wf_poly (Q_ st) -> index_bound (ancilla st) (items (Q_ st)) ->
    (forall kp v, In (kp, v) ts -> NoDup kp) ->
    foldM (to_qubo_term self lam) ts st = Ok st' ->
    wf_reducer (num_binary_variables self) st'
    /\ wf_poly (Q_ st') /\ index_bound (ancilla st') (items (Q_ st'))
    /\ (length (reductions st') <= length (reductions st) + reduction_budget ts)%nat.
Proof.
  induction ts as [|[kp v] t IH]; intros st st' Hst HQ HB Hnd H; cbn [foldM] in H.
  - apply Ok_inj in H. subst st'. unfold reduction_budget. simpl.
    repeat match goal with |- _ /\ _ => split end; auto; lia.
  - apply bind_inv in H. destruct H as (st1 & H1 & H2).
    destruct (to_qubo_term_shape self lam st st1 kp v Hst HQ HB) as
      (Hst1 & HQ1 & HB1 & _ & Hle1); auto.
    { apply (Hnd kp v). now left. }
    destruct (IH st1 st' Hst1 HQ1 HB1) as (Hst' & HQ' & HB' & Hle'); auto.
    { intros kp' v' Hin. apply (Hnd kp' v'). now right. }
    repeat match goal with |- _ /\ _ => split end; auto.
    unfold reduction_budget in *. simpl. lia.
Qed.

(** X9.  When [to_qubo] returns, it returns a [QUBOMatrix] in the state of its
    class: one entry per key, every key strictly increasing and of length at
    most 2, no zero coefficient; and every index in it is an original index
    or one of the ancillas [n, ..., n + r - 1], [r] being the number of
    registered pairs. *)
Theorem to_qubo_quadratic (self : pubo) (lam : Qc -> Qc) (st : reducer) :
  (forall kp v, In (kp, v) (terms self) -> NoDup kp) ->
  to_qubo_run self lam = Ok st ->
  to_qubo self (Some lam) = Ok (Q_ st)
  /\ cls (Q_ st) = QUBOMatrix /\ wf_poly (Q_ st)
  /\ Forall (fun kv => (length (fst kv) <= 2)%nat) (items (Q_ st))
  /\ index_bound (num_binary_variables self + length (reductions st))
                 (items (Q_ st)).
Proof.
  intros Hnd Hrun.
  split; [unfold to_qubo; now rewrite Hrun|].
  destruct (to_qubo_fold_shape self lam (terms self) (to_qubo_init self) st)
    as (Hst & HQ & HB & _); auto.
  - apply wf_reducer_init.
  - apply wf_nil.
  - constructor.
  - pose proof (red_cls _ _ Hst) as Hc.
    split; [exact Hc|]. split; [exact HQ|]. split.
    + eapply Forall_impl; [|apply (wf_canon _ HQ)]. rewrite Hc.
      intros kv [_ Hl]. now apply Hl.
    + now rewrite <- (reg_next _ _ _ (red_registry _ _ Hst)).
Qed.

Lemma to_qubo_quadratic_example :
  exists st,
    to_qubo_run doc_pubo default_lam = Ok st
    /\ to_qubo doc_pubo (Some default_lam) = Ok (Q_ st)
    /\ cls (Q_ st) = QUBOMatrix /\ wf_poly (Q_ st)
    /\ Forall (fun kv => (length (fst kv) <= 2)%nat) (items (Q_ st))
    /\ index_bound (num_binary_variables doc_pubo + length (reductions st))
                   (items (Q_ st)).
Proof.
  destruct (to_qubo_run doc_pubo default_lam) as [st|e] eqn:Hrun;
    [|vm_compute in Hrun; discriminate Hrun].
  exists st. split; [reflexivity|].
  apply (to_qubo_quadratic doc_pubo default_lam st);
    [exact doc_pubo_keys | exact Hrun].
Defined.

(** X10.  [to_qubo] introduces at most [d - 2] ancillas for a term of degree
    [d > 2], and none for the others: the number of registered pairs, which is
    the number of ancillas, is at most the sum of these over the terms. *)
Theorem to_qubo_ancilla_count (self : pubo) (lam : Qc -> Qc) (st : reducer) :
  (forall kp v, In (kp, v) (terms self) -> NoDup kp) ->
  to_qubo_run self lam = Ok st ->
  ancilla st = (num_binary_variables self + length (reductions st))%nat
  /\ (length (reductions st) <= reduction_budget (terms self))%nat.
Proof.
  intros Hnd Hrun.
  destruct (to_qubo_fold_shape self lam (terms self) (to_qubo_init self) st)
    as (Hst & _ & _ & Hle); auto.
  - apply wf_reducer_init.
  - apply wf_nil.
  - constructor.
  - split; [apply (reg_next _ _ _ (red_registry _ _ Hst)) | exact Hle].
Qed.

Lemma to_qubo_ancilla_count_example :
  exists st,
    to_qubo_run doc_pubo default_lam = Ok st
    /\ ancilla st = (num_binary_variables doc_pubo + length (reductions st))%nat
    /\ (length (reductions st) <= reduction_budget (terms doc_pubo))%nat.
Proof.
  destruct (to_qubo_run doc_pubo default_lam) as [st|e] eqn:Hrun;
    [|vm_compute in Hrun; discriminate Hrun].
  exists st. split; [reflexivity|].
  apply (to_qubo_ancilla_count doc_pubo default_lam st);
    [exact doc_pubo_keys | exact Hrun].
Defined.

(** ** Terms of degree at most 2 only *)

Lemma wf_reducer_empty (n : nat) (d : poly_dict) :
  wf_reducer n (mkReducer (mkPoly QUBOMatrix d) n []).
Proof.
  constructor; [reflexivity|]. constructor; simpl; auto; constructor.
Qed.

Lemma canonical_nodup (mapped : list nat) :
  NoDup mapped -> canonical BINARY mapped = sorted mapped.
Proof. intros H. simpl. now rewrite (nodup_fixed_point Nat.eq_dec H). Qed.

Lemma to_qubo_short_fold (self : pubo) (lam : Qc -> Qc) :
  forall (ts : dict (list label) Qc) (d : poly_dict),
    (forall kp v, In (kp, v) ts ->
                  NoDup kp /\ (length kp <= 2)%nat
                  /\ forall l, In l kp -> In l (labels self)) ->
    exists d',
      foldM (to_qubo_term self lam) ts
            (mkReducer (mkPoly QUBOMatrix d) (num_binary_variables self) [])
      = Ok (mkReducer (mkPoly QUBOMatrix d') (num_binary_variables self) [])
      /\ foldM (fun P '(k, v) =>
                  key <- mapM (_mapping self) k ;; iadd_item P (Tup key) v)
               ts (mkPoly PUBOMatrix d)
         = Ok (mkPoly PUBOMatrix d').
Proof.
  induction ts as [|[kp v] t IH]; intros d H; cbn [foldM].
  - eauto.
  - destruct (H kp v (or_introl eq_refl)) as (Hnd & Hlen & Hin).
    destruct (mapM_mapping_known self kp Hin) as (mapped & Hm).
    destruct (mapM_mapping self kp mapped Hm Hnd) as [Hnd' _].
    destruct (to_qubo_term_spec self lam _ kp v mapped
                (wf_reducer_empty (num_binary_variables self) d) Hnd Hm eq_refl)
      as (st' & Hterm & _ & _ & Hshort & _).
    rewrite (mapM_length _ _ _ Hm) in Hshort. specialize (Hshort Hlen).
    cbn [Q_ items ancilla reductions] in Hshort. subst st'.
    rewrite Hterm, Hm. cbn [bind].
    rewrite iadd_item_unfold. cbn [cls items]. rewrite squash_key_Tup.
    cbn [bounded_degree algebra_of andb bind].
    rewrite canonical_nodup by exact Hnd'.
    apply IH. intros kp' v' Hin'. apply (H kp' v'). now right.
Qed.

(** X11.  On a [PUBO] whose terms all have degree at most 2, [to_qubo] never calls
    [lam], registers no pair and introduces no ancilla, and the dictionary it
    returns holds the same terms as the one [to_pubo] returns. *)
Theorem to_qubo_degree_two (self : pubo) (lam : Qc -> Qc) :
  (forall kp v, In (kp, v) (terms self) ->
                NoDup kp /\ (length kp <= 2)%nat
                /\ forall l, In l kp -> In l (labels self)) ->
  exists Q P,
    to_qubo_run self lam
    = Ok (mkReducer Q (num_binary_variables self) [])
    /\ to_qubo self (Some lam) = Ok Q /\ to_pubo self = Ok P
    /\ cls Q = QUBOMatrix /\ cls P = PUBOMatrix /\ items Q = items P.
Proof.
  intros H.
  destruct (to_qubo_short_fold self lam (terms self) [] H) as (d' & H1 & H2).
  exists (mkPoly QUBOMatrix d'), (mkPoly PUBOMatrix d').
  assert (Hrun : to_qubo_run self lam
                 = Ok (mkReducer (mkPoly QUBOMatrix d') (num_binary_variables self) []))
    by exact H1.
  split; [exact Hrun|]. split; [unfold to_qubo; now rewrite Hrun|].
  split; [exact H2|]. auto.
Qed.

Lemma to_qubo_degree_two_example :
  exists Q P,
    to_qubo_run example_quadratic default_lam
    = Ok (mkReducer Q (num_binary_variables example_quadratic) [])
    /\ to_qubo example_quadratic (Some default_lam) = Ok Q
    /\ to_pubo example_quadratic = Ok P
    /\ cls Q = QUBOMatrix /\ cls P = PUBOMatrix /\ items Q = items P.
Proof.
  apply (to_qubo_degree_two example_quadratic default_lam).
  simpl. intros kp v [E|[E|[E|[]]]]; injection E as <- _;
    (split; [repeat constructor; simpl; intuition discriminate|]);
    (split; [simpl; lia|]); simpl; tauto.
Defined.

(** ** The ancillas can always be set as the registry asks *)

Lemma wf_registry_snoc_inv (n anc : nat) (R : dict key nat) (k : key) (z : nat) :
  wf_registry n anc (R ++ [(k, z)]) ->
  wf_registry n (n + length R) R
  /\ z = (n + length R)%nat /\ anc = S z
  /\ dict_get key_eq_dec R k = None
  /\ exists x y, k = [x; y] /\ (x < y)%nat /\ (y < z)%nat.
Proof.
  intros [H1 H2 H3 H4].
  unfold keys in H1. rewrite map_app in H1. simpl in H1.
  rewrite map_app, length_app in H2. simpl in H2.
  rewrite seq_app in H2. simpl in H2.
  apply app_inj_tail in H2. destruct H2 as [H2 Hz].
  rewrite length_app in H3. simpl in H3.
  apply Forall_app in H4. destruct H4 as [H4 H5].
  inversion H5 as [|? ? Hk _]; subst. simpl in Hk.
  repeat match goal with |- _ /\ _ => split end; auto.
  - constructor; auto.
    apply NoDup_remove_1 in H1. now rewrite app_nil_r in H1.
  - lia.
  - apply (dict_get_None key_eq_dec).
    apply NoDup_remove_2 in H1. now rewrite app_nil_r in H1.
Qed.

Lemma extend_assignment_spec (n : nat) :
  forall (R : dict key nat) (anc : nat) (x : nat -> Qc),
    wf_registry n anc R -> boolean x ->
    boolean (extend_assignment R x)
    /\ (forall i, (i < n)%nat \/ (anc <= i)%nat -> extend_assignment R x i = x i)
    /\ respects (extend_assignment R x) R.
Proof.
  induction R as [|[k z] R IH] using rev_ind; intros anc x HR Hx.
  - split; [exact Hx|]. split; [reflexivity|]. intros a b c H. discriminate H.
  - destruct (wf_registry_snoc_inv _ _ _ _ _ HR)
      as (HR0 & Hz & Hanc & Hnone & x0 & y0 & -> & Hxy & Hyz).
    destruct (IH _ x HR0 Hx) as (Hb & Hagree & Hresp).
    unfold extend_assignment in *. rewrite fold_left_app. simpl.
    set (a := fold_left extend_step R x) in *.
    unfold extend_step. simpl.
    repeat match goal with |- _ /\ _ => split end.
    + intros i. destruct (Nat.eq_dec i z); [|apply Hb].
      destruct (Hb x0) as [-> | ->], (Hb y0) as [-> | ->];
        rewrite ?Qcmult_0_l, ?Qcmult_0_r, ?Qcmult_1_l; auto.
    + intros i Hi. destruct (Nat.eq_dec i z); [lia|]. apply Hagree. lia.
    + intros x1 y1 z1 H. rewrite dict_get_app in H.
      destruct (dict_get key_eq_dec R [x1; y1]) as [z'|] eqn:E.
      * injection H as ->.
        pose proof (registry_value_bound _ _ _ HR0 _ _ E) as Hz1.
        destruct (registry_pair _ _ _ HR0 _ _ E) as (x' & y' & Ek & Hx'y' & Hy'z).
        injection Ek as <- <-.
        destruct (Nat.eq_dec z1 z); [lia|].
        destruct (Nat.eq_dec x1 z); [lia|].
        destruct (Nat.eq_dec y1 z); [lia|].
        now apply Hresp.
      * simpl in H. destruct (key_eq_dec [x1; y1] [x0; y0]) as [Ek|]; [|discriminate].
        injection Ek as -> ->. injection H as <-.
        destruct (Nat.eq_dec z z); [|congruence].
        destruct (Nat.eq_dec x0 z); [lia|].
        destruct (Nat.eq_dec y0 z); [lia|]. reflexivity.
Qed.


(** ** [to_pubo] *)

Lemma mapped_terms_known (self : pubo) (ts : dict (list label) Qc) :
  (forall kp v, In (kp, v) ts -> forall l, In l kp -> In l (labels self)) ->
  exists l, mapped_terms self ts = Ok l.
Proof.
  induction ts as [|[kp v] t IH]; intros H; simpl; [eauto|].
  destruct (mapM_mapping_known self kp (H kp v (or_introl eq_refl))) as (key & ->).
  destruct IH as (rest & ->); [intros kp' v' Hin; apply (H kp' v'); now right|].
  simpl. eauto.
Qed.

(** X13.  On a [PUBO] whose labels are all in its mapping, [to_pubo] returns a
    [PUBOMatrix] in the state of its class, over the indices [0, ..., n-1]
    only, and at every boolean assignment its value is the sum of the terms
    of the [PUBO] with each label replaced by its index. *)
Theorem to_pubo_shape (self : pubo) :
  (forall kp v, In (kp, v) (terms self) ->
                forall l, In l kp -> In l (labels self)) ->
  exists P l,
    to_pubo self = Ok P /\ mapped_terms self (terms self) = Ok l
    /\ cls P = PUBOMatrix /\ wf_poly P
    /\ index_bound (num_binary_variables self) (items P)
    /\ forall x, boolean x -> value (items P) x = value l x.
Proof.
  intros H. destruct (mapped_terms_known self (terms self) H) as (l & Hl).
  exists (mkPoly PUBOMatrix (accumulate [] (squashed BINARY l))), l.
  assert (Hb : index_bound (num_binary_variables self) l).
  { apply Forall_forall. intros [k v] Hin. apply Forall_forall. intros i Hi.
    eapply mapped_terms_bound; eauto. }
  repeat match goal with |- _ /\ _ => split end; auto.
  - apply to_pubo_fold, Hl.
  - apply wf_accumulate; [apply wf_nil|].
    unfold squashed. apply Forall_map. apply Forall_forall. intros [k v] _.
    simpl. split; [apply (canonical_strict BINARY) | discriminate].
  - apply index_bound_accumulate; [constructor|].
    now apply index_bound_squashed.
  - intros x Hx. simpl. rewrite value_accumulate. simpl.
    rewrite value_squashed by exact Hx. ring.
Qed.

Lemma to_pubo_shape_example :
  exists P l,
    to_pubo doc_pubo = Ok P /\ mapped_terms doc_pubo (terms doc_pubo) = Ok l
    /\ cls P = PUBOMatrix /\ wf_poly P
    /\ index_bound (num_binary_variables doc_pubo) (items P)
    /\ forall x, boolean x -> value (items P) x = value l x.
Proof.
  apply (to_pubo_shape doc_pubo).
  simpl. intros kp v [E|[E|[E|[]]]] l Hl; injection E as <- _;
    simpl in *; tauto.
Defined.

(** ** [convert_solution] on other solutions *)

(** X14.  A solution that lacks the value of an original variable makes
    [convert_solution] raise the error of the subscript. *)
Theorem convert_solution_missing (self : pubo) (sol : solution) (i : nat) :
  (i < num_binary_variables self)%nat -> sol i = None ->
  convert_solution self sol = Raise KeyNotFound.
Proof.
  intros Hi Hnone. unfold convert_solution.
  assert (G : forall len s acc,
             (s + len = num_binary_variables self)%nat -> (s <= i)%nat ->
             foldM (fun res i =>
                      l <- _reverse_mapping self i ;;
                      match sol i with
                      | Some s => Ok (dict_set label_eq_dec res l
                                        (if Z.eq_dec s 1 then 1%Z else 0%Z))
                      | None => Raise KeyNotFound
                      end) (seq s len) acc = Raise KeyNotFound).
  { induction len as [|len IH]; intros s acc Hs Hle; [lia|].
    cbn [seq foldM]. unfold _reverse_mapping at 1.
    destruct (nth_error (labels self) s) as [l|] eqn:El.
    - cbn [bind]. destruct (sol s) as [b|] eqn:Es; [|reflexivity].
      cbn [bind]. apply IH; [lia|].
      destruct (Nat.eq_dec s i) as [->|]; [congruence | lia].
    - apply nth_error_None in El. unfold num_binary_variables in Hs. lia. }
  apply (G _ 0%nat); lia.
Qed.

Lemma convert_solution_missing_example :
  convert_solution doc_pubo (of_list [1; 0]%Z) = Raise KeyNotFound.
Proof.
  apply (convert_solution_missing doc_pubo (of_list [1; 0]%Z) 2);
    [unfold num_binary_variables; simpl; lia | reflexivity].
Defined.

(** X15.  [convert_solution] reads a spin solution as the binary one it stands
    for: the solution holding [2 s_i - 1] at every index gives the same
    result as the one holding [s_i]. *)
Theorem convert_solution_spin (self : pubo) (s : nat -> Z) :
  convert_solution self (full (fun i => (2 * s i - 1)%Z))
  = convert_solution self (full s).
Proof.
  unfold convert_solution, full. apply foldM_ext_in. intros acc i _.
  destruct (_reverse_mapping self i) as [l|e]; [|reflexivity]. cbn [bind].
  destruct (Z.eq_dec (2 * s i - 1) 1), (Z.eq_dec (s i) 1); try reflexivity; lia.
Qed.

(** * The other functions of [utils/_conversions.py] *)

(** ** [binary_to_spin] and [spin_to_binary] *)

Section Tables.
Variables c1 c2 : dict Z Z.
Hypothesis Hinv : forall v w, lookup c1 v = Return w -> lookup c2 w = Return v.

Lemma omapM_lookup_inv (l l' : list Z) :
  omapM (lookup c1) l = Return l' -> omapM (lookup c2) l' = Return l.
Proof.
  revert l'; induction l as [|v t IH]; simpl; intros l' H.
  - injection H as <-. reflexivity.
  - destruct (lookup c1 v) as [w|e] eqn:Ev; [|discriminate]. simpl in H.
    destruct (omapM (lookup c1) t) as [ws|e]; [|discriminate]. simpl in H.
    injection H as <-. simpl. rewrite (Hinv _ _ Ev). simpl.
    now rewrite (IH ws eq_refl).
Qed.

Lemma convert_fold_inv :
  forall (d res out : dict label Z),
    NoDup (keys res ++ keys d) ->
    ofoldM (fun res '(k, v) =>
              obind (lookup c1 v)
                    (fun w => Return (dict_set label_eq_dec res k w))) d res
    = Return out ->
    exists d',
      out = res ++ d'
      /\ forall res2, NoDup (keys res2 ++ keys d) ->
           ofoldM (fun res '(k, v) =>
                     obind (lookup c2 v)
                           (fun w => Return (dict_set label_eq_dec res k w))) d' res2
           = Return (res2 ++ d).
Proof.
  induction d as [|[k v] t IH]; intros res out Hnd H; cbn [ofoldM] in H.
  - injection H as <-. exists []. split; [now rewrite app_nil_r|].
    intros res2 _. simpl. now rewrite app_nil_r.
  - destruct (lookup c1 v) as [w|e] eqn:Ev; [|discriminate]. cbn [obind] in H.
    assert (Hfresh : forall r : dict label Z,
               NoDup (keys r ++ keys ((k, v) :: t)) ->
               forall u, dict_set label_eq_dec r k u = r ++ [(k, u)]
                         /\ NoDup (keys (r ++ [(k, u)]) ++ keys t)).
    { intros r Hr u. split.
      - apply dict_set_fresh, dict_get_None. simpl in Hr.
        apply NoDup_remove_2 in Hr. intros Hin. apply Hr, in_or_app. now left.
      - unfold keys in *. rewrite map_app. simpl in *.
        now rewrite <- app_assoc. }
    destruct (Hfresh res Hnd w) as [E1 N1]. rewrite E1 in H.
    destruct (IH _ _ N1 H) as (d' & -> & Hback).
    exists ((k, w) :: d'). split; [now rewrite <- app_assoc|].
    intros res2 Hnd2. cbn [ofoldM]. rewrite (Hinv _ _ Ev). cbn [obind].
    destruct (Hfresh res2 Hnd2 v) as [E2 N2]. rewrite E2.
    rewrite (Hback _ N2). now rewrite <- app_assoc.
Qed.

Lemma convert_arg_inv (x z : pyarg) :
  wf_arg x -> convert_arg c1 x = Return z -> convert_arg c2 z = Return x.
Proof.
  destruct x as [v|d|t l]; simpl; intros Hwf H.
  - unfold dict_mem in H.
    destruct (lookup c1 v) as [w|e] eqn:Ev.
    + unfold lookup in Ev.
      destruct (dict_get Z.eq_dec c1 v) as [w'|] eqn:Eg; [|discriminate].
      injection Ev as ->. simpl in H. injection H as <-. simpl.
      assert (Ew : lookup c2 w = Return v)
        by (apply Hinv; unfold lookup; now rewrite Eg).
      rewrite Ew. unfold dict_mem. unfold lookup in Ew.
      destruct (dict_get Z.eq_dec c2 w); [reflexivity | discriminate].
    + unfold lookup in Ev. destruct (dict_get Z.eq_dec c1 v); discriminate.
  - unfold omap in H.
    match type of H with
    | obind ?r _ = _ => destruct r as [out|e] eqn:Ef; [|discriminate]
    end.
    simpl in H. injection H as <-.
    destruct (convert_fold_inv d [] out Hwf Ef) as (d' & -> & Hback).
    simpl. unfold omap. now rewrite (Hback [] Hwf).
  - unfold omap in H.
    destruct (omapM (lookup c1) l) as [l'|e] eqn:El; [|discriminate].
    simpl in H. injection H as <-. simpl. unfold omap.
    now rewrite (omapM_lookup_inv _ _ El).
Qed.
End Tables.

Lemma lookup_binary (v : Z) :
  lookup [(0, -1); (1, 1)]%Z v
  = if Z.eq_dec v 0 then Return (-1)%Z
    else if Z.eq_dec v 1 then Return 1%Z else Throw KeyError.
Proof.
  unfold lookup. simpl. destruct (Z.eq_dec v 0), (Z.eq_dec v 1); reflexivity.
Qed.

Lemma lookup_spin (v : Z) :
  lookup [(-1, 0); (1, 1)]%Z v
  = if Z.eq_dec v (-1) then Return 0%Z
    else if Z.eq_dec v 1 then Return 1%Z else Throw KeyError.
Proof.
  unfold lookup. simpl. destruct (Z.eq_dec v (-1)), (Z.eq_dec v 1); reflexivity.
Qed.

(** X16.  [spin_to_binary] undoes [binary_to_spin], and [binary_to_spin] undoes
    [spin_to_binary], on an integer, a dictionary, a list or a tuple: whenever
    the first conversion returns, the second returns the argument, of the same
    type and in the same order. *)
Theorem spin_to_binary_binary_to_spin (x z : pyarg) :
  wf_arg x ->
  (binary_to_spin x = Return z -> spin_to_binary z = Return x)
  /\ (spin_to_binary x = Return z -> binary_to_spin z = Return x).
Proof.
  intros Hwf. split; apply convert_arg_inv; auto; intros v w;
    rewrite lookup_binary, lookup_spin;
    repeat match goal with
           | |- context [Z.eq_dec ?a ?b] => destruct (Z.eq_dec a b)
           end; intros H; try discriminate H; injection H as <-;
    try reflexivity; try lia; congruence.
Qed.

Lemma spin_to_binary_binary_to_spin_example :
  (binary_to_spin (Dict [(LStr "a"%string, 0%Z); (LStr "b"%string, 1%Z)])
   = Return (Dict [(LStr "a"%string, (-1)%Z); (LStr "b"%string, 1%Z)]) ->
   spin_to_binary (Dict [(LStr "a"%string, (-1)%Z); (LStr "b"%string, 1%Z)])
   = Return (Dict [(LStr "a"%string, 0%Z); (LStr "b"%string, 1%Z)]))
  /\ (spin_to_binary (Dict [(LStr "a"%string, 0%Z); (LStr "b"%string, 1%Z)])
      = Return (Dict [(LStr "a"%string, (-1)%Z); (LStr "b"%string, 1%Z)]) ->
      binary_to_spin (Dict [(LStr "a"%string, (-1)%Z); (LStr "b"%string, 1%Z)])
      = Return (Dict [(LStr "a"%string, 0%Z); (LStr "b"%string, 1%Z)])).
Proof.
  apply (spin_to_binary_binary_to_spin
           (Dict [(LStr "a"%string, 0%Z); (LStr "b"%string, 1%Z)])).
  simpl. repeat constructor; simpl; intuition discriminate.
Defined.

Lemma omapM_lookup_binary (l : list Z) :
  (Forall bit l ->
   omapM (lookup [(0, -1); (1, 1)]%Z) l = Return (map (fun b => (2 * b - 1)%Z) l))
  /\ (Exists (fun b => ~ bit b) l ->
      omapM (lookup [(0, -1); (1, 1)]%Z) l = Throw KeyError).
Proof.
  induction l as [|b t [IH1 IH2]]; cbn [omapM map].
  - split; [reflexivity|]. intros H. inversion H.
  - rewrite lookup_binary. split.
    + intros H. inversion H as [|? ? Hb Ht]; subst. rewrite (IH1 Ht).
      destruct Hb as [-> | ->]; reflexivity.
    + intros H. destruct (Z.eq_dec b 0) as [->|H0]; [|destruct (Z.eq_dec b 1) as [->|H1]].
      * inversion H as [? ? Hb|? ? Ht]; subst; [exfalso; apply Hb; now left|].
        now rewrite (IH2 Ht).
      * inversion H as [? ? Hb|? ? Ht]; subst; [exfalso; apply Hb; now right|].
        now rewrite (IH2 Ht).
      * reflexivity.
Qed.

(** X17.  On a list or a tuple of bits [binary_to_spin] returns, with the same
    type, the spins [2b - 1] in the same order; if an element is neither 0 nor
    1 it raises [KeyError]; and on an integer that is neither 0 nor 1 it
    raises [TypeError]. *)
Theorem binary_to_spin_outcome (t : seq_type) (l : list Z) (z : Z) :
  (Forall bit l ->
   binary_to_spin (Seq t l) = Return (Seq t (map (fun b => (2 * b - 1)%Z) l)))
  /\ (Exists (fun b => ~ bit b) l -> binary_to_spin (Seq t l) = Throw KeyError)
  /\ (~ bit z -> binary_to_spin (Num z) = Throw TypeError).
Proof.
  destruct (omapM_lookup_binary l) as [H1 H2].
  unfold binary_to_spin, convert_arg, omap.
  split; [|split].
  - intros H. now rewrite (H1 H).
  - intros H. now rewrite (H2 H).
  - intros H. unfold dict_mem. simpl.
    destruct (Z.eq_dec z 0) as [->|]; [exfalso; apply H; now left|].
    destruct (Z.eq_dec z 1) as [->|]; [exfalso; apply H; now right|].
    reflexivity.
Qed.

Lemma binary_to_spin_outcome_example :
  binary_to_spin (Seq PyList [0; 1; 1]%Z) = Return (Seq PyList [-1; 1; 1]%Z)
  /\ binary_to_spin (Seq PyTuple [0; 2]%Z) = Throw KeyError
  /\ binary_to_spin (Num 2) = Throw TypeError.
Proof.
  split; [|split].
  - apply (proj1 (binary_to_spin_outcome PyList [0; 1; 1]%Z 2)).
    repeat constructor; unfold bit; lia.
  - apply (proj1 (proj2 (binary_to_spin_outcome PyTuple [0; 2]%Z 2))).
    apply Exists_cons_tl, Exists_cons_hd. unfold bit. lia.
  - apply (proj2 (proj2 (binary_to_spin_outcome PyList [] 2))).
    unfold bit. lia.
Defined.

(** ** [decimal_to_binary] and [decimal_to_spin] *)

Section Decimal.
Local Close Scope Qc_scope.
Local Open Scope Z_scope.

Lemma of_digits_app (l : list Z) (x : Z) :
  of_digits (l ++ [x]) = 2 * of_digits l + x.
Proof. unfold of_digits. now rewrite fold_left_app. Qed.

Lemma of_digits_bin (p : positive) : of_digits (bin_digits p) = Zpos p.
Proof.
  induction p as [q IH|q IH|]; simpl; [| |reflexivity];
    rewrite of_digits_app, IH; lia.
Qed.

Lemma of_digits_zeros (k : nat) (l : list Z) :
  of_digits (repeat 0 k ++ l) = of_digits l.
Proof.
  unfold of_digits. rewrite fold_left_app. f_equal.
  induction k as [|k IH]; simpl; auto.
Qed.

Lemma bin_digits_bits (p : positive) : Forall bit (bin_digits p).
Proof.
  induction p as [q IH|q IH|]; simpl.
  - apply Forall_app. split; [exact IH|].
    apply Forall_cons; [now right | apply Forall_nil].
  - apply Forall_app. split; [exact IH|].
    apply Forall_cons; [now left | apply Forall_nil].
  - apply Forall_cons; [now right | apply Forall_nil].
Qed.

Lemma bin_digits_size (p : positive) :
  2 ^ Z.of_nat (length (bin_digits p)) <= 2 * Zpos p
  /\ Zpos p < 2 ^ Z.of_nat (length (bin_digits p)).
Proof.
  induction p as [q IH|q IH|]; simpl bin_digits;
    [| |simpl; lia];
    rewrite length_app, Nat.add_1_r, Nat2Z.inj_succ, Z.pow_succ_r by lia; lia.
Qed.

Lemma bin_bits (d : Z) : Forall bit (bin d).
Proof.
  destruct d; simpl; try (apply Forall_cons; [now left | apply Forall_nil]).
  apply bin_digits_bits.
Qed.

Lemma of_digits_bin_Z (d : Z) : 0 <= d -> of_digits (bin d) = d.
Proof.
  destruct d; simpl; intros H; [reflexivity | apply of_digits_bin | lia].
Qed.

(** The number of digits of [bin(d)[2:]] against the powers of 2. *)
Lemma bin_length (d n : Z) :
  0 <= d -> 0 < n -> (Z.of_nat (length (bin d)) <= n <-> d < 2 ^ n).
Proof.
  intros Hd Hn. destruct d as [|p|p]; [| |lia].
  - simpl. split; intros _; [apply Z.pow_pos_nonneg; lia | lia].
  - simpl bin. destruct (bin_digits_size p) as [H1 H2]. split; intros H.
    + eapply Z.lt_le_trans; [exact H2|]. apply Z.pow_le_mono_r; lia.
    + destruct (Z.le_gt_cases (Z.of_nat (length (bin_digits p))) n) as [|Hgt];
        [assumption|].
      assert (2 ^ (n + 1) <= 2 ^ Z.of_nat (length (bin_digits p)))
        by (apply Z.pow_le_mono_r; lia).
      rewrite Z.pow_add_r, Z.pow_1_r in * by lia. lia.
Qed.

Lemma bin_length_pos (d : Z) : 0 < Z.of_nat (length (bin d)).
Proof.
  destruct d as [|p|p]; simpl; try lia.
  destruct p; simpl; rewrite ?length_app; simpl; lia.
Qed.

(** X18.  For [0 <= d < 2^num_bits] and [num_bits >= 1], [decimal_to_binary]
    returns exactly [num_bits] digits, each 0 or 1, that write [d] with the
    most significant digit first. *)
Theorem decimal_to_binary_digits (d num_bits : Z) :
  0 <= d -> 0 < num_bits -> d < 2 ^ num_bits ->
  exists b, decimal_to_binary d (Some num_bits) = Return b
            /\ Z.of_nat (length b) = num_bits
            /\ Forall bit b /\ of_digits b = d.
Proof.
  intros Hd Hn Hlt. unfold decimal_to_binary.
  destruct (Z.ltb_spec d 0); [lia|].
  pose proof (proj2 (bin_length d num_bits Hd Hn) Hlt) as Hlb.
  destruct (Z.ltb_spec num_bits (Z.of_nat (length (bin d)))); [lia|].
  eexists. split; [reflexivity|]. split; [|split].
  - rewrite length_app, repeat_length, Nat2Z.inj_add, Z2Nat.id; lia.
  - apply Forall_app. split; [|apply bin_bits].
    apply Forall_forall. intros x Hx. apply repeat_spec in Hx. now left.
  - rewrite of_digits_zeros. now apply of_digits_bin_Z.
Qed.

Lemma decimal_to_binary_digits_example :
  exists b, decimal_to_binary 10 (Some 7) = Return b
            /\ Z.of_nat (length b) = 7
            /\ Forall bit b /\ of_digits b = 10.
Proof.
  apply (decimal_to_binary_digits 10 7); [lia | lia | reflexivity].
Defined.

(** X19.  [decimal_to_binary] raises [ValueError] when [d] is negative, when
    [num_bits] is not positive (even for [d = 0], whose representation is the
    digit 0), and when [d >= 2^num_bits]. *)
Theorem decimal_to_binary_rejects (d num_bits : Z) :
  d < 0 \/ num_bits <= 0 \/ 2 ^ num_bits <= d ->
  decimal_to_binary d (Some num_bits) = Throw ValueError.
Proof.
  intros H. unfold decimal_to_binary.
  destruct (Z.ltb_spec d 0) as [|Hd]; [reflexivity|].
  pose proof (bin_length_pos d) as Hpos.
  destruct (Z.ltb_spec num_bits (Z.of_nat (length (bin d)))) as [|Hle];
    [reflexivity|].
  exfalso. destruct H as [H|[H|H]]; [lia | lia |].
  assert (Hn : 0 < num_bits) by lia.
  apply (bin_length d num_bits Hd Hn) in Hle. lia.
Qed.

Lemma decimal_to_binary_rejects_example :
  decimal_to_binary 0 (Some 0) = Throw ValueError.
Proof. apply (decimal_to_binary_rejects 0 0). lia. Defined.

(** X20.  Without [num_bits], [decimal_to_binary] returns the digits of [d] with no
    leading zero (the single digit 0 for [d = 0]): they write [d], and no
    call with a [num_bits] returns fewer. *)
Theorem decimal_to_binary_default (d : Z) :
  0 <= d ->
  exists b, decimal_to_binary d None = Return b
            /\ Forall bit b /\ of_digits b = d
            /\ (0 < d -> hd 0 b = 1)
            /\ forall n b', decimal_to_binary d (Some n) = Return b' ->
                            (length b <= length b')%nat.
Proof.
  intros Hd. unfold decimal_to_binary.
  destruct (Z.ltb_spec d 0); [lia|].
  rewrite Z.sub_diag. simpl repeat. simpl app.
  exists (bin d). split; [reflexivity|]. split; [apply bin_bits|].
  split; [now apply of_digits_bin_Z|]. split.
  - destruct d as [|p|p]; try lia. intros _. simpl.
    induction p as [q IH|q IH|]; simpl; [| |reflexivity];
      destruct (bin_digits q); simpl in *; auto; discriminate.
  - intros n b'.
    destruct (Z.ltb_spec n (Z.of_nat (length (bin d)))); [discriminate|].
    intros [= <-]. rewrite length_app. lia.
Qed.

Lemma decimal_to_binary_default_example :
  exists b, decimal_to_binary 10 None = Return b
            /\ Forall bit b /\ of_digits b = 10
            /\ (0 < 10 -> hd 0 b = 1)
            /\ forall n b', decimal_to_binary 10 (Some n) = Return b' ->
                            (length b <= length b')%nat.
Proof. apply (decimal_to_binary_default 10). lia. Defined.

Lemma decimal_to_binary_bits (d : Z) (num_bits : option Z) (b : list Z) :
  decimal_to_binary d num_bits = Return b -> Forall bit b.
Proof.
  unfold decimal_to_binary. destruct (Z.ltb_spec d 0); [discriminate|].
  assert (G : forall k, Forall bit (repeat 0 k ++ bin d)).
  { intros k. apply Forall_app. split; [|apply bin_bits].
    apply Forall_forall. intros x Hx. apply repeat_spec in Hx. now left. }
  destruct num_bits as [n|].
  - destruct (Z.ltb_spec n (Z.of_nat (length (bin d)))); [discriminate|].
    intros [= <-]. apply G.
  - intros [= <-]. apply G.
Qed.

(** X21.  [decimal_to_spin] returns exactly when [decimal_to_binary] does, the
    tuple of the spins [2b - 1] of its digits [b], and raises what it raises
    otherwise: the lookup in the table never fails on a digit. *)
Theorem decimal_to_spin_outcome (d : Z) (num_spins : option Z) :
  decimal_to_spin d num_spins
  = match decimal_to_binary d num_spins with
    | Return b => Return (Seq PyTuple (map (fun x => 2 * x - 1) b))
    | Throw e => Throw e
    end.
Proof.
  unfold decimal_to_spin.
  destruct (decimal_to_binary d num_spins) as [b|e] eqn:E; [|reflexivity].
  cbn [obind]. unfold binary_to_spin, convert_arg, omap.
  now rewrite (proj1 (omapM_lookup_binary b) (decimal_to_binary_bits _ _ _ E)).
Qed.
End Decimal.

(** ** [matrix_to_qubo] *)

(** X23.  [matrix_to_qubo] raises [ValueError] on the empty list and whenever a
    row has not as many entries as there are rows. *)
Theorem matrix_to_qubo_rejects (matrix : list (list Qc)) :
  matrix = [] \/ Exists (fun row => length row <> length matrix) matrix ->
  matrix_to_qubo matrix = Throw ValueError.
Proof.
  intros [->|H]; [reflexivity|].
  unfold matrix_to_qubo, shape.
  destruct matrix as [|row rest]; [reflexivity|].
  destruct (forallb (fun r => (length r =? length row)%nat) rest) eqn:E;
    [|reflexivity].
  destruct (Nat.eqb_spec (length (row :: rest)) (length row)) as [Hn|];
    [|reflexivity].
  exfalso. rewrite forallb_forall in E.
  apply Exists_exists in H. destruct H as (r & [<-|Hr] & Hlen).
  - congruence.
  - apply E, Nat.eqb_eq in Hr. congruence.
Qed.

Lemma matrix_to_qubo_rejects_example :
  matrix_to_qubo [[1; two]] = Throw ValueError.
Proof.
  apply (matrix_to_qubo_rejects [[1; two]]). right.
  apply Exists_cons_hd. simpl. lia.
Defined.

(** ** A [QUBOMatrix] and its spin model at a list solution *)

Lemma qubo_to_ising_terms_sub (k : key) (v : Qc) (k' : key) (v' : Qc) (i : nat) :
  In (k', v') (qubo_to_ising_terms k v) -> In i k' -> In i k.
Proof.
  destruct k as [|a [|b [|? ?]]]; simpl; intros H Hi;
    repeat match goal with
           | H : _ \/ _ |- _ => destruct H as [H|H]
           | H : (_, _) = (_, _) |- _ => injection H as <- _
           | H : False |- _ => destruct H
           end; simpl in Hi; tauto.
Qed.

Lemma assignment_spin (l : list Z) (i : nat) :
  Forall bit l -> (i < length l)%nat ->
  assignment (map (fun b => (2 * b - 1)%Z) l) i = to_spin (assignment l) i.
Proof.
  intros Hl Hi. unfold assignment, to_spin.
  assert (E : nth i (map (fun b => (2 * b - 1)%Z) l) 0%Z = (2 * nth i l 0 - 1)%Z).
  { clear Hl. revert i Hi. induction l as [|b t IH]; simpl; intros i Hi; [lia|].
    destruct i as [|i]; [reflexivity|]. apply IH. lia. }
  rewrite E. rewrite Forall_forall in Hl. destruct (Hl (nth i l 0%Z)) as [-> | ->];
    [apply nth_In, Hi | |]; apply Qc_is_canon; reflexivity.
Qed.

(** Over the rationals: for a list (or tuple) [x] of bits that covers the
    indices of a [QUBOMatrix] [Q], the value of [Q] at [x] is the value of the
    result of [qubo_to_ising] at [binary_to_spin(x)]. *)
Lemma qubo_to_ising_binary_to_spin (Q : poly) (t : seq_type) (x : list Z) :
  cls Q = QUBOMatrix -> wf_poly Q -> index_bound (length x) (items Q) ->
  Forall bit x ->
  exists L z,
    qubo_to_ising Q = Ok L /\ binary_to_spin (Seq t x) = Return (Seq t z)
    /\ value (items L) (assignment z) = value (items Q) (assignment x).
Proof.
  intros Hc HQ HB Hx. pose proof (wf_canon _ HQ) as Hk. rewrite Hc in Hk.
  exists (mkPoly IsingMatrix (accumulate [] (expand qubo_to_ising_terms (items Q)))),
    (map (fun b => (2 * b - 1)%Z) x).
  split; [rewrite qubo_to_ising_accumulate by exact Hk; now rewrite Hc|].
  split; [unfold binary_to_spin, convert_arg, omap;
          now rewrite (proj1 (omapM_lookup_binary x) Hx)|].
  cbn [items]. rewrite value_accumulate. simpl value at 1. rewrite Qcplus_0_l.
  apply value_expand. apply Forall_forall. intros [k v] Hin. cbn [fst snd].
  unfold index_bound in HB. rewrite Forall_forall in Hk, HB.
  specialize (Hk _ Hin). specialize (HB _ Hin). cbn [fst] in Hk, HB.
  rewrite <- (qubo_to_ising_terms_value k v (assignment x) Hk).
  apply value_ext. intros k' v' i Hin' Hi.
  apply assignment_spin; [exact Hx|].
  rewrite Forall_forall in HB. apply HB.
  eapply qubo_to_ising_terms_sub; eauto.
Qed.


(** ** The class [Conversions] *)

(** X25.  A subclass that defines neither [to_qubo] nor [to_ising] gets
    [RecursionError] from both, whatever the recursion limit; and so for
    [to_pubo] and [to_hising]. *)
Theorem Conversions_neither {args : Type} (self : Conversions.subclass args)
  (a : args) (depth : nat) :
  (Conversions.own_to_qubo self = None -> Conversions.own_to_ising self = None ->
   Conversions.to_qubo depth self a = Throw RecursionError
   /\ Conversions.to_ising depth self a = Throw RecursionError)
  /\ (Conversions.own_to_pubo self = None -> Conversions.own_to_hising self = None ->
      Conversions.to_pubo depth self a = Throw RecursionError
      /\ Conversions.to_hising depth self a = Throw RecursionError).
Proof.
  split; intros H1 H2; induction depth as [|d [IH1 IH2]]; simpl;
    rewrite H1, H2; auto; rewrite ?IH1, ?IH2; auto.
Qed.

Lemma Conversions_neither_example :
  (Conversions.to_qubo 1000 Conversions.bare tt = Throw RecursionError
   /\ Conversions.to_ising 1000 Conversions.bare tt = Throw RecursionError)
  /\ (Conversions.to_pubo 1000 Conversions.bare tt = Throw RecursionError
      /\ Conversions.to_hising 1000 Conversions.bare tt = Throw RecursionError).
Proof.
  split.
  - apply (proj1 (Conversions_neither Conversions.bare tt 1000)); reflexivity.
  - apply (proj2 (Conversions_neither Conversions.bare tt 1000)); reflexivity.
Defined.


(** ** When [to_qubo] returns *)



(** ** Spin dictionaries that are not matrix objects *)

Lemma to_spin_spin (x : nat -> Qc) : boolean x -> spin (to_spin x).
Proof.
  intros Hx i. unfold to_spin. destruct (Hx i) as [-> | ->]; qc_field.
Qed.

(** Changing a filter at one element of a list without repetition. *)
Lemma mono_filter_flip (a : nat -> Qc) (x : nat) (P P' : nat -> bool) :
  spin a ->
  (forall i, i <> x -> P' i = P i) -> P' x = negb (P x) ->
  forall l, NoDup l -> In x l ->
            mono a (filter P' l) = a x * mono a (filter P l).
Proof.
  intros Ha Hne Hx. induction l as [|y l IH]; intros Hnd Hin; [destruct Hin|].
  inversion Hnd as [|? ? Hy Hnd']; subst.
  destruct (Nat.eq_dec y x) as [->|Hyx].
  - assert (E : filter P' l = filter P l).
    { apply filter_ext_in. intros i Hi. apply Hne. intros ->. contradiction. }
    simpl. rewrite Hx, E. destruct (P x); simpl; [|reflexivity].
    rewrite Qcmult_assoc, Ha. ring.
  - destruct Hin as [->|Hin]; [congruence|].
    simpl. rewrite (Hne y Hyx). destruct (P y); simpl; rewrite IH by assumption; ring.
Qed.

Lemma mono_canonical_spin (a : nat -> Qc) (k : key) :
  spin a -> mono a (canonical SPIN k) = mono a k.
Proof.
  intros Ha. simpl. rewrite mono_sorted.
  induction k as [|x t IH]; [reflexivity|].
  cbn [mono]. rewrite <- IH. clear IH.
  cbn [nodup]. destruct (in_dec Nat.eq_dec x t) as [Hin|Hnin].
  - apply mono_filter_flip; auto.
    + intros i Hi. simpl. destruct (Nat.eq_dec x i); [congruence | reflexivity].
    + simpl. destruct (Nat.eq_dec x x); [|congruence].
      now rewrite Nat.odd_succ, <- Nat.negb_odd.
    + apply NoDup_nodup.
    + now apply nodup_In.
  - cbn [filter]. simpl count_occ at 1.
    destruct (Nat.eq_dec x x); [|congruence].
    rewrite (proj1 (count_occ_not_In Nat.eq_dec t x) Hnin).
    change (Nat.odd 1) with true. cbn iota. cbn [mono].
    f_equal. f_equal. apply filter_ext_in. intros i Hi.
    apply nodup_In in Hi. simpl.
    destruct (Nat.eq_dec x i); [congruence | reflexivity].
Qed.

Lemma value_squashed_spin (a : nat -> Qc) (l : list (key * Qc)) :
  spin a -> value (squashed SPIN l) a = value l a.
Proof.
  intros Ha. induction l as [|[k v] t IH]; simpl; [reflexivity|].
  fold (canonical SPIN k). now rewrite mono_canonical_spin, IH.
Qed.

Lemma ising_to_qubo_body (Q : poly) (k : key) (v : Qc) :
  match k with
  | [] => iadd_item Q (Tup k) v
  | [_] => Q <- iadd_item Q (Tup k) (two * v) ;; isub_item Q (Tup []) v
  | [i; j] =>
      Q <- iadd_item Q (Tup k) (four * v) ;;
      Q <- isub_item Q (Tup [i]) (two * v) ;;
      Q <- isub_item Q (Tup [j]) (two * v) ;;
      iadd_item Q (Tup []) v
  | _ => Ok Q
  end = iadd Q (ising_to_qubo_terms k v).
Proof.
  unfold iadd.
  destruct k as [|i [|j [|? ?]]]; simpl; rewrite ?bind_Ok_r;
    try reflexivity; bind_chain.
Qed.

(** Over the rationals, [ising_to_qubo] on any dictionary, whatever its
    keys: a key is first reduced to the indices that occur in it an odd number
    of times; it raises if more than two remain for some key, and otherwise
    returns a container in the state of its class with the value of the terms
    as written. *)
Lemma ising_to_qubo_any_dict (L : poly) :
  (Exists (fun kv => (2 < length (canonical SPIN (fst kv)))%nat) (items L) ->
   ising_to_qubo L = Raise InvalidTermDegree)
  /\ (Forall (fun kv => (length (canonical SPIN (fst kv)) <= 2)%nat) (items L) ->
      exists Q, ising_to_qubo L = Ok Q
                /\ cls Q = (if pyclass_eq_dec (cls L) IsingMatrix
                            then QUBOMatrix else QUBO)
                /\ wf_poly Q
                /\ forall x, boolean x ->
                             value (items Q) x = value (items L) (to_spin x)).
Proof.
  assert (G : forall c, bounded_degree c = true -> forall k v, okkey IsingMatrix k ->
                 Forall (fun kv => okkey c (fst kv)) (ising_to_qubo_terms k v)).
  { intros c Hc k v Hk.
    apply (quadratic_terms_okkey c k (okkey_bounded IsingMatrix c k (eq_sym Hc) Hk)). }
  assert (F : forall c_sq c_out,
             algebra_of c_sq = SPIN -> bounded_degree c_sq = true ->
             bounded_degree c_out = true ->
             forall body,
               body = (fun (Q : poly) (k : key) (v : Qc) =>
                         match k with
                         | [] => iadd_item Q (Tup k) v
                         | [_] => Q <- iadd_item Q (Tup k) (two * v) ;;
                                  isub_item Q (Tup []) v
                         | [i; j] =>
                             Q <- iadd_item Q (Tup k) (four * v) ;;
                             Q <- isub_item Q (Tup [i]) (two * v) ;;
                             Q <- isub_item Q (Tup [j]) (two * v) ;;
                             iadd_item Q (Tup []) v
                         | _ => Ok Q
                         end) ->
             (Exists (fun kv => (2 < length (canonical SPIN (fst kv)))%nat) (items L) ->
              foldM (fun Q '(kp, v) => k <- squash_key c_sq (Tup kp) ;; body Q k v)
                    (items L) (new c_out)
              = Raise InvalidTermDegree)
             /\ (Forall (fun kv => (length (canonical SPIN (fst kv)) <= 2)%nat) (items L) ->
                 exists Q,
                   foldM (fun Q '(kp, v) => k <- squash_key c_sq (Tup kp) ;; body Q k v)
                         (items L) (new c_out) = Ok Q
                   /\ cls Q = c_out /\ wf_poly Q
                   /\ forall x, boolean x ->
                                value (items Q) x = value (items L) (to_spin x))).
  { intros c_sq c_out Ha Hb Hb' body ->.
    destruct (foldM_convert_raw c_sq c_out ising_to_qubo_terms _
                (fun Q k v _ _ => ising_to_qubo_body Q k v)
                (fun k v Hk => G c_out Hb' k v (okkey_bounded c_sq IsingMatrix k Hb Hk))
                (items L) []) as [F1 F2].
    rewrite Ha in F1, F2. split.
    - intros HE. apply F2. eapply Exists_impl; [|exact HE]. simpl. auto.
    - intros HF.
      assert (Hok : Forall (fun kv => okkey IsingMatrix (fst kv))
                           (squashed SPIN (items L))).
      { unfold squashed. apply Forall_map. eapply Forall_impl; [|exact HF].
        intros [k v] Hk. simpl in *. split; [apply (canonical_strict SPIN) | auto]. }
      eexists. split; [|split; [|split]].
      + apply F1. eapply Forall_impl; [|exact HF]. intros [k v] Hk. simpl in *.
        split; [apply (canonical_strict SPIN) | auto].
      + reflexivity.
      + apply wf_accumulate; [apply wf_nil|].
        eapply expand_okkey; [|exact Hok]. intros k v Hk. now apply G.
      + intros x Hx. simpl. rewrite value_accumulate. simpl. rewrite Qcplus_0_l.
        rewrite <- (value_squashed_spin (to_spin x) (items L) (to_spin_spin x Hx)).
        apply value_expand. eapply Forall_impl; [|exact Hok].
        intros [k v] Hk. simpl. now apply ising_to_qubo_terms_value. }
  unfold ising_to_qubo.
  destruct (pyclass_eq_dec (cls L) IsingMatrix); now apply F.
Qed.

(** Over the rationals, [hising_to_pubo] on any dictionary, whatever its
    keys and its degree. *)
Lemma hising_to_pubo_any_dict (H : poly) (x : nat -> Qc) :
  boolean x ->
  exists P, hising_to_pubo H = Ok P
            /\ cls P = (if pyclass_eq_dec (cls H) HIsingMatrix
                        then PUBOMatrix else PUBO)
            /\ wf_poly P
            /\ value (items P) x = value (items H) (to_spin x).
Proof.
  intros Hx.
  assert (F : forall c_sq c_out,
             algebra_of c_sq = SPIN -> bounded_degree c_sq = false ->
             bounded_degree c_out = false ->
             exists P,
               foldM (fun P '(k, v) =>
                        sk <- squash_key c_sq (Tup k) ;;
                        foldM (fun P '(key, value) => iadd_item P (Tup key) (value * v))
                              (hising_generate_new_key_value sk) P)
                     (items H) (new c_out) = Ok P
               /\ cls P = c_out /\ wf_poly P
               /\ value (items P) x = value (items H) (to_spin x)).
  { intros c_sq c_out Ha Hb Hb'.
    assert (Hok : forall c, bounded_degree c = false ->
                    Forall (fun kv => okkey c (fst kv)) (squashed SPIN (items H))).
    { intros c Hc. unfold squashed. apply Forall_map. apply Forall_forall.
      intros [k v] _. simpl. split; [apply (canonical_strict SPIN) | congruence]. }
    destruct (foldM_convert_raw c_sq c_out hising_to_pubo_terms
                (fun P k v => foldM (fun P '(key, value) =>
                                       iadd_item P (Tup key) (value * v))
                                    (hising_generate_new_key_value k) P)
                (fun P k v _ _ => foldM_scale v _ P)
                (fun k v Hk => hising_terms_okkey c_out k v Hb' (proj1 Hk))
                (items H) []) as [F1 _].
    rewrite Ha in F1.
    eexists. split; [|split; [|split]].
    - apply F1. apply Forall_forall. intros [k v] _. simpl.
      split; [apply (canonical_strict SPIN) | congruence].
    - reflexivity.
    - apply wf_accumulate; [apply wf_nil|].
      eapply expand_okkey; [|exact (Hok c_sq Hb)].
      intros k v Hk. apply hising_terms_okkey; [exact Hb' | exact (proj1 Hk)].
    - simpl. rewrite value_accumulate. simpl. rewrite Qcplus_0_l.
      rewrite <- (value_squashed_spin (to_spin x) (items H) (to_spin_spin x Hx)).
      apply value_expand. apply Forall_forall. intros [k v] _. simpl.
      unfold hising_to_pubo_terms. now rewrite value_scale, hising_generate_value. }
  unfold hising_to_pubo.
  destruct (pyclass_eq_dec (cls H) HIsingMatrix); now apply F.
Qed.


(** * The code on Python's numbers *)

(** ** Exact numbers *)

Lemma of_Z_add (x y : Z) : Py.of_Z (x + y) = Py.of_Z x + Py.of_Z y.
Proof.
  unfold Py.of_Z, Qcplus. apply Q2Qc_eq_iff. cbn [this Q2Qc].
  rewrite !Qred_correct, inject_Z_plus. reflexivity.
Qed.

Lemma of_Z_mul (x y : Z) : Py.of_Z (x * y) = Py.of_Z x * Py.of_Z y.
Proof.
  unfold Py.of_Z, Qcmult. apply Q2Qc_eq_iff. cbn [this Q2Qc].
  rewrite !Qred_correct, inject_Z_mult. reflexivity.
Qed.

Lemma of_Z_opp (x : Z) : Py.of_Z (- x) = - Py.of_Z x.
Proof.
  unfold Py.of_Z, Qcopp. apply Q2Qc_eq_iff. cbn [this Q2Qc].
  rewrite !Qred_correct, inject_Z_opp. reflexivity.
Qed.

Lemma of_Z_sub (x y : Z) : Py.of_Z (x - y) = Py.of_Z x - Py.of_Z y.
Proof.
  unfold Z.sub, Qcminus. now rewrite of_Z_add, of_Z_opp.
Qed.

Lemma of_Z_neg (z : Z) : Py.of_Z z < 0 <-> (z < 0)%Z.
Proof.
  unfold Qclt, Py.of_Z. cbn [this Q2Qc]. rewrite Qred_correct.
  unfold Qlt. simpl. lia.
Qed.

Lemma of_Z_abs (z : Z) : Py.of_Z (Z.abs z) = Qcabs (Py.of_Z z).
Proof.
  unfold Qcabs. destruct (Qclt_le_dec (Py.of_Z z) 0) as [H|H].
  - apply (proj1 (of_Z_neg z)) in H.
    rewrite Z.abs_neq by (apply Z.lt_le_incl, H). apply of_Z_opp.
  - assert (~ (z < 0)%Z) as Hz.
    { intros Hz. apply (proj2 (of_Z_neg z)) in Hz. apply (Qclt_not_le _ _ Hz H). }
    now rewrite Z.abs_eq by (apply Z.nlt_ge, Hz).
Qed.

Lemma of_Z_1 : Py.of_Z 1 = 1.  Proof. apply Qc_is_canon. reflexivity. Qed.
Lemma of_Z_2 : Py.of_Z 2 = two.  Proof. apply Qc_is_canon. reflexivity. Qed.
Lemma of_Z_3 : Py.of_Z 3 = three.  Proof. apply Qc_is_canon. reflexivity. Qed.
Lemma of_Z_4 : Py.of_Z 4 = four.  Proof. apply Qc_is_canon. reflexivity. Qed.
Lemma of_Z_m2 : Py.of_Z (-2) = - two.  Proof. apply Qc_is_canon. reflexivity. Qed.

Lemma exactly_int (z : Z) : exactly false (Py.PyInt z) (Py.of_Z z).
Proof. split; reflexivity. Qed.

Lemma exactly_fraction (fr : bool) (q : Qc) : exactly fr (Py.Fraction q) q.
Proof. split; reflexivity. Qed.

Lemma exactly_inv (fr : bool) (a : Py.num) (q : Qc) :
  exactly fr a q ->
  (exists z, a = Py.PyInt z /\ fr = false /\ q = Py.of_Z z) \/ a = Py.Fraction q.
Proof.
  intros [He Hr]. destruct a as [z|f|p]; simpl in *.
  - left. exists z. injection Hr as <-. destruct fr; [discriminate|auto].
  - discriminate.
  - right. now injection Hr as <-.
Qed.

Lemma exactly_weaken (fr : bool) (a : Py.num) (q : Qc) :
  exactly fr a q -> exactly false a q.
Proof.
  intros H. destruct (exactly_inv _ _ _ H) as [(z & -> & _ & ->)| ->];
    [apply exactly_int | apply exactly_fraction].
Qed.

Lemma exact_exactly (fr : bool) (a : Py.num) :
  exact fr a = true -> exists q, exactly fr a q.
Proof.
  destruct a as [z|f|p]; simpl; intros H; try discriminate.
  - exists (Py.of_Z z). now split.
  - exists p. now split.
Qed.

(** The operations of the numeric tower on [int]s and [Fraction]s are those
    of the rationals. *)
Lemma binop_exact (fz : Z -> Z -> Z)
  (ff : SpecFloat.spec_float -> SpecFloat.spec_float -> SpecFloat.spec_float)
  (fq : Qc -> Qc -> Qc) (fa fb : bool) (a b : Py.num) (p q : Qc) :
  (forall x y, Py.of_Z (fz x y) = fq (Py.of_Z x) (Py.of_Z y)) ->
  exactly fa a p -> exactly fb b q ->
  exists c, Py.binop fz ff fq a b = Return c /\ exactly (fa || fb) c (fq p q).
Proof.
  intros Hz Ha Hb.
  destruct (exactly_inv _ _ _ Ha) as [(x & -> & -> & ->)| ->];
    destruct (exactly_inv _ _ _ Hb) as [(y & -> & -> & ->)| ->]; simpl.
  - eexists. split; [reflexivity|]. rewrite <- Hz. apply exactly_int.
  - eexists. split; [reflexivity|]. apply exactly_fraction.
  - eexists. split; [reflexivity|]. apply exactly_fraction.
  - eexists. split; [reflexivity|]. apply exactly_fraction.
Qed.

Lemma add_exact (fa fb : bool) (a b : Py.num) (p q : Qc) :
  exactly fa a p -> exactly fb b q ->
  exists c, Py.add a b = Return c /\ exactly (fa || fb) c (p + q).
Proof. apply binop_exact, of_Z_add. Qed.

Lemma sub_exact (fa fb : bool) (a b : Py.num) (p q : Qc) :
  exactly fa a p -> exactly fb b q ->
  exists c, Py.sub a b = Return c /\ exactly (fa || fb) c (p - q).
Proof. apply binop_exact, of_Z_sub. Qed.

Lemma mul_exact (fa fb : bool) (a b : Py.num) (p q : Qc) :
  exactly fa a p -> exactly fb b q ->
  exists c, Py.mul a b = Return c /\ exactly (fa || fb) c (p * q).
Proof. apply binop_exact, of_Z_mul. Qed.

(** [v / 2] and [v / 4] of a [Fraction] are [Fraction]s. *)
Lemma truediv_exact (a : Py.num) (p : Qc) (z : Z) :
  exactly true a p -> Py.of_Z z <> 0 ->
  Py.truediv a (Py.PyInt z) = Return (Py.Fraction (p / Py.of_Z z)).
Proof.
  intros Ha Hz.
  destruct (exactly_inv _ _ _ Ha) as [(x & _ & E & _)| ->]; [discriminate|].
  simpl. unfold Qc_eq_bool. now destruct (Qc_eq_dec (Py.of_Z z) 0).
Qed.

Lemma truediv_2 (a : Py.num) (p : Qc) :
  exactly true a p ->
  Py.truediv a (Py.PyInt 2) = Return (Py.Fraction (p / two)).
Proof.
  intros Ha. rewrite (truediv_exact a p 2 Ha), of_Z_2; [reflexivity|].
  rewrite of_Z_2. discriminate.
Qed.

Lemma truediv_4 (a : Py.num) (p : Qc) :
  exactly true a p ->
  Py.truediv a (Py.PyInt 4) = Return (Py.Fraction (p / four)).
Proof.
  intros Ha. rewrite (truediv_exact a p 4 Ha), of_Z_4; [reflexivity|].
  rewrite of_Z_4. discriminate.
Qed.

Lemma neg_exact (fr : bool) (a : Py.num) (p : Qc) :
  exactly fr a p -> exactly fr (Py.neg a) (- p).
Proof.
  intros Ha. destruct (exactly_inv _ _ _ Ha) as [(x & -> & -> & ->)| ->]; simpl.
  - rewrite <- of_Z_opp. apply exactly_int.
  - apply exactly_fraction.
Qed.

Lemma abs_exact (fr : bool) (a : Py.num) (p : Qc) :
  exactly fr a p -> exactly fr (Py.abs a) (Qcabs p).
Proof.
  intros Ha. destruct (exactly_inv _ _ _ Ha) as [(x & -> & -> & ->)| ->]; simpl.
  - rewrite <- of_Z_abs. apply exactly_int.
  - apply exactly_fraction.
Qed.

(** [default_lam] on an exact number *)
Lemma default_lam_exact (fr : bool) (v : Py.num) (q : Qc) :
  exactly fr v q ->
  exists w, Py.default_lam v = Return w /\ exactly fr w (default_lam q).
Proof.
  intros Hv. unfold Py.default_lam, default_lam.
  destruct (add_exact false fr _ _ _ _ (exactly_int 1) (abs_exact _ _ _ Hv))
    as (w & Hw & He).
  exists w. split; [exact Hw|]. now rewrite of_Z_1 in He.
Qed.

Lemma eqb_zero (fr : bool) (a : Py.num) (q : Qc) :
  exactly fr a q ->
  Py.eqb a (Py.PyInt 0) = if Qc_eq_dec q 0 then true else false.
Proof.
  intros [_ Hr]. unfold Py.eqb. rewrite Hr. reflexivity.
Qed.

(** ** Dictionaries of exact numbers *)

Lemma rel_rational {K} (fr : bool) (D : dict K Py.num) :
  exact_items fr D -> rel_items fr D (rational D).
Proof.
  induction 1 as [|[k v] t Hv Ht IH]; simpl; constructor; auto.
  simpl in *. split; [reflexivity|].
  destruct (exact_exactly _ _ Hv) as (q & Hq). destruct Hq as [He Hr].
  rewrite Hr. now split.
Qed.

Lemma rel_keys {K} (fr : bool) (D : dict K Py.num) (d : dict K Qc) :
  rel_items fr D d -> keys D = keys d.
Proof.
  induction 1 as [|[k v] [k' q] t t' [Hk Hv] Ht IH]; simpl in *; congruence.
Qed.

Lemma rel_rat_items (fr : bool) (D : dict key Py.num) (d : poly_dict) :
  rel_items fr D d -> rat_items D = Some d.
Proof.
  induction 1 as [|[k v] [k' q] t t' [Hk [_ Hv]] Ht IH]; simpl in *; [reflexivity|].
  now rewrite Hv, IH, Hk.
Qed.

Lemma rel_rat_value (fr : bool) (D : dict key Py.num) (d : poly_dict) (a : nat -> Qc) :
  rel_items fr D d -> rat_value D a = Some (value d a).
Proof. intros H. unfold rat_value. now rewrite (rel_rat_items _ _ _ H). Qed.

Section RelDict.
Context {K : Type} (K_eq_dec : forall a b : K, {a = b} + {a <> b}).

Lemma rel_get (fr : bool) (D : dict K Py.num) (d : dict K Qc) (k : K) :
  rel_items fr D d ->
  match dict_get K_eq_dec D k, dict_get K_eq_dec d k with
  | Some V, Some v => exactly fr V v
  | None, None => True
  | _, _ => False
  end.
Proof.
  induction 1 as [|[k1 v] [k' q] t t' [Hk Hv] Ht IH]; simpl in *; [exact I|].
  subst k'. destruct (K_eq_dec k k1); [exact Hv | exact IH].
Qed.

Lemma rel_set (fr : bool) (D : dict K Py.num) (d : dict K Qc) (k : K)
  (V : Py.num) (v : Qc) :
  rel_items fr D d -> exactly fr V v ->
  rel_items fr (dict_set K_eq_dec D k V) (dict_set K_eq_dec d k v).
Proof.
  intros H HV. induction H as [|[k1 w] [k' q] t t' [Hk Hv] Ht IH]; simpl in *.
  - constructor; [now split | constructor].
  - subst k'. destruct (K_eq_dec k k1); constructor; auto.
Qed.

Lemma rel_pop (fr : bool) (D : dict K Py.num) (d : dict K Qc) (k : K) :
  rel_items fr D d ->
  rel_items fr (dict_pop K_eq_dec D k) (dict_pop K_eq_dec d k).
Proof.
  induction 1 as [|[k1 w] [k' q] t t' [Hk Hv] Ht IH]; simpl in *.
  - constructor.
  - subst k'. destruct (K_eq_dec k k1); [exact Ht|]. constructor; auto.
Qed.
End RelDict.

Lemma rel_wf_items (fr : bool) (c : pyclass) (D : dict key Py.num) (d : poly_dict) :
  rel_items fr D d -> (wf_items c D <-> wf_poly (mkPoly c d)).
Proof.
  intros H. split; intros [W1 W2 W3]; constructor; simpl in *.
  - now rewrite <- (rel_keys _ _ _ H).
  - clear W1 W3. induction H as [|[k v] [k' q] t t' [Hk Hv] Ht IH];
      constructor; inversion W2; subst; simpl in *; auto. congruence.
  - clear W1 W2. induction H as [|[k v] [k' q] t t' [Hk Hv] Ht IH];
      constructor; inversion W3; subst; simpl in *; auto.
    rewrite (eqb_zero _ _ _ Hv) in *. now destruct (Qc_eq_dec q 0).
  - now rewrite (rel_keys _ _ _ H).
  - clear W1 W3. induction H as [|[k v] [k' q] t t' [Hk Hv] Ht IH];
      constructor; inversion W2; subst; simpl in *; auto. congruence.
  - clear W1 W2. induction H as [|[k v] [k' q] t t' [Hk Hv] Ht IH];
      constructor; inversion W3; subst; simpl in *; auto.
    rewrite (eqb_zero _ _ _ Hv). now destruct (Qc_eq_dec q 0).
Qed.

(** ** The two monads *)

Lemma rel_lift {A} (r : result A) : rel_outcome eq (lift r) r.
Proof. now destruct r. Qed.

Lemma rel_bind {A B A' B'} (R : A -> B -> Prop) (S : A' -> B' -> Prop)
  (o : outcome A) (r : result B) (f : A -> outcome A') (g : B -> result B') :
  rel_outcome R o r ->
  (forall a b, R a b -> rel_outcome S (f a) (g b)) ->
  rel_outcome S (obind o f) (bind r g).
Proof.
  intros Ho Hf. destruct o as [a|e], r as [b|e']; simpl in *; try contradiction; auto.
Qed.

Lemma rel_foldM {A B X Y} (R : A -> B -> Prop) (T : X -> Y -> Prop)
  (f : A -> X -> outcome A) (g : B -> Y -> result B) (l : list X) (l' : list Y) :
  Forall2 T l l' ->
  (forall a b x y, R a b -> T x y -> rel_outcome R (f a x) (g b y)) ->
  forall a b, R a b -> rel_outcome R (ofoldM f l a) (foldM g l' b).
Proof.
  intros Hl Hf. induction Hl as [|x y t t' Hxy Ht IH]; intros a b Hab; simpl.
  - exact Hab.
  - apply (rel_bind R R); auto.
Qed.

Lemma rel_mapM {X Y} (f : X -> outcome Y) (g : X -> result Y) (l : list X) :
  (forall x, rel_outcome eq (f x) (g x)) ->
  rel_outcome eq (omapM f l) (mapM g l).
Proof.
  intros Hf. induction l as [|x t IH]; simpl; [reflexivity|].
  apply (rel_bind eq eq); [apply Hf|]. intros y ? <-.
  apply (rel_bind eq eq); [apply IH|]. intros ys ? <-. reflexivity.
Qed.

Lemma rel_outcome_Return {A B} (R : A -> B -> Prop) (o : outcome A) (b : B) :
  rel_outcome R o (Ok b) -> exists a, o = Return a /\ R a b.
Proof. destruct o as [a|e]; simpl; [eauto | contradiction]. Qed.

Lemma rel_outcome_Ok {A B} (R : A -> B -> Prop) (a : A) (r : result B) :
  rel_outcome R (Return a) r -> exists b, r = Ok b /\ R a b.
Proof. destruct r as [b|e]; simpl; [eauto | contradiction]. Qed.

Lemma rel_outcome_Raise {A B} (R : A -> B -> Prop) (o : outcome A) (e : exn) :
  rel_outcome R o (Raise e) -> o = Throw (Container e).
Proof. destruct o as [a|e']; simpl; [contradiction | congruence]. Qed.

(** ** The containers *)

Lemma rel_new (fr : bool) (c : pyclass) : rel_poly fr (Py.new c) (new c).
Proof. split; [reflexivity | constructor]. Qed.

Lemma rel_getitem (fr : bool) (P : Py.poly) (p : poly) (s : subscript) :
  rel_poly fr P p ->
  rel_outcome (exactly false) (Py.getitem P s) (getitem p s).
Proof.
  intros [Hc Hi]. unfold Py.getitem, getitem. rewrite Hc.
  apply (rel_bind eq _); [apply rel_lift|]. intros k ? <-. simpl. unfold get0.
  pose proof (rel_get key_eq_dec fr _ _ k Hi) as Hg.
  destruct (dict_get key_eq_dec (Py.items P) k), (dict_get key_eq_dec (items p) k);
    try contradiction.
  - eapply exactly_weaken, Hg.
  - apply (exactly_int 0).
Qed.

Lemma rel_setitem (fr : bool) (P : Py.poly) (p : poly) (s : subscript)
  (V : Py.num) (v : Qc) :
  rel_poly fr P p -> exactly fr V v ->
  rel_outcome (rel_poly fr) (Py.setitem P s V) (setitem p s v).
Proof.
  intros [Hc Hi] HV. unfold Py.setitem, setitem. rewrite Hc.
  apply (rel_bind eq _); [apply rel_lift|]. intros k ? <-. simpl.
  split; [reflexivity|]. simpl. rewrite (eqb_zero _ _ _ HV).
  destruct (Qc_eq_dec v 0); [now apply rel_pop | now apply rel_set].
Qed.

Lemma rel_iadd_item (fr : bool) (P : Py.poly) (p : poly) (s : subscript)
  (e : outcome Py.num) (V : Py.num) (v : Qc) :
  rel_poly fr P p -> e = Return V -> exactly fr V v ->
  rel_outcome (rel_poly fr) (Py.iadd_item P s e) (iadd_item p s v).
Proof.
  intros HP -> HV. unfold Py.iadd_item, iadd_item.
  apply (rel_bind (exactly false) _); [now apply (rel_getitem fr)|].
  intros O o Ho. simpl.
  destruct (add_exact _ _ _ _ _ _ Ho HV) as (c & -> & Hc). simpl.
  now apply rel_setitem.
Qed.

Lemma rel_isub_item (fr : bool) (P : Py.poly) (p : poly) (s : subscript)
  (e : outcome Py.num) (V : Py.num) (v : Qc) :
  rel_poly fr P p -> e = Return V -> exactly fr V v ->
  rel_outcome (rel_poly fr) (Py.isub_item P s e) (isub_item p s v).
Proof.
  intros HP -> HV. unfold Py.isub_item, isub_item.
  apply (rel_bind (exactly false) _); [now apply (rel_getitem fr)|].
  intros O o Ho. simpl.
  destruct (sub_exact _ _ _ _ _ _ Ho HV) as (c & -> & Hc). simpl.
  now apply rel_setitem.
Qed.

Lemma rel_iadd (fr : bool) (P : Py.poly) (p : poly) (D : dict key Py.num)
  (d : poly_dict) :
  rel_poly fr P p -> rel_items fr D d ->
  rel_outcome (rel_poly fr) (Py.iadd P D) (iadd p d).
Proof.
  intros HP HD. unfold Py.iadd, iadd.
  eapply rel_foldM; [exact HD | | exact HP].
  intros A b [k V] [k' v] Hab [Hk HV]. simpl in *. subst k'.
  now apply (rel_iadd_item fr _ _ _ _ V).
Qed.

(** ** The converters on exact coefficients *)

Lemma mul_int_exact (fr : bool) (z : Z) (V : Py.num) (v : Qc) :
  exactly fr V v ->
  exists c, Py.mul (Py.PyInt z) V = Return c /\ exactly fr c (Py.of_Z z * v).
Proof. intros HV. apply (mul_exact false fr _ _ _ _ (exactly_int z) HV). Qed.

Lemma rel_lift_eq {A} (r : result A) :
  rel_outcome (fun a b => a = b /\ r = Ok b) (lift r) r.
Proof. now destruct r. Qed.

Lemma rel_init (fr : bool) (c c0 c1 c2 : pyclass) :
  rel_poly fr (if pyclass_eq_dec c c0 then Py.new c1 else Py.new c2)
              (if pyclass_eq_dec c c0 then new c1 else new c2).
Proof. destruct (pyclass_eq_dec c c0); apply rel_new. Qed.

(** On [Fraction]s, [qubo_to_ising] computes what the exact reading does. *)
Lemma rel_qubo_to_ising (Q : Py.poly) (q : poly) :
  rel_poly true Q q ->
  rel_outcome (rel_poly true) (Py.qubo_to_ising Q) (qubo_to_ising q).
Proof.
  intros [Hc Hi]. unfold Py.qubo_to_ising, qubo_to_ising. rewrite Hc.
  eapply rel_foldM; [exact Hi | | apply rel_init].
  intros L l [kp V] [kp' v] HL [Hk HV]; simpl in Hk, HV; subst kp'.
  apply (rel_bind eq _); [apply rel_lift|]. intros k ? <-.
  pose proof (truediv_2 _ _ HV) as H2. pose proof (truediv_4 _ _ HV) as H4.
  pose proof (exactly_fraction true (v / two)) as F2.
  pose proof (exactly_fraction true (v / four)) as F4.
  destruct k as [|i [|j [|? ?]]].
  - now apply (rel_iadd_item true _ _ _ _ V).
  - apply (rel_bind (rel_poly true) _).
    + now apply (rel_iadd_item true _ _ _ _ _ _ HL H2).
    + intros L1 l1 H1. now apply (rel_iadd_item true _ _ _ _ _ _ H1 H2).
  - apply (rel_bind (rel_poly true) _).
    + now apply (rel_iadd_item true _ _ _ _ _ _ HL H4).
    + intros L1 l1 H1. apply (rel_bind (rel_poly true) _).
      * now apply (rel_iadd_item true _ _ _ _ _ _ H1 H4).
      * intros L2 l2 Hl2. apply (rel_bind (rel_poly true) _).
        -- now apply (rel_iadd_item true _ _ _ _ _ _ Hl2 H4).
        -- intros L3 l3 H3. now apply (rel_iadd_item true _ _ _ _ _ _ H3 H4).
  - exact HL.
Qed.

(** On [int]s and [Fraction]s, [ising_to_qubo] computes what the exact
    reading does. *)
Lemma rel_ising_to_qubo (fr : bool) (L : Py.poly) (l : poly) :
  rel_poly fr L l ->
  rel_outcome (rel_poly fr) (Py.ising_to_qubo L) (ising_to_qubo l).
Proof.
  intros [Hc Hi]. unfold Py.ising_to_qubo, ising_to_qubo. rewrite Hc.
  eapply rel_foldM; [exact Hi | | apply rel_init].
  intros Q q [kp V] [kp' v] HQ [Hk HV]; simpl in Hk, HV; subst kp'.
  apply (rel_bind eq _); [apply rel_lift|]. intros k ? <-.
  destruct (mul_int_exact fr 2 V v HV) as (c2 & H2 & F2). rewrite of_Z_2 in F2.
  destruct (mul_int_exact fr 4 V v HV) as (c4 & H4 & F4). rewrite of_Z_4 in F4.
  destruct k as [|i [|j [|? ?]]].
  - now apply (rel_iadd_item fr _ _ _ _ V).
  - apply (rel_bind (rel_poly fr) _).
    + now apply (rel_iadd_item fr _ _ _ _ _ _ HQ H2).
    + intros Q1 q1 H1. now apply (rel_isub_item fr _ _ _ _ V).
  - apply (rel_bind (rel_poly fr) _).
    + now apply (rel_iadd_item fr _ _ _ _ _ _ HQ H4).
    + intros Q1 q1 H1. apply (rel_bind (rel_poly fr) _).
      * now apply (rel_isub_item fr _ _ _ _ _ _ H1 H2).
      * intros Q2 q2 Hq2. apply (rel_bind (rel_poly fr) _).
        -- now apply (rel_isub_item fr _ _ _ _ _ _ Hq2 H2).
        -- intros Q3 q3 H3. now apply (rel_iadd_item fr _ _ _ _ V).
  - exact HQ.
Qed.

Lemma rel_flat_mapM {X Y X' Y'} (T : X -> X' -> Prop) (T' : Y -> Y' -> Prop)
  (f : X -> outcome (list Y)) (g : X' -> list Y') (l : list X) (l' : list X') :
  Forall2 T l l' ->
  (forall x x', T x x' -> exists r, f x = Return r /\ Forall2 T' r (g x')) ->
  exists R, Py.flat_mapM f l = Return R /\ Forall2 T' R (flat_map g l').
Proof.
  intros Hl Hf. unfold Py.flat_mapM.
  assert (exists Rs, omapM f l = Return Rs /\ Forall2 T' (concat Rs) (flat_map g l'))
    as (Rs & -> & HR).
  { induction Hl as [|x x' t t' Hx Ht IH]; simpl.
    - exists []. split; [reflexivity | constructor].
    - destruct (Hf x x' Hx) as (r & -> & Hr). destruct IH as (Rs & -> & HR).
      exists (r :: Rs). split; [reflexivity|]. simpl. now apply Forall2_app. }
  simpl. eauto.
Qed.

(** Within the recursion limit, the generator of [hising_to_pubo] yields the
    pairs of the exact reading, with [int] values. *)
Lemma rel_hising_generate (k : key) :
  forall depth, (length k < depth)%nat ->
  exists L, Py.hising_generate_new_key_value depth k = Return L
            /\ rel_items false L (hising_generate_new_key_value k).
Proof.
  induction k as [|k0 rest IH]; intros [|depth] Hd; simpl in Hd; try lia.
  - simpl. eexists. split; [reflexivity|]. constructor; [|constructor].
    split; [reflexivity|]. rewrite <- of_Z_1. apply exactly_int.
  - cbn [Py.hising_generate_new_key_value hising_generate_new_key_value].
    destruct (IH depth) as (L & -> & HL); [lia|]. cbn [obind].
    apply (rel_flat_mapM _ _ _ _ _ _ HL).
    intros [key V] [key' v] [Hk HV]; simpl in Hk, HV; subst key'.
    destruct (mul_int_exact false 2 V v HV) as (c & -> & Hc). rewrite of_Z_2 in Hc.
    cbn [obind]. eexists. split; [reflexivity|].
    constructor; [now split|]. constructor; [|constructor].
    split; [reflexivity|]. now apply neg_exact.
Qed.

Lemma squash_key_length (c : pyclass) (k sk : key) :
  squash_key c (Tup k) = Ok sk -> (length sk <= length k)%nat.
Proof.
  unfold squash_key. simpl.
  destruct (bounded_degree c && (2 <? length (canonical (algebra_of c) k))%nat);
    [discriminate|].
  intros [= <-]. apply canonical_length.
Qed.

Lemma Forall2_and_r {X Y} (T : X -> Y -> Prop) (P : Y -> Prop) (l : list X)
  (l' : list Y) :
  Forall2 T l l' -> Forall P l' -> Forall2 (fun x y => T x y /\ P y) l l'.
Proof.
  induction 1; intros HP; inversion HP; subst; constructor; auto.
Qed.

(** Within the recursion limit, and on [int]s and [Fraction]s,
    [hising_to_pubo] computes what the exact reading does. *)
Lemma rel_hising_to_pubo (fr : bool) (depth : nat) (H : Py.poly) (h : poly) :
  rel_poly fr H h ->
  Forall (fun kv => (length (fst kv) < depth)%nat) (items h) ->
  rel_outcome (rel_poly fr) (Py.hising_to_pubo depth H) (hising_to_pubo h).
Proof.
  intros [Hc Hi] Hd. unfold Py.hising_to_pubo, hising_to_pubo. rewrite Hc.
  eapply rel_foldM; [exact (Forall2_and_r _ _ _ _ Hi Hd) | | apply rel_init].
  intros P p [kp V] [kp' v] HP [[Hk HV] Hlen]; simpl in Hk, HV, Hlen; subst kp'.
  apply (rel_bind _ _ _ _ _ _ (rel_lift_eq _)). intros sk ? [<- Hsq].
  assert (Hsk : (length sk < depth)%nat).
  { destruct (pyclass_eq_dec (cls h) HIsingMatrix);
      apply squash_key_length in Hsq; lia. }
  destruct (rel_hising_generate sk depth Hsk) as (L & -> & HL). cbn [obind].
  eapply rel_foldM; [exact HL | | exact HP].
  intros P1 p1 [key W] [key' w] HP1 [Hk HW]; simpl in Hk, HW; subst key'.
  destruct (mul_exact false fr _ _ _ _ HW HV) as (c & Hm & Hcx).
  now apply (rel_iadd_item fr _ _ _ _ _ _ HP1 Hm).
Qed.

(** ** From a container of exact numbers to its exact reading *)


Lemma rel_reading (fr : bool) (P : Py.poly) :
  exact_items fr (Py.items P) -> rel_poly fr P (reading P).
Proof. intros H. split; [reflexivity|]. now apply rel_rational. Qed.

Lemma wf_reading (fr : bool) (P : Py.poly) :
  exact_items fr (Py.items P) -> wf_items (Py.cls P) (Py.items P) ->
  wf_poly (reading P).
Proof.
  intros He Hw. apply (rel_wf_items fr _ _ _ (rel_rational fr _ He)), Hw.
Qed.

(** ** Dictionaries through their rational reading *)

Lemma rat_items_inv (D : dict key Py.num) (d : poly_dict) :
  rat_items D = Some d ->
  Forall2 (fun KV kv => fst KV = fst kv /\ Py.rat (snd KV) = Some (snd kv)) D d.
Proof.
  revert d; induction D as [|[k V] t IH]; simpl; intros d H.
  - injection H as <-. constructor.
  - destruct (Py.rat V) as [q|] eqn:Eq; [|discriminate].
    destruct (rat_items t) as [l|]; [|discriminate]. injection H as <-.
    constructor; auto.
Qed.

Lemma rat_eqb (a b : Py.num) (p q : Qc) :
  Py.rat a = Some p -> Py.rat b = Some q ->
  Py.eqb a b = if Qc_eq_dec p q then true else false.
Proof. intros Ha Hb. unfold Py.eqb. now rewrite Ha, Hb. Qed.

Lemma rat_dict_eqb (D1 D2 : dict key Py.num) (d1 d2 : poly_dict) :
  rat_items D1 = Some d1 -> rat_items D2 = Some d2 ->
  Py.dict_eqb D1 D2 = dict_eqb d1 d2.
Proof.
  intros H1 H2. apply rat_items_inv in H1, H2. unfold Py.dict_eqb, dict_eqb.
  rewrite (Forall2_length H1), (Forall2_length H2). f_equal.
  induction H1 as [|[k v] [k' q] t t' [Hk Hv] Ht IH]; simpl in *; [reflexivity|].
  subst k'. rewrite IH. f_equal. clear IH Ht.
  induction H2 as [|[k2 v2] [k2' q2] t2 t2' [Hk2 Hv2] Ht2 IH2]; simpl in *;
    [reflexivity|].
  subst k2'. destruct (key_eq_dec k k2); [|exact IH2].
  apply (rat_eqb _ _ _ _ Hv Hv2).
Qed.


Lemma Some_Qc (o : option Qc) (q : Qc) :
  match o with Some p => Qc_eq_bool p q | None => false end = true ->
  o = Some q.
Proof.
  destruct o as [p|]; [|discriminate]. intros H.
  now rewrite (Qc_eq_bool_correct _ _ H).
Qed.





(** ** The round trips and the value on Python's numbers *)


Lemma fraction_qubo_wf : wf_items QUBOMatrix (Py.items fraction_qubo).
Proof.
  constructor; simpl.
  - repeat constructor; simpl; intuition discriminate.
  - repeat constructor; simpl; lia.
  - repeat constructor.
Qed.















(** ** The penalty block on Python's numbers *)

Lemma exact_product_exact (z : Z) (lam : Py.num) :
  exact false lam = true -> exact_product (Py.PyInt z) lam.
Proof.
  intros H. destruct (exact_exactly _ _ H) as (q & Hq).
  destruct (mul_int_exact false z lam q Hq) as (c & Hc & He).
  exists c, (Py.of_Z z), q. split; [exact Hc|]. split; [reflexivity|].
  split; [apply Hq | apply He].
Qed.

Lemma exact_product_test (a b : Py.num) :
  match Py.mul a b, Py.rat a, Py.rat b with
  | Return c, Some p, Some q =>
      match Py.rat c with Some r => Qc_eq_bool r (p * q) | None => false end
  | _, _, _ => false
  end = true ->
  exact_product a b.
Proof.
  unfold exact_product.
  destruct (Py.mul a b) as [c|]; [|discriminate].
  destruct (Py.rat a) as [p|]; [|discriminate].
  destruct (Py.rat b) as [q|]; [|discriminate].
  destruct (Py.rat c) as [r|] eqn:Er; [|discriminate].
  intros H. apply Qc_eq_bool_correct in H. subst r. now exists c, p, q.
Qed.

(** C4.  For every weight [lam > 0] whose products [3 * lam] and [-2 * lam]
    are computed without rounding (as they are for every [int] and every
    [Fraction]) and distinct variables [x], [y], [z], [_constraint_xy_eq_z]
    returns [{(z,): 3*lam, (x,y): lam, (x,z): -2*lam, (y,z): -2*lam}], and at
    each of the 8 boolean assignments of [(x, y, z)] this polynomial is 0
    when [z = x*y] and at least [lam] otherwise. *)
Theorem py_constraint_xy_eq_z_penalty (lam : Py.num) (q : Qc) (x y z : nat)
  (a : nat -> Qc) :
  Py.rat lam = Some q -> 0 < q ->
  exact_product (Py.PyInt 3) lam -> exact_product (Py.PyInt (-2)) lam ->
  x <> y -> x <> z -> y <> z ->
  (a x = 0 \/ a x = 1) -> (a y = 0 \/ a y = 1) -> (a z = 0 \/ a z = 1) ->
  exists c1 c2 val,
    Py.mul (Py.PyInt 3) lam = Return c1 /\ Py.mul (Py.PyInt (-2)) lam = Return c2
    /\ Py._constraint_xy_eq_z x y z lam
       = Return [([z], c1); ([x; y], lam); ([x; z], c2); ([y; z], c2)]
    /\ rat_value [([z], c1); ([x; y], lam); ([x; z], c2); ([y; z], c2)] a = Some val
    /\ (a z = a x * a y -> val = 0)
    /\ (a z <> a x * a y -> q <= val).
Proof.
  intros Hq Hpos (c1 & p1 & q1 & Hm1 & Hp1 & Hq1 & Hc1)
         (c2 & p2 & q2 & Hm2 & Hp2 & Hq2 & Hc2) Hxy Hxz Hyz Hx Hy Hz.
  rewrite Hq in Hq1, Hq2. injection Hq1 as <-. injection Hq2 as <-.
  simpl in Hp1, Hp2. injection Hp1 as <-. injection Hp2 as <-.
  rewrite of_Z_3 in Hc1. rewrite of_Z_m2 in Hc2.
  exists c1, c2, (value (_constraint_xy_eq_z x y z q) a).
  split; [exact Hm1|]. split; [exact Hm2|]. split.
  { unfold Py._constraint_xy_eq_z. rewrite Hm1, Hm2. simpl.
    repeat (key_cases; try congruence; simpl). reflexivity. }
  destruct (constraint_xy_eq_z_penalty q x y z a) as (Hitems & H0 & H1); auto.
  split; [|split; assumption].
  unfold rat_value. simpl. rewrite Hc1, Hq, Hc2. simpl. now rewrite Hitems.
Qed.

Lemma py_constraint_xy_eq_z_penalty_example :
  exists c1 c2 val,
    Py.mul (Py.PyInt 3) three_halves = Return c1
    /\ Py.mul (Py.PyInt (-2)) three_halves = Return c2
    /\ Py._constraint_xy_eq_z 0 1 2 three_halves
       = Return [([2%nat], c1); ([0; 1]%nat, three_halves); ([0; 2]%nat, c2);
                 ([1; 2]%nat, c2)]
    /\ rat_value [([2%nat], c1); ([0; 1]%nat, three_halves); ([0; 2]%nat, c2);
                  ([1; 2]%nat, c2)] example_binary = Some val
    /\ (example_binary 2 = example_binary 0 * example_binary 1 -> val = 0)
    /\ (example_binary 2 <> example_binary 0 * example_binary 1
        -> three / two <= val).
Proof.
  apply (py_constraint_xy_eq_z_penalty three_halves (three / two) 0 1 2 example_binary);
    try lia; try (simpl; auto; fail).
  - apply Some_Qc. vm_compute. reflexivity.
  - reflexivity.
  - apply exact_product_test. vm_compute. reflexivity.
  - apply exact_product_test. vm_compute. reflexivity.
Defined.

(** For the float [lam = 1 + 3 * 2**-52] the product [3 * lam] is rounded
    to [3 + 8 * 2**-52], and at [(x, y, z) = (1, 0, 1)] the block is
    [1 + 2 * 2**-52]: positive, and less than [lam]. *)
Lemma float_weight_block_below :
  lt_rat (Some 0) (Py.rat float_weight)
  /\ (forall i, assignment [1; 0; 1]%Z i = 0 \/ assignment [1; 0; 1]%Z i = 1)
  /\ assignment [1; 0; 1]%Z 2 <> assignment [1; 0; 1]%Z 0 * assignment [1; 0; 1]%Z 1
  /\ exists D,
       Py._constraint_xy_eq_z 0 1 2 float_weight = Return D
       /\ lt_rat (rat_value D (assignment [1; 0; 1]%Z)) (Py.rat float_weight).
Proof.
  split; [vm_compute; reflexivity|]. split.
  { intros i. unfold assignment.
    do 3 (destruct i as [|i]; [simpl; auto|]). left. now destruct i. }
  split; [intro H; apply (f_equal this) in H; vm_compute in H; discriminate H|].
  destruct (Py._constraint_xy_eq_z 0 1 2 float_weight) as [D|e] eqn:E;
    [|vm_compute in E; discriminate E].
  exists D. split; [reflexivity|].
  vm_compute in E. injection E as <-. vm_compute. reflexivity.
Qed.

(** ** [to_qubo] on exact coefficients *)

Lemma rel_constraint (x y z : nat) (W : Py.num) (w : Qc) :
  exactly false W w ->
  exists D, Py._constraint_xy_eq_z x y z W = Return D
            /\ rel_items false D (_constraint_xy_eq_z x y z w).
Proof.
  intros HW. unfold Py._constraint_xy_eq_z, _constraint_xy_eq_z.
  destruct (mul_int_exact false 3 W w HW) as (c1 & -> & H1). rewrite of_Z_3 in H1.
  destruct (mul_int_exact false (-2) W w HW) as (c2 & -> & H2).
  rewrite of_Z_m2 in H2. cbn [obind].
  eexists. split; [reflexivity|].
  repeat apply rel_set; try assumption. constructor.
Qed.

Lemma rel_reduce_step (lam : Py.num -> outcome Py.num) (V W : Py.num) (v w : Qc)
  (k : key) (ST : Py.reducer) (st : reducer) :
  lam V = Return W -> exactly false W w -> rel_reducer ST st ->
  rel_outcome (fun KS ks => fst KS = fst ks /\ rel_reducer (snd KS) (snd ks))
    (Py.reduce_step lam V k ST) (reduce_step (fun _ => w) v k st).
Proof.
  intros Hlam HW (HQ & Ha & HR).
  unfold Py.reduce_step, reduce_step. rewrite Ha, HR.
  apply (rel_bind eq _).
  { destruct (find_reduced (reductions st) k) as [[x y]|].
    - destruct (dict_get key_eq_dec (reductions st) [x; y]); reflexivity.
    - destruct k as [|x [|y t]]; reflexivity. }
  intros [[[[x y] z] R'] anc'] ? <-. rewrite Hlam. cbn [obind].
  destruct (rel_constraint x y z W w HW) as (D & -> & HD). cbn [obind].
  apply (rel_bind (rel_poly false) _); [now apply rel_iadd|].
  intros Q' q' HQ'. simpl. split; [reflexivity|]. now split.
Qed.

Lemma rel_reduce_loop (lam : Py.num -> outcome Py.num) (V W : Py.num) (v w : Qc) :
  lam V = Return W -> exactly false W w ->
  forall (fuel : nat) (k : key) (ST : Py.reducer) (st : reducer),
    rel_reducer ST st ->
    rel_outcome (fun KS ks => fst KS = fst ks /\ rel_reducer (snd KS) (snd ks))
      (Py.reduce_loop fuel lam V k ST) (reduce_loop fuel (fun _ => w) v k st).
Proof.
  intros Hlam HW. induction fuel as [|fuel IH]; intros k ST st Hst; simpl;
    destruct (2 <? length k)%nat.
  - reflexivity.
  - simpl. now split.
  - eapply rel_bind; [now apply (rel_reduce_step lam V W v w)|].
    intros [k1 ST1] [k1' st1] [Hk H1]. simpl in Hk, H1. subst k1'. now apply IH.
  - simpl. now split.
Qed.

Lemma py_reduce_loop_short (fuel : nat) (lam : Py.num -> outcome Py.num)
  (V : Py.num) (k : key) (ST : Py.reducer) :
  (length k <= 2)%nat -> Py.reduce_loop fuel lam V k ST = Return (k, ST).
Proof.
  intros H. destruct fuel; simpl;
    destruct (Nat.ltb_spec 2 (length k)); try lia; reflexivity.
Qed.

Lemma rel_lift_like {A B} (o : outcome A) (r : result B) (R : A -> B -> Prop) :
  rel_outcome R o r -> rel_outcome (fun a b => R a b /\ r = Ok b) o r.
Proof. destruct o, r; simpl; auto. Qed.

Lemma rel_mapping (self : Py.pubo) (kp : list label) :
  rel_outcome eq (omapM (Py._mapping self) kp)
    (mapM (_mapping (to_exact self)) kp).
Proof.
  apply rel_mapM. intros l. unfold Py._mapping, _mapping. simpl.
  now destruct (index_of l (Py.labels self)).
Qed.

(** One term of [to_qubo]: with [int]s and [Fraction]s for the coefficient
    and for the weight, if it is called, the code does what the exact reading
    does with the constant weight function. *)
Lemma rel_to_qubo_term (self : Py.pubo) (lam : Py.num -> outcome Py.num)
  (kp : list label) (V : Py.num) (v : Qc) (ST : Py.reducer) (st : reducer) :
  exactly false V v ->
  ((2 < length kp)%nat -> exists W, lam V = Return W /\ exact false W = true) ->
  rel_reducer ST st ->
  exists w,
    rel_outcome rel_reducer (Py.to_qubo_term self lam ST (kp, V))
      (to_qubo_term (to_exact self) (fun _ => w) st (kp, v)).
Proof.
  intros HV Hlam Hst.
  assert (Hw : exists w, (2 < length kp)%nat ->
                         exists W, lam V = Return W /\ exactly false W w).
  { destruct (Nat.ltb_spec 2 (length kp)) as [Hl|Hl].
    - destruct (Hlam Hl) as (W & HW & He).
      destruct (exact_exactly _ _ He) as (w & Hw). exists w. intros _. eauto.
    - exists 0. intros; lia. }
  destruct Hw as (w & Hw). exists w.
  unfold Py.to_qubo_term, to_qubo_term.
  apply (rel_bind _ _ _ _ _ _ (rel_lift_like _ _ _ (rel_mapping self kp))).
  intros mapped ? [<- Hm].
  destruct Hst as (HQ & Ha & HR). rewrite HR.
  destruct (dict_get key_eq_dec (reductions st) (sorted mapped)) as [z|].
  - apply (rel_bind (rel_poly false) _).
    + now apply (rel_iadd_item false _ _ _ _ V).
    + intros Q' q' HQ'. simpl. now split.
  - assert (Hloop : rel_outcome
              (fun KS ks => fst KS = fst ks /\ rel_reducer (snd KS) (snd ks))
              (Py.reduce_loop (length (sorted mapped)) lam V (sorted mapped) ST)
              (reduce_loop (length (sorted mapped)) (fun _ => w) v (sorted mapped) st)).
    { destruct (Nat.ltb_spec 2 (length kp)) as [Hl|Hl].
      - destruct (Hw Hl) as (W & HW & He).
        apply (rel_reduce_loop lam V W v w HW He). now split.
      - rewrite py_reduce_loop_short, reduce_loop_short;
          try (rewrite length_sorted, (mapM_length _ _ _ Hm); exact Hl).
        simpl. split; [reflexivity|]. now split. }
    eapply rel_bind; [exact Hloop|].
    intros [k1 ST1] [k1' st1] [Hk (HQ1 & Ha1 & HR1)]. simpl in Hk. subst k1'.
    simpl in HQ1, Ha1, HR1.
    apply (rel_bind (rel_poly false) _).
    + now apply (rel_iadd_item false _ _ _ _ V).
    + intros Q' q' HQ'. simpl. now split.
Qed.

(** All the terms: the value of the quadratic polynomial, at an assignment
    that respects the registered products, grows by the value of the terms. *)
Lemma py_to_qubo_fold (self : Py.pubo) (lam : Py.num -> outcome Py.num) :
  forall (ts : dict (list label) Py.num) (ST ST' : Py.reducer) (st : reducer),
    (forall kp V, In (kp, V) ts ->
                  NoDup kp /\ exact false V = true
                  /\ ((2 < length kp)%nat ->
                      exists W, lam V = Return W /\ exact false W = true)) ->
    rel_reducer ST st ->
    wf_reducer (Py.num_binary_variables self) st ->
    ofoldM (Py.to_qubo_term self lam) ts ST = Return ST' ->
    exists st' L l,
      rel_reducer ST' st'
      /\ wf_reducer (Py.num_binary_variables self) st'
      /\ extends (reductions st) (reductions st')
      /\ py_mapped_terms self ts = Return L /\ rel_items false L l
      /\ mapped_terms (to_exact self) (rational ts) = Ok l
      /\ forall a, boolean a -> respects a (reductions st') ->
                   value (items (Q_ st')) a = value (items (Q_ st)) a + value l a.
Proof.
  induction ts as [|[kp V] t IH]; intros ST ST' st Hts Hst Hwf H; cbn [ofoldM] in H.
  - injection H as <-. exists st, [], []. split; [exact Hst|].
    split; [exact Hwf|]. split; [apply extends_refl|].
    split; [reflexivity|]. split; [constructor|]. split; [reflexivity|].
    intros. simpl. ring.
  - destruct (Py.to_qubo_term self lam ST (kp, V)) as [ST1|] eqn:E1;
      [|discriminate]. cbn [obind] in H.
    destruct (Hts kp V (or_introl eq_refl)) as (Hnd & HeV & Hlam).
    destruct (exact_exactly _ _ HeV) as (v & HV).
    destruct (rel_to_qubo_term self lam kp V v ST st HV Hlam Hst) as (w & Hrel).
    rewrite E1 in Hrel. apply rel_outcome_Ok in Hrel.
    destruct Hrel as (st1 & Hterm & Hst1).
    destruct (to_qubo_term_inv _ _ _ _ _ _ Hterm) as (mapped & Hm & Hn).
    destruct (to_qubo_term_spec (to_exact self) (fun _ => w) st kp v mapped Hwf Hnd Hm Hn)
      as (st1' & H1' & Hwf1 & Hext1 & _ & Hval1).
    rewrite Hterm in H1'. injection H1' as <-.
    destruct (IH ST1 ST' st1)
      as (st' & L & l & Hst' & Hwf' & Hext' & HL & Hl & Hml & Hval); auto.
    { intros kp' V' Hin. apply Hts. now right. }
    exists st', ((mapped, V) :: L), ((mapped, v) :: l).
    split; [exact Hst'|]. split; [exact Hwf'|].
    split; [eapply extends_trans; eauto|]. split.
    { cbn [py_mapped_terms].
      pose proof (rel_mapping self kp) as Rm. rewrite Hm in Rm.
      apply rel_outcome_Return in Rm. destruct Rm as (m' & -> & ->).
      cbn [obind]. now rewrite HL. }
    split; [constructor; [now split | exact Hl]|]. split.
    { cbn [rational map mapped_terms fst snd]. rewrite Hm. cbn [bind].
      fold (rational t). rewrite Hml. cbn [bind]. now rewrite (proj2 HV). }
    intros a Ha Hr. simpl.
    rewrite (Hval a Ha Hr), (Hval1 a Ha (respects_extends _ _ _ Hext' Hr)). ring.
Qed.

Lemma default_lam_exact_bool (v : Py.num) :
  exact false v = true ->
  exists w, Py.default_lam v = Return w /\ exact false w = true.
Proof.
  intros H. destruct (exact_exactly _ _ H) as (q & Hq).
  destruct (default_lam_exact _ _ _ Hq) as (w & Hw & He).
  exists w. split; [exact Hw | apply He].
Qed.


Lemma fraction_pubo_terms (kp : list label) (v : Py.num) :
  In (kp, v) (Py.terms fraction_pubo) ->
  NoDup kp /\ exact false v = true
  /\ ((2 < length kp)%nat ->
      exists w, Py.weight None v = Return w /\ exact false w = true).
Proof.
  simpl. intros [E|[E|[E|[]]]]; injection E as <- <-;
    (split; [repeat constructor; simpl; intuition discriminate|]);
    (split; [reflexivity|]); intros _; now apply default_lam_exact_bool.
Qed.



(** ** The closed form and the general expansion on Python's numbers *)

Lemma add_throw (a b : Py.num) (e : pyexn) :
  Py.add a b = Throw e -> e = OverflowError.
Proof.
  assert (Hin : forall f x, Py.in_range f = Throw x -> x = OverflowError).
  { intros f x. destruct f; simpl; congruence. }
  assert (Hf : forall c x, Py.to_float c = Throw x -> x = OverflowError).
  { intros [z|f|q] x; simpl; [apply Hin | discriminate |].
    unfold Py.float_of_fraction, Py.int_truediv. simpl. apply Hin. }
  unfold Py.add, Py.binop.
  destruct a as [x|f|p], b as [y|g|q]; simpl; try discriminate;
    repeat match goal with
           | |- context [Py.float_of_int ?z] =>
               let E := fresh "E" in
               destruct (Py.float_of_int z) eqn:E; simpl;
               [|apply (Hf (Py.PyInt z)) in E; congruence]
           | |- context [Py.float_of_fraction ?z] =>
               let E := fresh "E" in
               destruct (Py.float_of_fraction z) eqn:E; simpl;
               [|apply (Hf (Py.Fraction z)) in E; congruence]
           end; discriminate.
Qed.

Lemma get_store (d : dict key Py.num) (k : key) (s : Py.num) (m : key) :
  NoDup (keys d) ->
  dict_get key_eq_dec (store d k s) m
  = if key_eq_dec m k
    then (if Py.eqb s (Py.PyInt 0) then None else Some s)
    else dict_get key_eq_dec d m.
Proof.
  intros Hnd. unfold store. destruct (Py.eqb s (Py.PyInt 0)).
  - now apply dict_get_pop.
  - apply dict_get_set.
Qed.

Lemma NoDup_store (d : dict key Py.num) (k : key) (s : Py.num) :
  NoDup (keys d) -> NoDup (keys (store d k s)).
Proof.
  intros Hnd. unfold store. destruct (Py.eqb s (Py.PyInt 0));
    [now apply NoDup_keys_pop | now apply NoDup_keys_set].
Qed.

Lemma agree_refl (d : dict key Py.num) : NoDup (keys d) -> agree d d.
Proof. intros H. split; [intro; reflexivity | now split]. Qed.

Lemma agree_trans (d1 d2 d3 : dict key Py.num) :
  agree d1 d2 -> agree d2 d3 -> agree d1 d3.
Proof.
  intros (H12 & N1 & N2) (H23 & _ & N3). split; [|now split].
  intros k. now rewrite H12.
Qed.

Lemma agree_store (d1 d2 : dict key Py.num) (k : key) (s : Py.num) :
  agree d1 d2 -> agree (store d1 k s) (store d2 k s).
Proof.
  intros (H & N1 & N2). split; [|split; now apply NoDup_store].
  intros m. rewrite !get_store by assumption. now rewrite H.
Qed.

Lemma osim_trans (o1 o2 o3 : outcome (dict key Py.num)) :
  osim o1 o2 -> osim o2 o3 -> osim o1 o3.
Proof.
  destruct o1, o2, o3; simpl; try contradiction; try congruence.
  apply agree_trans.
Qed.

Lemma osim_bind (o1 o2 : outcome (dict key Py.num))
  (f g : dict key Py.num -> outcome (dict key Py.num)) :
  osim o1 o2 -> (forall a b, agree a b -> osim (f a) (g b)) ->
  osim (obind o1 f) (obind o2 g).
Proof.
  destruct o1, o2; simpl; try contradiction; auto.
Qed.

Lemma upd_agree (d1 d2 : dict key Py.num) (k : key) (e : outcome Py.num) :
  agree d1 d2 -> osim (upd d1 k e) (upd d2 k e).
Proof.
  intros H. unfold upd. destruct e as [v|x]; simpl; [|reflexivity].
  rewrite (proj1 H k).
  destruct (Py.add _ v) as [s|x]; simpl; [|reflexivity].
  now apply agree_store.
Qed.

Lemma upds_agree (l : list (key * outcome Py.num)) :
  forall d1 d2, agree d1 d2 -> osim (upds d1 l) (upds d2 l).
Proof.
  unfold upds. induction l as [|[k e] t IH]; intros d1 d2 H; simpl; [exact H|].
  apply osim_bind; [now apply upd_agree | exact IH].
Qed.

(** Accumulations at two different keys can be made in either order. *)
Lemma upd_comm (d : dict key Py.num) (k1 k2 : key) (e : outcome Py.num) :
  NoDup (keys d) -> k1 <> k2 ->
  osim (d1 <~ upd d k1 e ;; upd d1 k2 e) (d1 <~ upd d k2 e ;; upd d1 k1 e).
Proof.
  intros Hnd Hk. unfold upd. destruct e as [v|x]; simpl; [|reflexivity].
  set (o1 := match dict_get key_eq_dec d k1 with Some o => o | None => Py.PyInt 0 end).
  set (o2 := match dict_get key_eq_dec d k2 with Some o => o | None => Py.PyInt 0 end).
  destruct (Py.add o1 v) as [s1|x1] eqn:E1, (Py.add o2 v) as [s2|x2] eqn:E2; simpl.
  - rewrite !get_store by assumption.
    destruct (key_eq_dec k2 k1); [congruence|].
    destruct (key_eq_dec k1 k2); [congruence|].
    fold o1 o2. rewrite E1, E2. simpl.
    split; [|split; now repeat apply NoDup_store].
    intros m. rewrite !get_store by now repeat apply NoDup_store.
    destruct (key_eq_dec m k1), (key_eq_dec m k2); congruence.
  - rewrite !get_store by assumption.
    destruct (key_eq_dec k2 k1); [congruence|]. fold o2. now rewrite E2.
  - rewrite !get_store by assumption.
    destruct (key_eq_dec k1 k2); [congruence|]. fold o1. now rewrite E1.
  - apply add_throw in E1, E2. congruence.
Qed.

Lemma upds_swap (d : dict key Py.num) (k1 k2 : key) (e : outcome Py.num)
  (t : list (key * outcome Py.num)) :
  NoDup (keys d) -> k1 <> k2 ->
  osim (upds d ((k1, e) :: (k2, e) :: t)) (upds d ((k2, e) :: (k1, e) :: t)).
Proof.
  intros Hnd Hk. unfold upds. cbn [ofoldM].
  pose proof (upd_comm d k1 k2 e Hnd Hk) as H.
  destruct (upd d k1 e) as [a|x], (upd d k2 e) as [b|y]; cbn [obind] in *.
  - apply (osim_bind _ _ _ _ H). apply upds_agree.
  - destruct (upd a k2 e); simpl in *; [contradiction | exact H].
  - destruct (upd b k1 e); simpl in *; [contradiction | exact H].
  - exact H.
Qed.

(** In a container whose class stores the keys as they are, the
    accumulations of a loop are accumulations into its dictionary. *)
Lemma py_iadd_item_upd (P : Py.poly) (k : key) (e : outcome Py.num) :
  okkey (Py.cls P) k ->
  Py.iadd_item P (Tup k) e
  = (d <~ upd (Py.items P) k e ;; Return (Py.mkPoly (Py.cls P) d)).
Proof.
  intros Hk. unfold Py.iadd_item, Py.getitem, Py.setitem, upd, store.
  rewrite (squash_key_okkey _ _ Hk). simpl.
  destruct e as [v|]; simpl; [|reflexivity].
  destruct (Py.add _ v); reflexivity.
Qed.

Lemma py_iadd_items_upds (c : pyclass) (l : list (key * outcome Py.num)) :
  Forall (fun ke => okkey c (fst ke)) l ->
  forall d,
    ofoldM (fun P '(k, e) => Py.iadd_item P (Tup k) e) l (Py.mkPoly c d)
    = (d' <~ upds d l ;; Return (Py.mkPoly c d')).
Proof.
  unfold upds. induction 1 as [|[k e] t Hk Ht IH]; intros d; simpl; [reflexivity|].
  rewrite py_iadd_item_upd by exact Hk. simpl.
  destruct (upd d k e) as [d1|]; simpl; [apply IH | reflexivity].
Qed.

Lemma ofoldM_map {A X Y} (f : A -> Y -> outcome A) (g : X -> Y) (l : list X) (a : A) :
  ofoldM (fun a x => f a (g x)) l a = ofoldM f (map g l) a.
Proof.
  revert a; induction l as [|x t IH]; intros a; simpl; [reflexivity|].
  destruct (f a (g x)); simpl; [apply IH | reflexivity].
Qed.

Lemma ofoldM_ext {A X} (f g : A -> X -> outcome A) (l : list X) (a : A) :
  (forall a x, f a x = g a x) -> ofoldM f l a = ofoldM g l a.
Proof.
  intros H. revert a; induction l as [|x t IH]; intros a; simpl; [reflexivity|].
  rewrite H. destruct (g a x); simpl; [apply IH | reflexivity].
Qed.

Lemma obind_Return {A} (o : outcome A) : obind o Return = o.
Proof. now destruct o. Qed.

Lemma truediv_1_2 : Py.truediv (Py.PyInt 1) (Py.PyInt 2) = Return half.
Proof. vm_compute. reflexivity. Qed.

Lemma truediv_half_2 : Py.truediv half (Py.PyInt 2) = Return quarter.
Proof. vm_compute. reflexivity. Qed.

(** The pairs that the generator of [pubo_to_hising] yields for the keys of
    a quadratic polynomial. *)
Lemma py_pubo_generate_short (depth : nat) (k : key) :
  (3 <= depth)%nat -> (length k <= 2)%nat ->
  Py.pubo_generate_new_key_value depth k
  = Return match k with
           | [] => [([], Py.PyInt 1)]
           | [i] => [([i], half); ([], half)]
           | i :: j :: _ => [([i; j], quarter); ([j], quarter); ([i], quarter);
                             ([], quarter)]
           end.
Proof.
  intros Hd Hk. destruct depth as [|[|[|depth]]]; try lia.
  destruct k as [|i [|j [|? ?]]]; simpl in Hk; try lia.
  - reflexivity.
  - cbn [Py.pubo_generate_new_key_value obind]. unfold Py.flat_mapM.
    cbn [omapM obind]. rewrite truediv_1_2. reflexivity.
  - cbn [Py.pubo_generate_new_key_value obind]. unfold Py.flat_mapM.
    cbn [omapM obind]. rewrite truediv_1_2. cbn [obind concat app omapM].
    rewrite truediv_half_2. reflexivity.
Qed.

(** One turn of the two loops, on dictionaries that agree. *)
Lemma py_quadratic_turn (depth : nat) (L H : Py.poly) (k : key) (v : Py.num) :
  (3 <= depth)%nat -> okkey QUBOMatrix k -> same_scaling v ->
  Py.cls L = IsingMatrix -> Py.cls H = HIsing ->
  agree (Py.items L) (Py.items H) ->
  exists o1 o2,
    (k' <~ lift (squash_key QUBOMatrix (Tup k)) ;;
     match k' with
     | [] => Py.iadd_item L (Tup k') (Return v)
     | [_] =>
         L <~ Py.iadd_item L (Tup k') (Py.truediv v (Py.PyInt 2)) ;;
         Py.iadd_item L (Tup []) (Py.truediv v (Py.PyInt 2))
     | [i; j] =>
         L <~ Py.iadd_item L (Tup k') (Py.truediv v (Py.PyInt 4)) ;;
         L <~ Py.iadd_item L (Tup [i]) (Py.truediv v (Py.PyInt 4)) ;;
         L <~ Py.iadd_item L (Tup [j]) (Py.truediv v (Py.PyInt 4)) ;;
         Py.iadd_item L (Tup []) (Py.truediv v (Py.PyInt 4))
     | _ => Return L
     end) = (d <~ o1 ;; Return (Py.mkPoly IsingMatrix d))
    /\ (sk <~ lift (squash_key PUBO (Tup k)) ;;
        l <~ Py.pubo_generate_new_key_value depth sk ;;
        ofoldM (fun H '(key, value) => Py.iadd_item H (Tup key) (Py.mul value v)) l H)
       = (d <~ o2 ;; Return (Py.mkPoly HIsing d))
    /\ osim o1 o2.
Proof.
  intros Hd Hk (S1 & S2 & S4) HcL HcH Hag.
  assert (Hlen : (length k <= 2)%nat) by (apply (proj2 Hk); reflexivity).
  rewrite (squash_key_okkey QUBOMatrix k Hk).
  rewrite (squash_key_okkey PUBO k) by (split; [apply Hk | discriminate]).
  cbn [lift obind]. rewrite (py_pubo_generate_short depth k Hd Hlen). cbn [obind].
  destruct L as [cL dL], H as [cH dH]; simpl in HcL, HcH, Hag; subst cL cH.
  rewrite (ofoldM_ext _ (fun H kv => (fun H '(k, e) => Py.iadd_item H (Tup k) e)
                                      H (fst kv, Py.mul (snd kv) v)))
    by (intros a [key value]; reflexivity).
  rewrite (ofoldM_map (fun H '(k, e) => Py.iadd_item H (Tup k) e)
             (fun kv => (fst kv, Py.mul (snd kv) v))).
  destruct k as [|i [|j [|? ?]]]; simpl in Hlen; try lia.
  - exists (upds dL [([], Return v)]), (upds dH [([], Return v)]).
    split; [|split].
    + rewrite <- (py_iadd_items_upds IsingMatrix)
        by (repeat constructor; apply okkey_nil).
      cbn [ofoldM]. now rewrite obind_Return.
    + cbn [map fst snd]. rewrite S1.
      apply (py_iadd_items_upds HIsing). repeat constructor; apply okkey_nil.
    + now apply upds_agree.
  - set (e := Py.truediv v (Py.PyInt 2)).
    exists (upds dL [([i], e); ([], e)]), (upds dH [([i], e); ([], e)]).
    split; [|split].
    + rewrite <- (py_iadd_items_upds IsingMatrix)
        by (repeat constructor; auto using okkey_nil, okkey_single).
      cbn [ofoldM]. destruct (Py.iadd_item _ (Tup [i]) e); cbn [obind];
        [now rewrite obind_Return | reflexivity].
    + cbn [map fst snd]. unfold half in S2 |- *. rewrite S2. fold e.
      apply (py_iadd_items_upds HIsing).
      repeat constructor; auto using okkey_nil, okkey_single.
    + now apply upds_agree.
  - set (e := Py.truediv v (Py.PyInt 4)).
    pose proof (okkey_pair_inv _ _ _ Hk) as Hij.
    assert (Hp : forall c, okkey c [i; j]).
    { intros c. split; [apply Hk | simpl; lia]. }
    exists (upds dL [([i; j], e); ([i], e); ([j], e); ([], e)]),
           (upds dH [([i; j], e); ([j], e); ([i], e); ([], e)]).
    split; [|split].
    + rewrite <- (py_iadd_items_upds IsingMatrix)
        by (repeat constructor; auto using okkey_nil, okkey_single).
      cbn [ofoldM].
      destruct (Py.iadd_item _ (Tup [i; j]) e); cbn [obind]; [|reflexivity].
      destruct (Py.iadd_item _ (Tup [i]) e); cbn [obind]; [|reflexivity].
      destruct (Py.iadd_item _ (Tup [j]) e); cbn [obind]; [|reflexivity].
      now rewrite obind_Return.
    + cbn [map fst snd]. unfold quarter in S4 |- *. rewrite S4. fold e.
      apply (py_iadd_items_upds HIsing).
      repeat constructor; auto using okkey_nil, okkey_single.
    + unfold upds at 1 2. cbn [ofoldM].
      apply osim_bind; [now apply upd_agree|]. intros a b Hab.
      change (osim (upds a [([i], e); ([j], e); ([], e)])
                   (upds b [([j], e); ([i], e); ([], e)])).
      apply (osim_trans _ (upds a [([j], e); ([i], e); ([], e)])).
      * apply upds_swap; [apply Hab|]. intros [= E]. lia.
      * now apply upds_agree.
Qed.

Lemma same_mapping_eqb (d1 d2 : dict key Py.num) :
  agree d1 d2 ->
  Forall (fun kv => Py.eqb (snd kv) (snd kv) = true) d1 ->
  Py.dict_eqb d1 d2 = true.
Proof.
  intros (H & N1 & N2) Hnan. unfold Py.dict_eqb. apply andb_true_intro. split.
  - apply Nat.eqb_eq. unfold keys in *. rewrite <- (length_map fst d1), <- (length_map fst d2).
    apply Nat.le_antisymm; apply NoDup_incl_length; auto; intros k Hin.
    + destruct (dict_get key_eq_dec d2 k) eqn:E.
      * apply dict_get_In in E. apply (in_map fst) in E. exact E.
      * rewrite <- H in E. apply dict_get_None in E. contradiction.
    + destruct (dict_get key_eq_dec d1 k) eqn:E.
      * apply dict_get_In in E. apply (in_map fst) in E. exact E.
      * rewrite H in E. apply dict_get_None in E. contradiction.
  - apply forallb_forall. intros [k v] Hin.
    rewrite <- H, (In_dict_get _ _ _ _ N1 Hin).
    rewrite Forall_forall in Hnan. apply (Hnan (k, v) Hin).
Qed.

(** C10.  For every [QUBOMatrix] [Q] (a dictionary in the state its class
    maintains) whose coefficients [v] are scaled alike by the two converters
    ([1 * v] is [v], [0.5 * v] is what [v / 2] is, [0.25 * v] what [v / 4]
    is), and a recursion limit that allows three nested calls,
    [qubo_to_ising(Q)] and [pubo_to_hising(Q)] both return, and their results
    map the same keys to the same numbers, so that they are equal as
    dictionaries unless a coefficient is NaN; or both raise the same
    exception.  (The first result is an [IsingMatrix]; [Q] not being exactly
    a [PUBOMatrix], the second is built as an [HIsing].) *)
Theorem py_qubo_to_ising_agrees_pubo_to_hising (Q : Py.poly) (depth : nat) :
  Py.cls Q = QUBOMatrix -> wf_items QUBOMatrix (Py.items Q) ->
  Forall (fun kv => same_scaling (snd kv)) (Py.items Q) ->
  (3 <= depth)%nat ->
  match Py.qubo_to_ising Q, Py.pubo_to_hising depth Q with
  | Return L, Return H =>
      Py.cls L = IsingMatrix /\ Py.cls H = HIsing
      /\ same_mapping (Py.items L) (Py.items H)
      /\ (Forall (fun kv => Py.eqb (snd kv) (snd kv) = true) (Py.items L) ->
          Py.dict_eqb (Py.items L) (Py.items H) = true)
  | Throw e, Throw e' => e = e'
  | _, _ => False
  end.
Proof.
  intros Hc [_ Hk _] Hs Hd.
  unfold Py.qubo_to_ising, Py.pubo_to_hising. rewrite Hc. simpl.
  assert (G : forall l L H,
             Forall (fun kv => okkey QUBOMatrix (fst kv)) l ->
             Forall (fun kv => same_scaling (snd kv)) l ->
             Py.cls L = IsingMatrix -> Py.cls H = HIsing ->
             agree (Py.items L) (Py.items H) ->
             match
               ofoldM (fun L '(kp, v) =>
                    k <~ lift (squash_key QUBOMatrix (Tup kp)) ;;
                    match k with
                    | [] => Py.iadd_item L (Tup k) (Return v)
                    | [_] =>
                        L <~ Py.iadd_item L (Tup k) (Py.truediv v (Py.PyInt 2)) ;;
                        Py.iadd_item L (Tup []) (Py.truediv v (Py.PyInt 2))
                    | [i; j] =>
                        L <~ Py.iadd_item L (Tup k) (Py.truediv v (Py.PyInt 4)) ;;
                        L <~ Py.iadd_item L (Tup [i]) (Py.truediv v (Py.PyInt 4)) ;;
                        L <~ Py.iadd_item L (Tup [j]) (Py.truediv v (Py.PyInt 4)) ;;
                        Py.iadd_item L (Tup []) (Py.truediv v (Py.PyInt 4))
                    | _ => Return L
                    end) l L,
               ofoldM (fun H '(k, v) =>
                    sk <~ lift (squash_key PUBO (Tup k)) ;;
                    l <~ Py.pubo_generate_new_key_value depth sk ;;
                    ofoldM (fun H '(key, value) =>
                              Py.iadd_item H (Tup key) (Py.mul value v)) l H) l H
             with
             | Return L', Return H' =>
                 Py.cls L' = IsingMatrix /\ Py.cls H' = HIsing
                 /\ agree (Py.items L') (Py.items H')
             | Throw e, Throw e' => e = e'
             | _, _ => False
             end).
  { induction l as [|[k v] t IH]; intros L H Hkl Hsl HcL HcH Hag.
    - simpl. auto.
    - inversion Hkl as [|? ? Hk1 Hkt]; subst. inversion Hsl as [|? ? Hs1 Hst]; subst.
      simpl in Hk1, Hs1. cbn [ofoldM].
      destruct (py_quadratic_turn depth L H k v Hd Hk1 Hs1 HcL HcH Hag)
        as (o1 & o2 & -> & -> & Ho).
      destruct o1 as [a|x], o2 as [b|y]; simpl in Ho; try contradiction.
      + cbn [obind]. now apply IH.
      + subst. reflexivity. }
  specialize (G (Py.items Q) (Py.new IsingMatrix) (Py.new HIsing) Hk Hs
                eq_refl eq_refl (agree_refl [] (NoDup_nil _))).
  destruct (ofoldM _ (Py.items Q) (Py.new IsingMatrix)) as [L|e];
    destruct (ofoldM _ (Py.items Q) (Py.new HIsing)) as [H|e']; auto.
  destruct G as (HcL & HcH & Hag). repeat split; auto; try apply Hag.
  intros Hnan. now apply same_mapping_eqb.
Qed.

Lemma mixed_qubo_wf : wf_items QUBOMatrix (Py.items mixed_qubo).
Proof.
  constructor; simpl.
  - repeat constructor; simpl; intuition discriminate.
  - repeat constructor; simpl; lia.
  - repeat constructor.
Qed.

Lemma mixed_qubo_scaling :
  Forall (fun kv => same_scaling (snd kv)) (Py.items mixed_qubo).
Proof.
  repeat constructor; vm_compute; reflexivity.
Qed.

Lemma py_qubo_to_ising_agrees_pubo_to_hising_example :
  match Py.qubo_to_ising mixed_qubo, Py.pubo_to_hising 3 mixed_qubo with
  | Return L, Return H =>
      Py.cls L = IsingMatrix /\ Py.cls H = HIsing
      /\ same_mapping (Py.items L) (Py.items H)
      /\ (Forall (fun kv => Py.eqb (snd kv) (snd kv) = true) (Py.items L) ->
          Py.dict_eqb (Py.items L) (Py.items H) = true)
  | Throw e, Throw e' => e = e'
  | _, _ => False
  end.
Proof.
  apply (py_qubo_to_ising_agrees_pubo_to_hising mixed_qubo 3).
  - reflexivity.
  - exact mixed_qubo_wf.
  - exact mixed_qubo_scaling.
  - lia.
Defined.

Lemma huge_qubo_wf : wf_items QUBOMatrix (Py.items huge_qubo).
Proof.
  constructor; simpl.
  - repeat constructor; simpl; intuition discriminate.
  - repeat constructor; simpl; lia.
  - repeat constructor.
Qed.

(** For the [int] coefficient [2**1024], [v / 2] is the float [2**1023]
    and [qubo_to_ising] returns, while [0.5 * v] raises [OverflowError]
    and with it [pubo_to_hising], whatever the recursion limit. *)
Lemma huge_int_converters_disagree :
  Py.cls huge_qubo = QUBOMatrix /\ wf_items QUBOMatrix (Py.items huge_qubo)
  /\ (exists L, Py.qubo_to_ising huge_qubo = Return L)
  /\ forall depth, exists e, Py.pubo_to_hising depth huge_qubo = Throw e.
Proof.
  split; [reflexivity|]. split; [exact huge_qubo_wf|]. split.
  - destruct (Py.qubo_to_ising huge_qubo) as [L|e] eqn:E;
      [eauto | vm_compute in E; discriminate E].
  - intros [|[|depth]].
    + exists RecursionError. reflexivity.
    + exists RecursionError. reflexivity.
    + exists OverflowError. vm_compute. reflexivity.
Qed.

(** ** Further properties on Python's numbers *)

Lemma Forall_rational {K} (P : K -> Prop) (D : dict K Py.num) :
  Forall (fun kv => P (fst kv)) (rational D) <-> Forall (fun kv => P (fst kv)) D.
Proof.
  unfold rational. rewrite Forall_map. simpl. reflexivity.
Qed.

Lemma Exists_rational {K} (P : K -> Prop) (D : dict K Py.num) :
  Exists (fun kv => P (fst kv)) (rational D) <-> Exists (fun kv => P (fst kv)) D.
Proof.
  unfold rational. rewrite Exists_map. simpl. reflexivity.
Qed.

Lemma rel_poly_wf (fr : bool) (P : Py.poly) (p : poly) :
  rel_poly fr P p -> wf_poly p -> wf_items (Py.cls P) (Py.items P).
Proof.
  intros [Hc Hi] Hw. rewrite Hc. apply (rel_wf_items fr _ _ _ Hi).
  now destruct p.
Qed.

(** X1.  On an [IsingMatrix] with [int] or [Fraction] coefficients,
    [ising_to_qubo] returns a [QUBOMatrix] in the state of its class, and the
    spin polynomial and the binary polynomial take the same value at
    corresponding assignments. *)
Theorem py_ising_to_qubo_preserves_value (L : Py.poly) (x : nat -> Qc) :
  Py.cls L = IsingMatrix -> wf_items IsingMatrix (Py.items L) ->
  exact_items false (Py.items L) ->
  exists Q val,
    Py.ising_to_qubo L = Return Q /\ Py.cls Q = QUBOMatrix
    /\ wf_items QUBOMatrix (Py.items Q)
    /\ rat_value (Py.items L) (to_spin x) = Some val
    /\ rat_value (Py.items Q) x = Some val.
Proof.
  intros Hc Hw He.
  pose proof (rel_reading false L He) as HL.
  assert (Hwf : wf_poly (reading L)).
  { apply (wf_reading false); [exact He | now rewrite Hc]. }
  destruct (ising_to_qubo_preserves_value (reading L) x Hc Hwf)
    as (q & Hq & Hcq & Hwq & Hv).
  pose proof (rel_ising_to_qubo false L _ HL) as R1. rewrite Hq in R1.
  apply rel_outcome_Return in R1. destruct R1 as (Q & HQ & RQ).
  exists Q, (value (items (reading L)) (to_spin x)).
  split; [exact HQ|]. split; [now rewrite (proj1 RQ)|].
  split; [rewrite <- Hcq, <- (proj1 RQ); apply (rel_poly_wf false _ _ RQ Hwq)|].
  split; [apply (rel_rat_value false), HL|].
  rewrite <- Hv. apply (rel_rat_value false), RQ.
Qed.

Lemma int_ising_wf : wf_items IsingMatrix (Py.items int_ising).
Proof.
  constructor; simpl.
  - repeat constructor; simpl; intuition discriminate.
  - repeat constructor; simpl; lia.
  - repeat constructor.
Qed.

Lemma py_ising_to_qubo_preserves_value_example :
  exists Q val,
    Py.ising_to_qubo int_ising = Return Q /\ Py.cls Q = QUBOMatrix
    /\ wf_items QUBOMatrix (Py.items Q)
    /\ rat_value (Py.items int_ising) (to_spin example_binary) = Some val
    /\ rat_value (Py.items Q) example_binary = Some val.
Proof.
  apply (py_ising_to_qubo_preserves_value int_ising example_binary).
  - reflexivity.
  - exact int_ising_wf.
  - repeat constructor.
Defined.

(** X2.  On an [IsingMatrix] with [Fraction] coefficients, [qubo_to_ising]
    undoes [ising_to_qubo]. *)
Theorem py_qubo_to_ising_ising_to_qubo (L : Py.poly) :
  Py.cls L = IsingMatrix -> wf_items IsingMatrix (Py.items L) ->
  exact_items true (Py.items L) ->
  exists Q L',
    Py.ising_to_qubo L = Return Q /\ Py.cls Q = QUBOMatrix /\
    Py.qubo_to_ising Q = Return L' /\ Py.cls L' = IsingMatrix /\
    Py.dict_eqb (Py.items L') (Py.items L) = true.
Proof.
  intros Hc Hw He.
  pose proof (rel_reading true L He) as HL.
  assert (Hwf : wf_poly (reading L)).
  { apply (wf_reading true); [exact He | now rewrite Hc]. }
  destruct (qubo_to_ising_ising_to_qubo (reading L) Hc Hwf)
    as (q & l' & Hq & Hcq & Hl & Hcl & Heq).
  pose proof (rel_ising_to_qubo true L _ HL) as R1. rewrite Hq in R1.
  apply rel_outcome_Return in R1. destruct R1 as (Q & HQ & RQ).
  pose proof (rel_qubo_to_ising Q q RQ) as R2. rewrite Hl in R2.
  apply rel_outcome_Return in R2. destruct R2 as (L' & HL' & RL').
  exists Q, L'. split; [exact HQ|]. split; [now rewrite (proj1 RQ)|].
  split; [exact HL'|]. split; [now rewrite (proj1 RL')|].
  rewrite (rat_dict_eqb _ _ _ _ (rel_rat_items _ _ _ (proj2 RL'))
             (rel_rat_items _ _ _ (proj2 HL))).
  exact Heq.
Qed.

Lemma fraction_ising_wf : wf_items IsingMatrix (Py.items fraction_ising).
Proof.
  constructor; simpl.
  - repeat constructor; simpl; intuition discriminate.
  - repeat constructor; simpl; lia.
  - repeat constructor.
Qed.

Lemma py_qubo_to_ising_ising_to_qubo_example :
  exists Q L',
    Py.ising_to_qubo fraction_ising = Return Q /\ Py.cls Q = QUBOMatrix /\
    Py.qubo_to_ising Q = Return L' /\ Py.cls L' = IsingMatrix /\
    Py.dict_eqb (Py.items L') (Py.items fraction_ising) = true.
Proof.
  apply (py_qubo_to_ising_ising_to_qubo fraction_ising).
  - reflexivity.
  - exact fraction_ising_wf.
  - repeat constructor.
Defined.

(** X4.  On an [HIsingMatrix] of any degree with [int] or [Fraction]
    coefficients, and within the recursion limit, [hising_to_pubo] returns a
    [PUBOMatrix] in the state of its class that takes the same value under
    [z = 2x - 1]. *)
Theorem py_hising_to_pubo_value (depth : nat) (H : Py.poly) (x : nat -> Qc) :
  Py.cls H = HIsingMatrix -> wf_items HIsingMatrix (Py.items H) ->
  exact_items false (Py.items H) ->
  Forall (fun kv => (length (fst kv) < depth)%nat) (Py.items H) ->
  exists P val,
    Py.hising_to_pubo depth H = Return P /\ Py.cls P = PUBOMatrix
    /\ wf_items PUBOMatrix (Py.items P)
    /\ rat_value (Py.items H) (to_spin x) = Some val
    /\ rat_value (Py.items P) x = Some val.
Proof.
  intros Hc Hw He Hd.
  pose proof (rel_reading false H He) as HH.
  assert (Hwf : wf_poly (reading H)).
  { apply (wf_reading false); [exact He | now rewrite Hc]. }
  destruct (hising_to_pubo_value (reading H) x Hc Hwf)
    as (p & Hp & Hcp & Hwp & Hv).
  pose proof (rel_hising_to_pubo false depth H _ HH
                (proj2 (Forall_rational (fun k => (length k < depth)%nat) _) Hd)) as R1.
  rewrite Hp in R1. apply rel_outcome_Return in R1. destruct R1 as (P & HP & RP).
  exists P, (value (items (reading H)) (to_spin x)).
  split; [exact HP|]. split; [now rewrite (proj1 RP)|].
  split; [rewrite <- Hcp, <- (proj1 RP); apply (rel_poly_wf false _ _ RP Hwp)|].
  split; [apply (rel_rat_value false), HH|].
  rewrite <- Hv. apply (rel_rat_value false), RP.
Qed.

Lemma int_hising_wf : wf_items HIsingMatrix (Py.items int_hising).
Proof.
  constructor; simpl.
  - repeat constructor; simpl; intuition discriminate.
  - repeat constructor; simpl; discriminate.
  - repeat constructor.
Qed.

Lemma py_hising_to_pubo_value_example :
  exists P val,
    Py.hising_to_pubo 4 int_hising = Return P /\ Py.cls P = PUBOMatrix
    /\ wf_items PUBOMatrix (Py.items P)
    /\ rat_value (Py.items int_hising) (to_spin example_binary) = Some val
    /\ rat_value (Py.items P) example_binary = Some val.
Proof.
  apply (py_hising_to_pubo_value 4 int_hising example_binary).
  - reflexivity.
  - exact int_hising_wf.
  - repeat constructor.
  - repeat constructor.
Defined.

(** X7.  [qubo_to_ising] on any dictionary with [Fraction] coefficients,
    whatever its keys: if some key holds more than two distinct indices it
    raises; otherwise it returns, an [IsingMatrix] for a [QUBOMatrix] and an
    [Ising] for anything else, in the state of its class, and at every
    boolean assignment [x] the result's value at the spins [2x - 1] is the
    value at [x] of the terms as written. *)
Theorem py_qubo_to_ising_any_dict (Q : Py.poly) :
  exact_items true (Py.items Q) ->
  (Exists (fun kv => (2 < length (canonical BINARY (fst kv)))%nat) (Py.items Q) ->
   Py.qubo_to_ising Q = Throw (Container InvalidTermDegree))
  /\ (Forall (fun kv => (length (canonical BINARY (fst kv)) <= 2)%nat) (Py.items Q) ->
      exists L, Py.qubo_to_ising Q = Return L
                /\ Py.cls L = (if pyclass_eq_dec (Py.cls Q) QUBOMatrix
                               then IsingMatrix else Ising)
                /\ wf_items (Py.cls L) (Py.items L)
                /\ forall x, boolean x ->
                             exists val,
                               rat_value (Py.items Q) x = Some val
                               /\ rat_value (Py.items L) (to_spin x) = Some val).
Proof.
  intros He. pose proof (rel_reading true Q He) as HQ.
  pose proof (rel_qubo_to_ising Q _ HQ) as R1.
  destruct (qubo_to_ising_any_dict (reading Q)) as [Hraise Hret]. split.
  - intros Hex. rewrite Hraise in R1.
    + now apply rel_outcome_Raise in R1.
    + apply (Exists_rational (fun k => (2 < length (canonical BINARY k))%nat)), Hex.
  - intros Hall. destruct Hret as (l & Hl & Hcl & Hwl & Hv).
    { apply (Forall_rational (fun k => (length (canonical BINARY k) <= 2)%nat)), Hall. }
    rewrite Hl in R1. apply rel_outcome_Return in R1. destruct R1 as (L & HL & RL).
    exists L. split; [exact HL|]. split; [now rewrite (proj1 RL)|].
    split; [apply (rel_poly_wf true _ _ RL Hwl)|].
    intros x Hx. exists (value (items (reading Q)) x).
    split; [apply (rel_rat_value true), HQ|].
    rewrite <- (Hv x Hx). apply (rel_rat_value true), RL.
Qed.

Lemma fraction_raw_exact : exact_items true (Py.items fraction_raw).
Proof. repeat constructor. Qed.

Lemma py_qubo_to_ising_any_dict_example :
  exists L, Py.qubo_to_ising fraction_raw = Return L
            /\ Py.cls L = Ising
            /\ wf_items (Py.cls L) (Py.items L)
            /\ forall x, boolean x ->
                         exists val,
                           rat_value (Py.items fraction_raw) x = Some val
                           /\ rat_value (Py.items L) (to_spin x) = Some val.
Proof.
  apply (proj2 (py_qubo_to_ising_any_dict fraction_raw fraction_raw_exact)).
  repeat constructor.
Defined.

(** X28.  [ising_to_qubo] on any dictionary with [int] or [Fraction]
    coefficients, whatever its keys: a key is first reduced to the indices
    that occur in it an odd number of times; if more than two remain for some
    key it raises; otherwise it returns, a [QUBOMatrix] for an [IsingMatrix]
    and a [QUBO] for anything else, in the state of its class, and at every
    boolean [x] the result's value is the value of the terms as written at
    the spins [2x - 1]. *)
Theorem py_ising_to_qubo_any_dict (L : Py.poly) :
  exact_items false (Py.items L) ->
  (Exists (fun kv => (2 < length (canonical SPIN (fst kv)))%nat) (Py.items L) ->
   Py.ising_to_qubo L = Throw (Container InvalidTermDegree))
  /\ (Forall (fun kv => (length (canonical SPIN (fst kv)) <= 2)%nat) (Py.items L) ->
      exists Q, Py.ising_to_qubo L = Return Q
                /\ Py.cls Q = (if pyclass_eq_dec (Py.cls L) IsingMatrix
                               then QUBOMatrix else QUBO)
                /\ wf_items (Py.cls Q) (Py.items Q)
                /\ forall x, boolean x ->
                             exists val,
                               rat_value (Py.items L) (to_spin x) = Some val
                               /\ rat_value (Py.items Q) x = Some val).
Proof.
  intros He. pose proof (rel_reading false L He) as HL.
  pose proof (rel_ising_to_qubo false L _ HL) as R1.
  destruct (ising_to_qubo_any_dict (reading L)) as [Hraise Hret]. split.
  - intros Hex. rewrite Hraise in R1.
    + now apply rel_outcome_Raise in R1.
    + apply (Exists_rational (fun k => (2 < length (canonical SPIN k))%nat)), Hex.
  - intros Hall. destruct Hret as (q & Hq & Hcq & Hwq & Hv).
    { apply (Forall_rational (fun k => (length (canonical SPIN k) <= 2)%nat)), Hall. }
    rewrite Hq in R1. apply rel_outcome_Return in R1. destruct R1 as (Q & HQ & RQ).
    exists Q. split; [exact HQ|]. split; [now rewrite (proj1 RQ)|].
    split; [apply (rel_poly_wf false _ _ RQ Hwq)|].
    intros x Hx. exists (value (items (reading L)) (to_spin x)).
    split; [apply (rel_rat_value false), HL|].
    rewrite <- (Hv x Hx). apply (rel_rat_value false), RQ.
Qed.

Lemma int_raw_spin_exact : exact_items false (Py.items int_raw_spin).
Proof. repeat constructor. Qed.

Lemma py_ising_to_qubo_any_dict_example :
  exists Q, Py.ising_to_qubo int_raw_spin = Return Q
            /\ Py.cls Q = QUBO
            /\ wf_items (Py.cls Q) (Py.items Q)
            /\ forall x, boolean x ->
                         exists val,
                           rat_value (Py.items int_raw_spin) (to_spin x) = Some val
                           /\ rat_value (Py.items Q) x = Some val.
Proof.
  apply (proj2 (py_ising_to_qubo_any_dict int_raw_spin int_raw_spin_exact)).
  repeat constructor.
Defined.

(** X29.  [hising_to_pubo] on any dictionary with [int] or [Fraction]
    coefficients, whatever its keys and its degree: within the recursion
    limit it returns, a [PUBOMatrix] for an [HIsingMatrix] and a [PUBO] for
    anything else, in the state of its class, and at every boolean [x] the
    result's value is the value of the terms as written at the spins
    [2x - 1]. *)
Theorem py_hising_to_pubo_any_dict (depth : nat) (H : Py.poly) (x : nat -> Qc) :
  exact_items false (Py.items H) ->
  Forall (fun kv => (length (fst kv) < depth)%nat) (Py.items H) ->
  boolean x ->
  exists P val,
    Py.hising_to_pubo depth H = Return P
    /\ Py.cls P = (if pyclass_eq_dec (Py.cls H) HIsingMatrix
                   then PUBOMatrix else PUBO)
    /\ wf_items (Py.cls P) (Py.items P)
    /\ rat_value (Py.items H) (to_spin x) = Some val
    /\ rat_value (Py.items P) x = Some val.
Proof.
  intros He Hd Hx. pose proof (rel_reading false H He) as HH.
  destruct (hising_to_pubo_any_dict (reading H) x Hx) as (p & Hp & Hcp & Hwp & Hv).
  pose proof (rel_hising_to_pubo false depth H _ HH
                (proj2 (Forall_rational (fun k => (length k < depth)%nat) _) Hd)) as R1.
  rewrite Hp in R1. apply rel_outcome_Return in R1. destruct R1 as (P & HP & RP).
  exists P, (value (items (reading H)) (to_spin x)).
  split; [exact HP|]. split; [now rewrite (proj1 RP)|].
  split; [apply (rel_poly_wf false _ _ RP Hwp)|].
  split; [apply (rel_rat_value false), HH|].
  rewrite <- Hv. apply (rel_rat_value false), RP.
Qed.

Lemma py_hising_to_pubo_any_dict_example :
  exists P val,
    Py.hising_to_pubo 4 int_raw_spin = Return P
    /\ Py.cls P = PUBO
    /\ wf_items (Py.cls P) (Py.items P)
    /\ rat_value (Py.items int_raw_spin) (to_spin example_binary) = Some val
    /\ rat_value (Py.items P) example_binary = Some val.
Proof.
  apply (py_hising_to_pubo_any_dict 4 int_raw_spin example_binary).
  - repeat constructor.
  - repeat constructor.
  - intros i. unfold example_binary. destruct (i =? 0)%nat; auto.
Defined.

(** X24.  For a list (or tuple) [x] of bits that covers the indices of a
    [QUBOMatrix] [Q] with [Fraction] coefficients, the value of [Q] at [x] is
    the value of [qubo_to_ising(Q)] at [binary_to_spin(x)]: the two functions
    use the same correspondence between bits and spins. *)
Theorem py_qubo_to_ising_binary_to_spin (Q : Py.poly) (t : seq_type) (x : list Z) :
  Py.cls Q = QUBOMatrix -> wf_items QUBOMatrix (Py.items Q) ->
  exact_items true (Py.items Q) ->
  Forall (fun kv => Forall (fun i => (i < length x)%nat) (fst kv)) (Py.items Q) ->
  Forall bit x ->
  exists L z val,
    Py.qubo_to_ising Q = Return L
    /\ binary_to_spin (Seq t x) = Return (Seq t z)
    /\ rat_value (Py.items Q) (assignment x) = Some val
    /\ rat_value (Py.items L) (assignment z) = Some val.
Proof.
  intros Hc Hw He Hb Hx.
  pose proof (rel_reading true Q He) as HQ.
  assert (Hwf : wf_poly (reading Q)).
  { apply (wf_reading true); [exact He | now rewrite Hc]. }
  destruct (qubo_to_ising_binary_to_spin (reading Q) t x Hc Hwf) as (l & z & Hl & Hz & Hv).
  { apply (Forall_rational (fun k => Forall (fun i => (i < length x)%nat) k)), Hb. }
  { exact Hx. }
  pose proof (rel_qubo_to_ising Q _ HQ) as R1. rewrite Hl in R1.
  apply rel_outcome_Return in R1. destruct R1 as (L & HL & RL).
  exists L, z, (value (items (reading Q)) (assignment x)).
  split; [exact HL|]. split; [exact Hz|].
  split; [apply (rel_rat_value true), HQ|].
  rewrite <- Hv. apply (rel_rat_value true), RL.
Qed.

Lemma py_qubo_to_ising_binary_to_spin_example :
  exists L z val,
    Py.qubo_to_ising fraction_qubo = Return L
    /\ binary_to_spin (Seq PyList [1; 0]%Z) = Return (Seq PyList z)
    /\ rat_value (Py.items fraction_qubo) (assignment [1; 0]%Z) = Some val
    /\ rat_value (Py.items L) (assignment z) = Some val.
Proof.
  apply (py_qubo_to_ising_binary_to_spin fraction_qubo PyList [1; 0]%Z).
  - reflexivity.
  - exact fraction_qubo_wf.
  - repeat constructor.
  - repeat constructor.
  - repeat (apply Forall_cons || apply Forall_nil); unfold bit; lia.
Defined.

(** X12.  On a [PUBO] with [int] or [Fraction] coefficients and weights,
    every boolean assignment [x] of the original variables extends to the
    ancillas, each set to the product of its pair in the order of
    registration, and there the quadratic polynomial of [to_qubo] takes the
    value of the terms of the [PUBO] at [x]: the assignment stays boolean,
    keeps [x] on the original indices, satisfies every registered constraint,
    and is the only such one below the counter. *)
Theorem py_to_qubo_attains (self : Py.pubo)
  (lam : option (Py.num -> outcome Py.num)) (ST : Py.reducer) (x : nat -> Qc) :
  (forall kp v, In (kp, v) (Py.terms self) ->
                NoDup kp /\ exact false v = true
                /\ ((2 < length kp)%nat ->
                    exists w, Py.weight lam v = Return w /\ exact false w = true)) ->
  Py.to_qubo_run self (Py.weight lam) = Return ST -> boolean x ->
  boolean (extend_assignment (Py.reductions ST) x)
  /\ (forall i, (i < Py.num_binary_variables self)%nat ->
                extend_assignment (Py.reductions ST) x i = x i)
  /\ respects (extend_assignment (Py.reductions ST) x) (Py.reductions ST)
  /\ (exists l val,
        py_mapped_terms self (Py.terms self) = Return l
        /\ rat_value l x = Some val
        /\ rat_value (Py.items (Py.Q_ ST)) (extend_assignment (Py.reductions ST) x)
           = Some val)
  /\ (forall a, respects a (Py.reductions ST) ->
                (forall i, (i < Py.num_binary_variables self)%nat -> a i = x i) ->
                forall i, (i < Py.ancilla ST)%nat ->
                          a i = extend_assignment (Py.reductions ST) x i).
Proof.
  intros Hts Hrun Hx.
  destruct (py_to_qubo_fold self (Py.weight lam) (Py.terms self)
              (Py.mkReducer (Py.new QUBOMatrix) (Py.num_binary_variables self) [])
              ST (to_qubo_init (to_exact self)) Hts)
    as (st' & L & l & Hst' & Hwf & _ & HL & Hl & Hml & Hval).
  { split; [apply rel_new|]. split; reflexivity. }
  { apply (wf_reducer_init (to_exact self)). }
  { exact Hrun. }
  destruct Hst' as (HQ & HA & HR). rewrite HR, HA.
  pose proof (red_registry _ _ Hwf) as HReg.
  destruct (extend_assignment_spec _ _ _ x HReg Hx) as (Hb & Hagree & Hresp).
  repeat match goal with |- _ /\ _ => split end; auto.
  - exists L, (value l x). split; [exact HL|].
    split; [apply (rel_rat_value false), Hl|].
    rewrite (rel_rat_value false _ _ _ (proj2 HQ)), (Hval _ Hb Hresp). simpl.
    f_equal. rewrite Qcplus_0_l.
    apply value_ext. intros k v i Hin Hi. apply Hagree. left.
    apply (mapped_terms_bound (to_exact self) _ _ Hml k v i Hin Hi).
  - intros a Ha Hax i. induction i as [i IHi] using lt_wf_ind. intros Hi.
    destruct (Nat.lt_ge_cases i (Py.num_binary_variables self)) as [Hlt|Hge].
    + rewrite Hagree by auto. now apply Hax.
    + assert (Hin : In i (map snd (reductions st'))).
      { rewrite (reg_values _ _ _ HReg). apply in_seq.
        rewrite (reg_next _ _ _ HReg) in Hi. lia. }
      apply in_map_iff in Hin. destruct Hin as [[k z] [Ez Hin]]. simpl in Ez. subst z.
      apply (In_dict_get key_eq_dec _ _ _ (reg_keys _ _ _ HReg)) in Hin.
      destruct (registry_pair _ _ _ HReg _ _ Hin) as (x0 & y0 & -> & Hxy & Hyz).
      rewrite (Ha _ _ _ Hin), (Hresp _ _ _ Hin).
      rewrite (IHi x0), (IHi y0) by lia. reflexivity.
Qed.

Lemma py_to_qubo_attains_example :
  exists ST,
    Py.to_qubo_run fraction_pubo (Py.weight None) = Return ST
    /\ boolean (extend_assignment (Py.reductions ST) example_binary)
    /\ (forall i, (i < Py.num_binary_variables fraction_pubo)%nat ->
                  extend_assignment (Py.reductions ST) example_binary i
                  = example_binary i)
    /\ respects (extend_assignment (Py.reductions ST) example_binary)
                (Py.reductions ST)
    /\ (exists l val,
          py_mapped_terms fraction_pubo (Py.terms fraction_pubo) = Return l
          /\ rat_value l example_binary = Some val
          /\ rat_value (Py.items (Py.Q_ ST))
                       (extend_assignment (Py.reductions ST) example_binary)
             = Some val)
    /\ (forall a, respects a (Py.reductions ST) ->
                  (forall i, (i < Py.num_binary_variables fraction_pubo)%nat ->
                             a i = example_binary i) ->
                  forall i, (i < Py.ancilla ST)%nat ->
                            a i = extend_assignment (Py.reductions ST) example_binary i).
Proof.
  destruct (Py.to_qubo_run fraction_pubo (Py.weight None)) as [ST|e] eqn:Hrun;
    [|vm_compute in Hrun; discriminate Hrun].
  exists ST. split; [reflexivity|].
  apply (py_to_qubo_attains fraction_pubo None ST example_binary);
    [exact fraction_pubo_terms | exact Hrun |].
  intros i. unfold example_binary. destruct (i =? 0)%nat; auto.
Defined.
